(** * Cross-platform path translation and reference consistency

    A shallow embedding of the path classifier, the path translator, the
    location codec, the two document scan passes and the reference rewriter
    of the CMDS Eagle plugin (the plugin's main class), with the properties
    of its specification stated and settled against that embedding.

    JavaScript strings are sequences of UTF-16 code units: they are modelled
    as [list N].  The host's document store is a finite map from note paths
    to note contents, and the attributes of a rendered image node are a
    finite map from attribute names to values. *)

From Stdlib Require Import NArith Ascii String Lia.
From stdpp Require Import base option list gmap strings sorting.

Local Open Scope N_scope.

(** ** JavaScript strings *)

Abbreviation jsstring := (list N).

(** A string literal of the source, as code units (ASCII literals only). *)
Definition lit (s : string) : jsstring :=
  (λ a, N_of_ascii a) <$> list_ascii_of_string s.
Global Arguments lit : simpl never.

Definition str_eqb (a b : jsstring) : bool := bool_decide (a = b).

(** [s.startsWith(p)], returning the rest of [s] after the prefix. *)
Fixpoint stripPrefix (p s : jsstring) : option jsstring :=
  match p, s with
  | [], _ => Some s
  | c :: p', d :: s' => if c =? d then stripPrefix p' s' else None
  | _ :: _, [] => None
  end.

Definition startsWith (p s : jsstring) : bool :=
  match stripPrefix p s with Some _ => true | None => false end.

(** The first occurrence of [p] in [s]: the text before it and the text
    after it. *)
Fixpoint splitAtFirst (p s : jsstring) : option (jsstring * jsstring) :=
  match stripPrefix p s with
  | Some rest => Some ([], rest)
  | None =>
      match s with
      | [] => None
      | c :: s' =>
          match splitAtFirst p s' with
          | Some (before, after) => Some (c :: before, after)
          | None => None
          end
      end
  end.

(** [s.includes(p)] *)
Definition includes (p s : jsstring) : bool :=
  match splitAtFirst p s with Some _ => true | None => false end.

(** [s.replace(p, r)] with a string pattern: only the first occurrence is
    replaced.  (The replacement texts used by the plugin never contain a
    dollar sign, so no replacement pattern is ever expanded.) *)
Definition replaceFirst (p r s : jsstring) : jsstring :=
  match splitAtFirst p s with
  | Some (before, after) => before ++ r ++ after
  | None => s
  end.

(** [s.indexOf(p, from)]; [None] stands for [-1]. *)
Fixpoint indexOfFrom (p s : jsstring) (from : nat) : option nat :=
  match from, s with
  | S k, _ :: s' => S <$> indexOfFrom p s' k
  | _, _ => length ∘ fst <$> splitAtFirst p s
  end.

(** [s.split(sep)] for a one-character separator. *)
Fixpoint split (sep : N) (s : jsstring) : list jsstring :=
  match s with
  | [] => [[]]
  | c :: s' =>
      if c =? sep then [] :: split sep s'
      else match split sep s' with
           | seg :: segs => (c :: seg) :: segs
           | [] => [[c]]
           end
  end.

(** [segs.join(sep)] *)
Fixpoint join (sep : jsstring) (segs : list jsstring) : jsstring :=
  match segs with
  | [] => []
  | [seg] => seg
  | seg :: rest => seg ++ sep ++ join sep rest
  end.

Definition slash : N := 47.
Definition backslash : N := 92.
Definition percent : N := 37.
Definition colon : N := 58.
Definition newline : N := 10.

(** [s.replace(/\\/g, '/')] *)
Definition normalizeSlashes (s : jsstring) : jsstring :=
  (λ c, if c =? backslash then slash else c) <$> s.

Definition isSep (c : N) : bool := (c =? slash) || (c =? backslash).

Definition isAsciiLetter (c : N) : bool :=
  ((65 <=? c) && (c <=? 90)) || ((97 <=? c) && (c <=? 122)).

(** Canonicalisation of the [i] flag, on the ASCII range (the patterns of
    the plugin are compared with ASCII pattern characters only, see
    [regexLiteral] below). *)
Definition foldCase (c : N) : N :=
  if (97 <=? c) && (c <=? 122) then c - 32 else c.

(** ** The host's URI functions

    [encodeURIComponent] and [decodeURIComponent] are built-ins of the
    JavaScript host; they are modelled after their definition in the
    language standard (the abstract operations Encode and Decode).  [None]
    stands for a thrown [URIError]. *)

Module URI.

(** The characters [encodeURIComponent] leaves alone: letters, digits and
    the marks - _ . ! ~ * ' ( ) *)
Definition unescaped (c : N) : bool :=
  isAsciiLetter c || ((48 <=? c) && (c <=? 57))
  || (c =? 45) || (c =? 95) || (c =? 46) || (c =? 33) || (c =? 126)
  || (c =? 42) || (c =? 39) || (c =? 40) || (c =? 41).

Definition hexDigit (d : N) : N := if d <? 10 then 48 + d else 55 + d.

Definition hexVal (c : N) : option N :=
  if (48 <=? c) && (c <=? 57) then Some (c - 48)
  else if (65 <=? c) && (c <=? 70) then Some (c - 55)
  else if (97 <=? c) && (c <=? 102) then Some (c - 87)
  else None.

Definition parseHexOctet (a b : N) : option N :=
  match hexVal a, hexVal b with
  | Some x, Some y => Some (16 * x + y)
  | _, _ => None
  end.

(** One octet as a percent escape. *)
Definition escapeOctet (b : N) : jsstring :=
  [percent; hexDigit (b / 16); hexDigit (b mod 16)].

Definition isLead (c : N) : bool := (0xD800 <=? c) && (c <=? 0xDBFF).
Definition isTrail (c : N) : bool := (0xDC00 <=? c) && (c <=? 0xDFFF).

(** The UTF-8 transformation of a code point. *)
Definition utf8 (cp : N) : list N :=
  if cp <? 0x80 then [cp]
  else if cp <? 0x800 then [0xC0 + cp / 64; 0x80 + cp mod 64]
  else if cp <? 0x10000 then
    [0xE0 + cp / 4096; 0x80 + (cp / 64) mod 64; 0x80 + cp mod 64]
  else
    [0xF0 + cp / 262144; 0x80 + (cp / 4096) mod 64;
     0x80 + (cp / 64) mod 64; 0x80 + cp mod 64].

(** The UTF-16 encoding of a code point. *)
Definition utf16 (V : N) : jsstring :=
  if V <? 0x10000 then [V]
  else [0xD800 + (V - 0x10000) / 1024; 0xDC00 + (V - 0x10000) mod 1024].

Definition escapeCodePoint (cp : N) : jsstring :=
  mjoin (escapeOctet <$> utf8 cp).

(** Encode: the characters of the unescaped set are copied, every other
    code point is written as the escapes of its UTF-8 octets; an unpaired
    surrogate throws. *)
Fixpoint Encode (unescapedSet : N → bool) (s : jsstring) : option jsstring :=
  match s with
  | [] => Some []
  | c :: r =>
      if unescapedSet c then (c ::.) <$> Encode unescapedSet r
      else if isLead c then
        match r with
        | d :: r' =>
            if isTrail d then
              (escapeCodePoint ((c - 0xD800) * 1024 + (d - 0xDC00) + 0x10000) ++.)
                <$> Encode unescapedSet r'
            else None
        | [] => None
        end
      else if isTrail c then None
      else (escapeCodePoint c ++.) <$> Encode unescapedSet r
  end.

Definition encodeURIComponent : jsstring → option jsstring :=
  Encode unescaped.

Definition isCont (b : N) : bool := (0x80 <=? b) && (b <? 0xC0).

(** The code point of a well-formed UTF-8 sequence of 2, 3 or 4 octets;
    overlong forms, surrogates and values above 0x10FFFF are refused. *)
Definition codePoint2 (B B1 : N) : option N :=
  let V := (B - 0xC0) * 64 + (B1 - 0x80) in
  if isCont B1 && (0x80 <=? V) then Some V else None.

Definition codePoint3 (B B1 B2 : N) : option N :=
  let V := (B - 0xE0) * 4096 + (B1 - 0x80) * 64 + (B2 - 0x80) in
  if isCont B1 && isCont B2 && (0x800 <=? V)
     && negb ((0xD800 <=? V) && (V <=? 0xDFFF))
  then Some V else None.

Definition codePoint4 (B B1 B2 B3 : N) : option N :=
  let V := (B - 0xF0) * 262144 + (B1 - 0x80) * 4096
           + (B2 - 0x80) * 64 + (B3 - 0x80) in
  if isCont B1 && isCont B2 && isCont B3
     && (0x10000 <=? V) && (V <=? 0x10FFFF)
  then Some V else None.

(** A continuation escape: a percent sign and two hexadecimal digits. *)
Definition withOctet {A} (s : jsstring)
    (k : N → jsstring → option A) : option A :=
  match s with
  | p :: a :: b :: r =>
      if p =? percent then
        match parseHexOctet a b with
        | Some B => k B r
        | None => None
        end
      else None
  | _ => None
  end.

(** What follows a percent sign: the escape of the first octet, then as
    many continuation escapes as its leading bits announce.  [k] receives
    the decoded code units and the rest of the string. *)
Definition decodeEscape {A} (r : jsstring)
    (k : jsstring → jsstring → option A) : option A :=
  match r with
  | a :: b :: r1 =>
      match parseHexOctet a b with
      | None => None
      | Some B =>
          if B <? 0x80 then k [B] r1
          else if B <? 0xC0 then None
          else if B <? 0xE0 then
            withOctet r1 (λ B1 r2,
              match codePoint2 B B1 with
              | Some V => k (utf16 V) r2
              | None => None
              end)
          else if B <? 0xF0 then
            withOctet r1 (λ B1 r2, withOctet r2 (λ B2 r3,
              match codePoint3 B B1 B2 with
              | Some V => k (utf16 V) r3
              | None => None
              end))
          else if B <? 0xF8 then
            withOctet r1 (λ B1 r2, withOctet r2 (λ B2 r3,
              withOctet r3 (λ B3 r4,
              match codePoint4 B B1 B2 B3 with
              | Some V => k (utf16 V) r4
              | None => None
              end)))
          else None
      end
  | _ => None
  end.

(** Decode, with the empty reserved set of [decodeURIComponent]. *)
Fixpoint decodeURIComponent (s : jsstring) : option jsstring :=
  match s with
  | [] => Some []
  | c :: r =>
      if c =? percent then
        decodeEscape r (λ S r', (S ++.) <$> decodeURIComponent r')
      else (c ::.) <$> decodeURIComponent r
  end.

End URI.
Export URI.

(** ** LocationCodec: multi-pass decoding *)

(** The result of running the decode loop with a bound on its iterations. *)
Inductive outcome :=
  | Returned (r : jsstring)
  | OutOfFuel.

(** The loop shared by [fullyDecodeUri] and the head of [pathToFileUrl]:
<<
    let decoded = str;
    try {
      while (decoded.includes('%')) {
        const next = decodeURIComponent(decoded);
        if (next === decoded) break;
        decoded = next;
      }
    } catch { return str; }
    return decoded;
>>
    ([pathToFileUrl] writes [decodedPath = path] in the handler, with the
    same effect.) *)
Fixpoint decodeLoop (fuel : nat) (str decoded : jsstring) : outcome :=
  match fuel with
  | O => OutOfFuel
  | S fuel' =>
      if includes [percent] decoded then
        match decodeURIComponent decoded with
        | None => Returned str
        | Some next =>
            if str_eqb next decoded then Returned decoded
            else decodeLoop fuel' str next
        end
      else Returned decoded
  end.

(** Every pass that changes the string shortens it, so [length str + 1]
    iterations are enough (proved below); the bound is never reached. *)
Definition fullyDecodeUri (str : jsstring) : jsstring :=
  match decodeLoop (S (length str)) str str with
  | Returned r => r
  | OutOfFuel => str
  end.

(** ** Regular expressions of the plugin

    Every regular expression the classifier and the translator build is a
    concatenation of one-character items (a character class or a literal
    under the [i] flag), so a pattern is the list of its classes and a match
    has a fixed length.  [new RegExp] receives the user name and the
    sub-path unescaped: the representation below is the pattern it builds
    when these contain no regular-expression metacharacter
    ([regexLiteral]). *)

Definition cls := N → bool.

Definition clsLetter : cls := isAsciiLetter.            (* [A-Za-z] *)
Definition clsSep : cls := isSep.                       (* [/\\]    *)
Definition clsChar (c : N) : cls := λ x, foldCase x =? foldCase c.

Definition clsText (s : jsstring) : list cls := clsChar <$> s.

(** A match of the pattern at the start of [s]: the rest of [s]. *)
Fixpoint matchHere (p : list cls) (s : jsstring) : option jsstring :=
  match p, s with
  | [], _ => Some s
  | k :: p', c :: s' => if k c then matchHere p' s' else None
  | _ :: _, [] => None
  end.

(** The leftmost match: the text before it and the text after it. *)
Fixpoint search (p : list cls) (s : jsstring) : option (jsstring * jsstring) :=
  match matchHere p s with
  | Some rest => Some ([], rest)
  | None =>
      match s with
      | [] => None
      | c :: s' =>
          match search p s' with
          | Some (before, after) => Some (c :: before, after)
          | None => None
          end
      end
  end.

Definition isMetaChar (c : N) : bool :=
  bool_decide (c ∈ lit "\^$.*+?()[]{}|").

(** Text that [new RegExp] reads as itself: ASCII, no metacharacter. *)
Definition regexLiteral (s : jsstring) : bool :=
  forallb (λ c, (c <? 128) && negb (isMetaChar c)) s.

Fixpoint takeWhile (f : N → bool) (s : jsstring) : jsstring :=
  match s with
  | c :: s' => if f c then c :: takeWhile f s' else []
  | [] => []
  end.

Fixpoint dropWhile (f : N → bool) (s : jsstring) : jsstring :=
  match s with
  | c :: s' => if f c then dropWhile f s' else s
  | [] => []
  end.

(** ** ComputerProfileRegistry *)

(** [process.platform]; the profiles carry ['darwin'] or ['win32']. *)
Inductive PlatformType := darwin | win32 | otherPlatform.

Global Instance PlatformType_eq_dec : EqDecision PlatformType.
Proof. solve_decision. Defined.

(** A registered computer.  An absent [subPath] reads as the empty string
    (the source takes [computer.subPath || '']). *)
Record ComputerProfile := mkProfile {
  id : jsstring;
  name : jsstring;
  platform : PlatformType;
  username : jsstring;
  subPath : jsstring;
}.

Record Settings := mkSettings {
  enableCrossPlatform : bool;
  computers : list ComputerProfile;
}.

(** What the translation reads of the plugin object: its settings, the
    platform of the process and the location of the vault. *)
Record Plugin := mkPlugin {
  settings : Settings;
  process_platform : PlatformType;
  getVaultPath : jsstring;
}.

Definition getCurrentPlatform (this : Plugin) : PlatformType :=
  process_platform this.

(** A sub-path that [new RegExp] reads as itself once its separators are
    replaced by the separator class. *)
Definition regexLiteralPath (s : jsstring) : bool :=
  forallb (λ c, isSep c || ((c <? 128) && negb (isMetaChar c))) s.

(** The registries on which the patterns above are the ones the plugin
    builds: the user name and the sub-path of every Windows profile are
    free of metacharacters. *)
Definition regexSafe (this : Plugin) : bool :=
  forallb (λ c, negb (bool_decide (platform c = win32))
                || (regexLiteral (username c) && regexLiteralPath (subPath c)))
          (computers (settings this)).

(** [^[A-Za-z]:[/\\]Users[/\\]] under the [i] flag *)
Definition winHome : list cls :=
  [clsLetter; clsChar colon; clsSep] ++ clsText (lit "Users") ++ [clsSep].

Definition getCurrentUsername (this : Plugin) : jsstring :=
  match getCurrentPlatform this with
  | darwin =>
      match stripPrefix (lit "/Users/") (getVaultPath this) with
      | Some rest => takeWhile (λ c, negb (c =? slash)) rest
      | None => []
      end
  | win32 =>
      match matchHere winHome (getVaultPath this) with
      | Some rest => takeWhile (λ c, negb (isSep c)) rest
      | None => []
      end
  | otherPlatform => []
  end.

(** ** PathClassifier *)

(** [`/Users/${username}/`] *)
Definition macPattern (user : jsstring) : jsstring :=
  lit "/Users/" ++ user ++ [slash].

(** [[A-Za-z]:[/\\]Users[/\\]${username}[/\\]] under the [i] flag *)
Definition winPattern (user : jsstring) : list cls :=
  winHome ++ clsText user ++ [clsSep].

Definition isCurrent (this : Plugin) (c : ComputerProfile) : bool :=
  bool_decide (platform c = getCurrentPlatform this)
  && str_eqb (username c) (getCurrentUsername this).

Definition isPathFromDifferentPlatform (this : Plugin) (path : jsstring) : bool :=
  existsb (λ computer,
    if isCurrent this computer then false
    else match platform computer with
         | darwin => includes (macPattern (username computer)) path
         | win32 => bool_decide (is_Some (search (winPattern (username computer)) path))
         | otherPlatform => false
         end) (computers (settings this)).

(** The pattern of [findMatchingComputer] is anchored at the start. *)
Definition matchesComputer (path : jsstring) (computer : ComputerProfile) : bool :=
  match platform computer with
  | darwin => includes (macPattern (username computer)) path
  | win32 => bool_decide (is_Some (matchHere (winPattern (username computer)) path))
  | otherPlatform => false
  end.

Definition findMatchingComputer (this : Plugin) (path : jsstring)
    : option ComputerProfile :=
  if negb (enableCrossPlatform (settings this))
     || bool_decide (computers (settings this) = [])
  then None
  else find (matchesComputer path) (computers (settings this)).

(** ** PathTranslator *)

(** [`/Users/${username}/${subPath}/`], or without the sub-path part when
    it is empty. *)
Definition macRoot (c : ComputerProfile) : jsstring :=
  if bool_decide (subPath c = []) then lit "/Users/" ++ username c ++ [slash]
  else lit "/Users/" ++ username c ++ [slash] ++ subPath c ++ [slash].

(** Windows targets are anchored to drive C. *)
Definition winRoot (c : ComputerProfile) : jsstring :=
  lit "C:" ++ macRoot c.

(** The source pattern of a Windows profile, with every separator of the
    sub-path read as either separator. *)
Definition winSourcePattern (c : ComputerProfile) : list cls :=
  let subPathPart :=
    if bool_decide (subPath c = []) then []
    else clsSep :: ((λ ch, if isSep ch then clsSep else clsChar ch) <$> subPath c) in
  winHome ++ clsText (username c) ++ subPathPart ++ [clsSep].

(** The remainder extraction: the path with the first occurrence of the
    source root taken out, or the whole path when there is none. *)
Definition relativePath (sourceComputer : ComputerProfile) (path : jsstring)
    : jsstring :=
  match platform sourceComputer with
  | darwin => replaceFirst (macRoot sourceComputer) [] path
  | _ =>
      normalizeSlashes
        match search (winSourcePattern sourceComputer) path with
        | Some (before, after) => before ++ after
        | None => path
        end
  end.

Definition targetRoot (currentComputer : ComputerProfile) : jsstring :=
  match platform currentComputer with
  | darwin => macRoot currentComputer
  | _ => winRoot currentComputer
  end.

Definition currentComputerOf (this : Plugin) : option ComputerProfile :=
  find (isCurrent this) (computers (settings this)).

Definition convertPathForCurrentPlatform (this : Plugin) (path : jsstring)
    : jsstring :=
  if negb (enableCrossPlatform (settings this))
     || bool_decide (computers (settings this) = [])
  then path
  else
    match findMatchingComputer this path with
    | None => path
    | Some sourceComputer =>
        match currentComputerOf this with
        | None => path
        | Some currentComputer =>
            if str_eqb (id sourceComputer) (id currentComputer) then path
            else targetRoot currentComputer ++ relativePath sourceComputer path
        end
    end.

(** ** LocationCodec: encode and decode *)

(** [/^[A-Za-z]:/.test(s)] *)
Definition startsWithDrive (s : jsstring) : bool :=
  match s with
  | l :: c :: _ => isAsciiLetter l && (c =? colon)
  | _ => false
  end.

(** [s.replace(/^([A-Za-z])%3A/, '$1:')] *)
Definition restoreDriveColon (s : jsstring) : jsstring :=
  match s with
  | l :: rest =>
      if isAsciiLetter l then
        match stripPrefix (lit "%3A") rest with
        | Some rest' => l :: colon :: rest'
        | None => s
        end
      else s
  | [] => s
  end.

(** [p.split('/').map(segment => encodeURIComponent(segment)).join('/')] *)
Definition encodeSegments (p : jsstring) : option jsstring :=
  join [slash] <$> mapM encodeURIComponent (split slash p).

(** [pathToFileUrl]; [None] is the [URIError] that [encodeURIComponent]
    throws on an unpaired surrogate, which the method lets through. *)
Definition pathToFileUrl (this : Plugin) (path : jsstring) : option jsstring :=
  let decodedPath := fullyDecodeUri path in
  let convertedPath := convertPathForCurrentPlatform this decodedPath in
  let normalizedPath := normalizeSlashes convertedPath in
  encodedPath ← encodeSegments normalizedPath;
  if bool_decide (getCurrentPlatform this = win32) && startsWithDrive normalizedPath
  then Some (lit "file:///" ++ restoreDriveColon encodedPath)
  else Some (lit "file://" ++ encodedPath).

(** [url.replace(/^file:\/\/\/?/, '')] *)
Definition stripFileScheme (url : jsstring) : jsstring :=
  match stripPrefix (lit "file://") url with
  | Some (c :: rest) => if c =? slash then rest else c :: rest
  | Some [] => []
  | None => url
  end.

(** [if (p.startsWith('Users/') && !p.startsWith('/')) p = '/' + p] *)
Definition restoreLeadingSlash (p : jsstring) : jsstring :=
  if startsWith (lit "Users/") p && negb (startsWith [slash] p)
  then slash :: p else p.

(** The decoding every scan pass applies to a [file://] identifier. *)
Definition decodeLocation (url : jsstring) : jsstring :=
  restoreLeadingSlash (fullyDecodeUri (stripFileScheme url)).

(** ** DocumentScanPass, render mode *)

(** A rendered image node: its attributes. *)
Abbreviation HTMLImageElement := (gmap string jsstring).

(** [img.getAttribute(a)] read as a condition: present and not empty. *)
Definition truthyAttribute (img : HTMLImageElement) (a : string) : bool :=
  match img !! a with
  | Some (_ :: _) => true
  | _ => false
  end.

Definition isLineTerminator (c : N) : bool :=
  (c =? 10) || (c =? 13) || (c =? 0x2028) || (c =? 0x2029).

(** [src.match(/^app:\/\/[^/]+\/(.+)$/)], the captured group. *)
Definition appUrlPath (src : jsstring) : option jsstring :=
  rest ← stripPrefix (lit "app://") src;
  match takeWhile (λ c, negb (c =? slash)) rest,
        dropWhile (λ c, negb (c =? slash)) rest with
  | _ :: _, _ :: (c :: p) =>
      if forallb (λ x, negb (isLineTerminator x)) (c :: p)
      then Some (c :: p) else None
  | _, _ => None
  end.

(** The path a node's source points at, when it has one. *)
Definition extractPath (src : jsstring) : option jsstring :=
  if startsWith (lit "app://") src then fullyDecodeUri <$> appUrlPath src
  else if startsWith (lit "file://") src
       then Some (fullyDecodeUri (stripFileScheme src))
       else None.

(** [convertImageSrcForRendering]: the node after the call, and whether it
    was converted.  [None] is an exception of [pathToFileUrl]. *)
Definition convertImageSrcForRendering (this : Plugin) (img : HTMLImageElement)
    : option (HTMLImageElement * bool) :=
  match img !! "src"%string with
  | None | Some [] => Some (img, false)
  | Some src =>
      if truthyAttribute img "data-xplatform-converted" then Some (img, false)
      else
        match extractPath src with
        | None | Some [] => Some (img, false)
        | Some extracted =>
            let extractedPath := restoreLeadingSlash extracted in
            if negb (isPathFromDifferentPlatform this extractedPath)
            then Some (img, false)
            else
              let convertedPath := convertPathForCurrentPlatform this extractedPath in
              if str_eqb convertedPath extractedPath then Some (img, false)
              else
                newSrc ← pathToFileUrl this convertedPath;
                Some (<["data-original-src"%string := src]>
                        (<["data-xplatform-converted"%string := lit "true"]>
                           (<["src"%string := newSrc]> img)), true)
        end
  end.

(** ** DocumentScanPass, content mode *)

(** A match of the embed pattern at the start of [s]: an exclamation mark,
    an alternative text in square brackets without a closing bracket in it,
    and in round brackets a target that begins with file:// and goes on
    with one or more characters other than a closing round bracket.  The
    result is the target (the second group) and the length of the match.
    Both repeated items are negated one-character classes followed by the
    excluded character, so the greedy match is the only one. *)
Definition matchEmbedHere (s : jsstring) : option (jsstring * nat) :=
  r ← stripPrefix (lit "![") s;
  r1 ← stripPrefix (lit "](") (dropWhile (λ c, negb (c =? 93)) r);
  r2 ← stripPrefix (lit "file://") r1;
  match takeWhile (λ c, negb (c =? 41)) r2,
        dropWhile (λ c, negb (c =? 41)) r2 with
  | c :: body, _ :: r3 =>
      Some (lit "file://" ++ c :: body, (length s - length r3)%nat)
  | _, _ => None
  end.

(** The successive results of [fileUrlRegex.exec(content)]: after a match
    the search resumes behind it ([skip] characters are still inside the
    last match). *)
Fixpoint fileEmbedsFrom (skip : nat) (s : jsstring) : list jsstring :=
  match s with
  | [] => []
  | _ :: s' =>
      match skip with
      | S k => fileEmbedsFrom k s'
      | O =>
          match matchEmbedHere s with
          | Some (url, len) => url :: fileEmbedsFrom (pred len) s'
          | None => fileEmbedsFrom O s'
          end
      end
  end.

Definition fileEmbeds (content : jsstring) : list jsstring :=
  fileEmbedsFrom O content.

(** The body of the loop of [convertCrossPlatformPaths], on the state
    [(newContent, convertedCount)]. *)
Definition convertEmbed (this : Plugin) (st : jsstring * nat)
    (originalUrl : jsstring) : option (jsstring * nat) :=
  let filePath := decodeLocation originalUrl in
  if isPathFromDifferentPlatform this filePath then
    let convertedPath := convertPathForCurrentPlatform this filePath in
    newUrl ← pathToFileUrl this convertedPath;
    Some (replaceFirst originalUrl newUrl st.1, S st.2)
  else Some st.

(** The outcome of a content-mode pass over the active note. *)
Record ScanResult := mkScan {
  convertedCount : nat;
  written : option jsstring;       (* the text given to [vault.modify] *)
}.

Definition convertCrossPlatformPaths (this : Plugin) (content : jsstring)
    : option ScanResult :=
  if negb (enableCrossPlatform (settings this)) then Some (mkScan 0 None)
  else
    st ← foldl (λ acc url, acc ≫= λ st, convertEmbed this st url)
               (Some (content, 0%nat)) (fileEmbeds content);
    Some (mkScan st.2 (if bool_decide (0 < st.2)%nat then Some st.1 else None)).

(** The text of the note after a pass. *)
Definition contentAfter (content : jsstring) (r : ScanResult) : jsstring :=
  default content (written r).

(** ** ReferenceIndexer and ReferenceRewriter *)

(** A hit of the indexer: where an embed starts and its exact text. *)
Record Position := mkPos {
  line : nat;
  ch : nat;
  text : jsstring;
}.

(** The hits of one note. *)
Record NoteRefs := mkRefs {
  notePath : jsstring;
  positions : list Position;
}.

(** The document store: the notes by path, and the calls of
    [vault.modify] so far, oldest first. *)
Record Vault := mkVault {
  files : gmap jsstring jsstring;
  modified : list (jsstring * jsstring);
}.

Definition vault_modify (notePath content : jsstring) (v : Vault) : Vault :=
  mkVault (<[notePath := content]> (files v)) (modified v ++ [(notePath, content)]).

(** The comparator of the sort is at most zero: [a] may stay before [b]. *)
Definition posBefore (a b : Position) : bool :=
  if bool_decide (line a = line b) then bool_decide (ch b ≤ ch a)%nat
  else bool_decide (line b < line a)%nat.

Fixpoint insertPos (a : Position) (l : list Position) : list Position :=
  match l with
  | [] => [a]
  | b :: l' => if posBefore a b then a :: b :: l' else b :: insertPos a l'
  end.

(** [[...positions].sort(cmp)]: the sort of the host is stable. *)
Definition sortPositions (l : list Position) : list Position :=
  foldr insertPos [] l.

(** [`![${basename}](${newUrl})`] *)
Definition embedMarkdown (basename newUrl : jsstring) : jsstring :=
  lit "![" ++ basename ++ lit "](" ++ newUrl ++ lit ")".

(** The body of the loop over the sorted hits. *)
Definition replaceHit (newMarkdown content : jsstring) (pos : Position)
    : jsstring :=
  let lines := split newline content in
  match lines !! line pos with
  | Some (c :: l) =>
      match indexOfFrom (text pos) (c :: l) (ch pos) with
      | Some index =>
          join [newline]
            (<[line pos := take index (c :: l) ++ newMarkdown
                           ++ drop (index + length (text pos)) (c :: l)]> lines)
      | None => content
      end
  | _ => content
  end.

Definition rewriteNote (newMarkdown content : jsstring)
    (hits : list Position) : jsstring :=
  foldl (replaceHit newMarkdown) content (sortPositions hits).

Definition replaceAllReferences (references : list NoteRefs)
    (basename newUrl : jsstring) (v : Vault) : Vault :=
  foldl (λ v ref,
    match files v !! notePath ref with
    | None => v
    | Some content =>
        vault_modify (notePath ref)
          (rewriteNote (embedMarkdown basename newUrl) content (positions ref)) v
    end) v references.

(** How the promise of [confirmReplaceReferences] resolves: the notice was
    clicked, or ten seconds went by. *)
Inductive Confirmation := Clicked | TimedOut.

Definition confirmReplaceReferences (c : Confirmation) : bool :=
  match c with Clicked => true | TimedOut => false end.

(** The hits that remain once the one just edited is set aside. *)
Definition filterReferences (references : list NoteRefs)
    (activeFile : option jsstring) (excludePosition : nat * nat)
    : list NoteRefs :=
  omap (λ ref,
    let filteredPositions :=
      filter (λ pos,
        activeFile = Some (notePath ref) →
        ¬ (line pos = excludePosition.1 ∧ ch pos = excludePosition.2))
        (positions ref) in
    if bool_decide (0 < length filteredPositions)%nat
    then Some (mkRefs (notePath ref) filteredPositions) else None) references.

(** [offerToReplaceOtherReferences], given the hits of the indexer and the
    way the confirmation resolves: the store afterwards and the counts of
    the final notice, if there is one. *)
Definition offerToReplaceOtherReferences (references : list NoteRefs)
    (activeFile : option jsstring) (basename newUrl : jsstring)
    (excludePosition : nat * nat) (answer : Confirmation) (v : Vault)
    : Vault * option (nat * nat) :=
  let filteredRefs := filterReferences references activeFile excludePosition in
  if bool_decide (filteredRefs = []) then (v, None)
  else
    let totalCount := foldl (λ sum ref, (sum + length (positions ref))%nat) 0%nat filteredRefs in
    let fileCount := length filteredRefs in
    if negb (confirmReplaceReferences answer) then (v, None)
    else (replaceAllReferences filteredRefs basename newUrl v,
          Some (totalCount, fileCount)).

(** ** Definitions used to state the properties *)

(** The escape after a percent sign, in direct style: the decoded code
    units and the rest of the string. *)
Definition escapeOf (r : jsstring) : option (jsstring * jsstring) :=
  decodeEscape r (λ S r', Some (S, r')).

(** [n] successive passes of [decodeURIComponent]. *)
Fixpoint passes (n : nat) (s : jsstring) : option jsstring :=
  match n with
  | O => Some s
  | S n' => decodeURIComponent s ≫= passes n'
  end.

(** Well-formed UTF-16: code units below 0x10000, every surrogate paired. *)
Fixpoint wellFormedUTF16 (s : jsstring) : bool :=
  match s with
  | [] => true
  | c :: r =>
      if isLead c then
        match r with
        | d :: r' => isTrail d && wellFormedUTF16 r'
        | [] => false
        end
      else negb (isTrail c) && (c <? 0x10000) && wellFormedUTF16 r
  end.

(** The unescaped set of a whole path: that of a segment, and the slash. *)
Definition unescapedInPath (c : N) : bool := unescaped c || (c =? slash).

(** The remainder extraction of the translator finds nothing to take out. *)
Definition extractionFails (sourceComputer : ComputerProfile)
    (path : jsstring) : Prop :=
  match platform sourceComputer with
  | darwin => includes (macRoot sourceComputer) path = false
  | _ => search (winSourcePattern sourceComputer) path = None
  end.

(** No embed of a note points at a path of another registered machine. *)
Definition nothingForeign (this : Plugin) (content : jsstring) : Prop :=
  Forall (λ url, isPathFromDifferentPlatform this (decodeLocation url) = false)
         (fileEmbeds content).

(** Hit [a] lies at or behind hit [b]: on a later line, or on the same
    line at the same or a later column. *)
Definition descending (a b : Position) : Prop :=
  (line b < line a)%nat ∨ (line a = line b ∧ (ch b ≤ ch a)%nat).

(** What [vault.modify] is called with for one note of the indexer, given
    the store the rewriter started from. *)
Definition noteWrite (md : jsstring) (v : Vault) (ref : NoteRefs)
    : option (jsstring * jsstring) :=
  (λ content, (notePath ref, rewriteNote md content (positions ref)))
    <$> files v !! notePath ref.

(** The hits of a note that a confirmed run has to rewrite: all the hits of
    the indexer, except, in the active note, the hits at the excluded
    position. *)
Definition remainingHits (activeFile : option jsstring)
    (excludePosition : nat * nat) (ref : NoteRefs) : list Position :=
  filter (λ pos, ¬ (activeFile = Some (notePath ref)
                    ∧ line pos = excludePosition.1
                    ∧ ch pos = excludePosition.2)) (positions ref).

(** What a confirmed run has to do with one note of the indexer: nothing
    when no hit of the note remains or the note is not in the store, else
    one write of the note with the remaining hits rewritten. *)
Definition rewriteRemaining (activeFile : option jsstring)
    (excludePosition : nat * nat) (md : jsstring) (v : Vault)
    (ref : NoteRefs) : Vault :=
  match remainingHits activeFile excludePosition ref with
  | [] => v
  | hit :: hits =>
      match files v !! notePath ref with
      | None => v
      | Some content =>
          vault_modify (notePath ref) (rewriteNote md content (hit :: hits)) v
      end
  end.

(** The two counts of the final notice: the remaining hits, and the notes
    that hold one. *)
Definition remainingCounts (activeFile : option jsstring)
    (excludePosition : nat * nat) (references : list NoteRefs)
    : option (nat * nat) :=
  let hits := remainingHits activeFile excludePosition <$> references in
  if bool_decide (Forall (λ h, h = []) hits) then None
  else Some (sum_list (length <$> hits), length (filter (λ h, h ≠ []) hits)).

(** ** Configurations used in the examples *)

Module Examples.

(** The two profiles of the specification's example. *)
Definition macAlice : ComputerProfile :=
  mkProfile (lit "darwin-alice-1") (lit "Mac (alice)") darwin
            (lit "alice") (lit "Dropbox").

Definition winAlice : ComputerProfile :=
  mkProfile (lit "win32-alice-2") (lit "Windows (alice)") win32
            (lit "alice") [].

(** The plugin on the Windows machine of [winAlice]. *)
Definition onWinAlice : Plugin :=
  mkPlugin (mkSettings true [macAlice; winAlice]) win32
           (lit "C:\Users\alice\Documents\vault").

(** Two machines with different user names, no sub-path. *)
Definition macCarol : ComputerProfile :=
  mkProfile (lit "darwin-carol-1") (lit "Mac (carol)") darwin (lit "carol") [].

Definition winBob : ComputerProfile :=
  mkProfile (lit "win32-bob-2") (lit "Windows (bob)") win32 (lit "bob") [].

Definition onWinBob : Plugin :=
  mkPlugin (mkSettings true [macCarol; winBob]) win32
           (lit "C:\Users\bob\vault").

(** A Mac with cross-platform translation switched off. *)
Definition macPlain : Plugin :=
  mkPlugin (mkSettings false []) darwin (lit "/Users/alice/vault").





(** A rendered image of a note written on the Mac of carol, and the node
    after the render pass on the machine of bob. *)
Definition catImage : HTMLImageElement :=
  {[ "src"%string := lit "file:///Users/carol/img/my%20cat.png" ]}.

Definition catImageConverted : HTMLImageElement :=
  <["data-original-src"%string := lit "file:///Users/carol/img/my%20cat.png"]>
    (<["data-xplatform-converted"%string := lit "true"]>
       (<["src"%string := lit "file:///C:/Users/bob/img/my%20cat.png"]> catImage)).

(** Notes with one embed. *)
Definition carolNote : jsstring :=
  lit "A cat: ![cat](file:///Users/carol/img/my%20cat.png) at home.".

Definition aliceNote : jsstring :=
  lit "![cat](file:///Users/alice/Dropbox/img/cat.png)".

Definition aliceLiveNote : jsstring :=
  lit "![cat](file:///C:/Users/alice/img/cat.png)".

(** Three references to one picture in two notes; the first note is the
    one being edited, and its reference is the one just replaced. *)
Definition activeNote : jsstring := lit "notes/today.md".
Definition otherNote : jsstring := lit "notes/album.md".

Definition catRefs : list NoteRefs :=
  [ mkRefs activeNote [mkPos 1 0 (lit "![[cat.png]]")];
    mkRefs otherNote [mkPos 0 0 (lit "![[cat.png]]");
                      mkPos 0 17 (lit "![[cat.png]]")] ].

Definition catVault : Vault :=
  mkVault
    (<[activeNote := lit "Today" ++ [newline]
                      ++ lit "![cat](eagle://item/M1) is new"]>
       (<[otherNote := lit "![[cat.png]] and ![[cat.png]] twice"]> ∅))
    [].

End Examples.

(** ** Further functions of the plugin *)

(** [safeDecodeUri]: one pass of [decodeURIComponent], the string itself
    when it throws. *)
Definition safeDecodeUri (str : jsstring) : jsstring :=
  default str (decodeURIComponent str).

(** [n] layers of [encodeURIComponent], as a producer that encodes an
    identifier again and again applies them. *)
Fixpoint encodeTimes (n : nat) (s : jsstring) : option jsstring :=
  match n with
  | O => Some s
  | S n' => encodeURIComponent s ≫= encodeTimes n'
  end.

(** The characters a [file://] identifier of the plugin is written with. *)
Definition urlChar (c : N) : bool :=
  unescapedInPath c || (c =? percent) || (c =? colon).

(** The path begins with the root of the source profile, followed by
    [rest]: literally for a Mac profile, as a match of the source pattern
    (any drive letter, either separator, any letter case) for a Windows
    one. *)
Definition beginsWithRoot (sourceComputer : ComputerProfile)
    (path rest : jsstring) : Prop :=
  match platform sourceComputer with
  | darwin => path = macRoot sourceComputer ++ rest
  | _ => matchHere (winSourcePattern sourceComputer) path = Some rest
  end.

(** A profile the classifier can recognise paths of: a Mac profile, or a
    Windows profile whose names [new RegExp] reads literally. *)
Definition recognisable (c : ComputerProfile) : Prop :=
  platform c = darwin
  ∨ (platform c = win32 ∧ regexLiteral (username c) = true
     ∧ regexLiteralPath (subPath c) = true).


(** ** Content mode on file open *)

(** The loop over the embeds that [convertCrossPlatformPaths] and
    [autoConvertOnFileOpen] both run: the text and the count it ends with. *)
Definition scanEmbeds (this : Plugin) (content : jsstring)
    : option (jsstring * nat) :=
  foldl (λ acc url, acc ≫= λ st, convertEmbed this st url)
        (Some (content, 0%nat)) (fileEmbeds content).

(** [autoConvertOnFileOpen]: the same pass as the command, without the
    test of the setting (its caller makes it). *)
Definition autoConvertOnFileOpen (this : Plugin) (content : jsstring)
    : option ScanResult :=
  st ← scanEmbeds this content;
  Some (mkScan st.2 (if bool_decide (0 < st.2)%nat then Some st.1 else None)).

(** The embeds of a note that the classifier attributes to another
    registered machine. *)
Definition foreignEmbeds (this : Plugin) (content : jsstring) : list jsstring :=
  List.filter (λ url, isPathFromDifferentPlatform this (decodeLocation url))
              (fileEmbeds content).

(** The events the plugin listens to for the automatic conversion: a
    modification of a note in the vault, and the opening of a file (or of
    none). *)
Inductive VaultEvent :=
  | VaultModify (path : jsstring)
  | FileOpen (file : option jsstring).

(** The two handlers registered in [onload], on the field
    [lastModifiedFile]: the new value of the field, and the note for which
    the automatic conversion is scheduled, if any.  [auto] is the setting
    [autoConvertCrossPlatformPaths]. *)
Definition onVaultEvent (this : Plugin) (auto : bool)
    (lastModifiedFile : option jsstring) (e : VaultEvent)
    : option jsstring * option jsstring :=
  match e with
  | VaultModify path => (Some path, None)
  | FileOpen file =>
      (None,
       match file with
       | Some path =>
           if enableCrossPlatform (settings this) && auto
           then if bool_decide (lastModifiedFile ≠ Some path)
                then Some path else None
           else None
       | None => None
       end)
  end.

(** The field after a sequence of events, and the conversions
    scheduled on the way, oldest first. *)
Fixpoint runVaultEvents (this : Plugin) (auto : bool)
    (lastModifiedFile : option jsstring) (events : list VaultEvent)
    : option jsstring * list jsstring :=
  match events with
  | [] => (lastModifiedFile, [])
  | e :: events' =>
      let r := onVaultEvent this auto lastModifiedFile e in
      let rest := runVaultEvents this auto r.1 events' in
      (rest.1, option_list r.2 ++ rest.2)
  end.

(** ** ReferenceIndexer: the search *)

(** An embed of a note as the metadata cache of the host records it. *)
Record EmbedCache := mkEmbed {
  link : jsstring;
  original : jsstring;
  startLine : nat;
  startCol : nat;
}.

(** The two services of the host that the indexer asks:
    [getFileCache(file)?.embeds], by the path of the note, and
    [getFirstLinkpathDest(link, sourcePath)], which gives the path of the
    file a link resolves to, if any. *)
Record MetadataCache := mkCache {
  getFileCache_embeds : jsstring → option (list EmbedCache);
  getFirstLinkpathDest : jsstring → jsstring → option jsstring;
}.

(** The inner loop of the indexer: the embeds of one note that resolve to
    the target, in the order of the cache. *)
Definition positionsIn (host : MetadataCache) (file targetFile : jsstring)
    (embeds : list EmbedCache) : list Position :=
  omap (λ embed,
    if bool_decide (getFirstLinkpathDest host (link embed) file = Some targetFile)
    then Some (mkPos (startLine embed) (startCol embed) (original embed))
    else None) embeds.

(** [findAllReferencesToFile]; [markdownFiles] is what
    [vault.getMarkdownFiles()] lists, by path. *)
Definition findAllReferencesToFile (host : MetadataCache)
    (markdownFiles : list jsstring) (targetFile : jsstring) : list NoteRefs :=
  omap (λ file,
    match getFileCache_embeds host file with
    | None => None
    | Some embeds =>
        let positions := positionsIn host file targetFile embeds in
        if bool_decide (0 < length positions)%nat
        then Some (mkRefs file positions) else None
    end) markdownFiles.

(** An embed of the cache resolves to the target and is not the one set
    aside in the active note. *)
Definition remainingHit (host : MetadataCache) (targetFile : jsstring)
    (activeFile : option jsstring) (excludePosition : nat * nat)
    (p : jsstring) (embed : EmbedCache) : Prop :=
  (∃ embeds, getFileCache_embeds host p = Some embeds ∧ embed ∈ embeds)
  ∧ getFirstLinkpathDest host (link embed) p = Some targetFile
  ∧ ¬ (activeFile = Some p ∧ startLine embed = excludePosition.1
       ∧ startCol embed = excludePosition.2).

(** ** Pasting a path of the Eagle library *)

(** [isEagleLibraryPath] *)
Definition isEagleLibraryPath (text : jsstring) : bool :=
  if startsWith (lit "![") text || startsWith (lit "](") text then false
  else
    let normalizedText := normalizeSlashes text in
    includes (lit ".library/images/") normalizedText
    && includes (lit ".info/") normalizedText.

(** [handleEagleLibraryPathPaste]: the markdown handed to
    [editor.replaceSelection]; [None] when [pathToFileUrl] throws. *)
Definition handleEagleLibraryPathPaste (this : Plugin) (path : jsstring)
    : option jsstring :=
  let normalizedPath := normalizeSlashes path in
  let filename :=
    match last (split slash normalizedPath) with
    | Some (c :: seg) => c :: seg
    | _ => lit "image"
    end in
  fileUrl ← pathToFileUrl this normalizedPath;
  Some (embedMarkdown filename fileUrl).

(** ** Eagle links (api.ts) *)

Definition isDigit (c : N) : bool := (48 <=? c) && (c <=? 57).    (* \d *)

(** [[A-Z0-9]] under the [i] flag *)
Definition clsAlnum : cls := λ c, isAsciiLetter c || isDigit c.

(** The end of the three link patterns: one or more letters or digits,
    captured, up to the end of the text. *)
Definition alnumToEnd (s : jsstring) : option jsstring :=
  match s with
  | [] => None
  | _ :: _ => if forallb clsAlnum s then Some s else None
  end.

Definition buildEagleItemUrl (itemId : jsstring) : jsstring :=
  lit "eagle://item/" ++ itemId.

Definition buildEagleFolderUrl (folderId : jsstring) : jsstring :=
  lit "eagle://folder/" ++ folderId.

Inductive EagleUrlType := itemUrl | folderUrl.

Definition parseEagleUrl (url : jsstring) : option (EagleUrlType * jsstring) :=
  match matchHere (clsText (lit "eagle://item/")) url ≫= alnumToEnd with
  | Some id => Some (itemUrl, id)
  | None =>
      match matchHere (clsText (lit "eagle://folder/")) url ≫= alnumToEnd with
      | Some id => Some (folderUrl, id)
      | None => None
      end
  end.

(** The start of the two patterns for a link of the local Eagle server,
    up to the equals sign: the scheme with an optional [s], the host, one
    or more digits of the port, and the query.  The result is the rest of
    the text.  (What follows the optional [s] and what follows the digits
    cannot be taken by them, so the greedy match is the only one.) *)
Definition localhostItemQuery (url : jsstring) : option jsstring :=
  r ← matchHere (clsText (lit "http")) url;
  r1 ← matchHere (clsText (lit "://localhost:"))
         (match r with
          | c :: r' => if clsChar 115 c then r' else r
          | [] => r
          end);
  match takeWhile isDigit r1 with
  | [] => None
  | _ :: _ => matchHere (clsText (lit "/item?id=")) (dropWhile isDigit r1)
  end.

Definition parseEagleLocalhostUrl (url : jsstring) : option jsstring :=
  localhostItemQuery url ≫= alnumToEnd.

Definition isEagleLocalhostUrl (url : jsstring) : bool :=
  match localhostItemQuery url with
  | Some (c :: id) => forallb clsAlnum (c :: id)
  | _ => false
  end.

(** One match of the pattern of [extractEagleLinks] at the start of [s]:
    the identifier and the length of the match.  The identifier is as long
    as it can be. *)
Definition matchItemLinkHere (s : jsstring) : option (jsstring * nat) :=
  r ← matchHere (clsText (lit "eagle://item/")) s;
  match takeWhile clsAlnum r with
  | [] => None
  | c :: id => Some (c :: id, (length s - length (dropWhile clsAlnum r))%nat)
  end.

(** The successive results of [regex.exec(content)]. *)
Fixpoint itemLinksFrom (skip : nat) (s : jsstring) : list jsstring :=
  match s with
  | [] => []
  | _ :: s' =>
      match skip with
      | S k => itemLinksFrom k s'
      | O =>
          match matchItemLinkHere s with
          | Some (id, len) => id :: itemLinksFrom (pred len) s'
          | None => itemLinksFrom O s'
          end
      end
  end.

(** [[...new Set(matches)]]: the first occurrence of each element, in the
    order of insertion. *)
Definition uniq (matches : list jsstring) : list jsstring :=
  foldl (λ seen x, if bool_decide (x ∈ seen) then seen else seen ++ [x])
        [] matches.

Definition extractEagleLinks (content : jsstring) : list jsstring :=
  uniq (itemLinksFrom O content).

(** The builder of a link of either kind. *)
Definition buildEagleUrl (t : EagleUrlType) (id : jsstring) : jsstring :=
  match t with
  | itemUrl => buildEagleItemUrl id
  | folderUrl => buildEagleFolderUrl id
  end.

(** An identifier the link patterns accept: one or more letters or digits. *)
Definition linkId (id : jsstring) : Prop :=
  id ≠ [] ∧ forallb clsAlnum id = true.

(** ** Registering the current computer (settings tab) *)

(** [detectCurrentUsername] of the settings tab, on [process.platform] and
    [adapter.basePath || '']: the same two patterns as
    [getCurrentUsername], but ['unknown'] when neither matches. *)
Definition detectCurrentUsername (platform : PlatformType)
    (basePath : jsstring) : jsstring :=
  let found :=
    match platform with
    | darwin =>
        match stripPrefix (lit "/Users/") basePath with
        | Some rest => takeWhile (λ c, negb (c =? slash)) rest
        | None => []
        end
    | win32 =>
        match matchHere winHome basePath with
        | Some rest => takeWhile (λ c, negb (isSep c)) rest
        | None => []
        end
    | otherPlatform => []
    end in
  match found with
  | [] => lit "unknown"
  | _ :: _ => found
  end.

(** The plugin with another list of computers. *)
Definition withComputers (this : Plugin) (cs : list ComputerProfile) : Plugin :=
  mkPlugin (mkSettings (enableCrossPlatform (settings this)) cs)
           (process_platform this) (getVaultPath this).

(** The button [Add current computer]: nothing changes when a profile with
    the detected platform and user name is registered already, else a new
    profile is pushed.  [newId] is the identifier built from the platform,
    the user name and the clock. *)
Definition addCurrentComputer (this : Plugin) (basePath newId : jsstring)
    : Plugin :=
  let currentPlatform := process_platform this in
  let currentUsername := detectCurrentUsername currentPlatform basePath in
  if existsb (λ c, bool_decide (platform c = currentPlatform)
                   && str_eqb (username c) currentUsername)
             (computers (settings this))
  then this
  else
    let newProfile :=
      mkProfile newId
        (if bool_decide (currentPlatform = darwin)
         then lit "Mac (" ++ currentUsername ++ lit ")"
         else lit "Windows (" ++ currentUsername ++ lit ")")
        currentPlatform currentUsername [] in
    withComputers this (computers (settings this) ++ [newProfile]).

(** ** The file of an Eagle item *)

(** [s.lastIndexOf(c)]; [None] stands for [-1]. *)
Fixpoint lastIndexOf (c : N) (s : jsstring) : option nat :=
  match s with
  | [] => None
  | d :: s' =>
      match lastIndexOf c s' with
      | Some i => Some (S i)
      | None => if d =? c then Some O else None
      end
  end.

(** [getEagleItemFilePath], given what [api.getThumbnailPath] resolved to
    ([None] for [null]).  [substring(0, -1)] is the empty string. *)
Definition getEagleItemFilePath (thumbnailPath : option jsstring)
    (name ext : jsstring) : option jsstring :=
  match thumbnailPath with
  | None | Some [] => None
  | Some thumbnailPath =>
      let decodedPath := safeDecodeUri thumbnailPath in
      let folderPath :=
        take (default O (lastIndexOf slash decodedPath)) decodedPath in
      let originalFileName := name ++ lit "." ++ ext in
      Some (folderPath ++ lit "/" ++ originalFileName)
  end.

(** ** The search modal (modals.ts) *)

Module EagleSearchModal.

(** The modal's own [pathToFileUrl]: no decoding, no translation, no
    treatment of a drive letter. *)
Definition pathToFileUrl (path : jsstring) : option jsstring :=
  encodedPath ← encodeSegments path;
  Some (lit "file://" ++ encodedPath).

End EagleSearchModal.

(** ** The marker of an upload among the tags of an item (api.ts) *)

Definition getR2KeyFromItem (tags : list jsstring) : option jsstring :=
  match find (startsWith (lit "r2:")) tags with
  | Some r2Tag => Some (drop 3 r2Tag)
  | None => None
  end.

Definition hasR2Upload (tags : list jsstring) : bool :=
  existsb (startsWith (lit "r2:")) tags.

(** The tags [uploadToR2] sends to Eagle after an upload that returned
    [key]. *)
Definition tagsAfterUpload (tags : list jsstring) (key : jsstring)
    : list jsstring :=
  let r2Tag := lit "r2:" ++ key in
  let newTags := if bool_decide (r2Tag ∈ tags) then tags else tags ++ [r2Tag] in
  if bool_decide (lit "r2-cloud" ∈ newTags) then newTags
  else newTags ++ [lit "r2-cloud"].

(** ** Further configurations used in the examples *)

Module MoreExamples.

(** The registry of carol and bob, seen from the Mac of carol. *)
Definition onMacCarol : Plugin :=
  mkPlugin (mkSettings true [Examples.macCarol; Examples.winBob]) darwin
           (lit "/Users/carol/Documents/vault").

(** A note with an embed written on the Mac of carol and one written on
    the machine of bob, and the same note after a pass on the machine of
    bob. *)
Definition mixedNote : jsstring :=
  lit "![a](file:///Users/carol/a.png) and ![b](file:///C:/Users/bob/b.png)".

Definition mixedNoteConverted : jsstring :=
  lit "![a](file:///C:/Users/bob/a.png) and ![b](file:///C:/Users/bob/b.png)".

(** The metadata cache of the host for the vault of [Examples.catVault]:
    it still holds the embed of the active note that was just replaced. *)
Definition catPng : jsstring := lit "img/cat.png".

Definition catEmbed (l c : nat) : EmbedCache :=
  mkEmbed (lit "cat.png") (lit "![[cat.png]]") l c.

Definition catHost : MetadataCache :=
  mkCache
    (λ p, if str_eqb p Examples.activeNote then Some [catEmbed 1 0]
          else if str_eqb p Examples.otherNote
               then Some [catEmbed 0 0; catEmbed 0 17]
               else None)
    (λ l _, if str_eqb l (lit "cat.png") then Some catPng else None).

(** A vault outside the home directories, on a Windows machine. *)
Definition onDriveD : Plugin :=
  mkPlugin (mkSettings true [Examples.macCarol]) win32 (lit "D:\vault").

(** The active note holds two references; the store still has the text of
    the one at the excluded position. *)
Definition diaryRefs : list NoteRefs :=
  [ mkRefs Examples.activeNote [mkPos 0 0 (lit "![[cat.png]]");
                                mkPos 1 0 (lit "![[cat.png]]")] ].

Definition diaryVault : Vault :=
  mkVault
    {[ Examples.activeNote := lit "![[cat.png]] kept" ++ [newline]
                              ++ lit "![[cat.png]] rewritten" ]}
    [].

(** Two references on one line, listed first to last, whose text is longer
    than the embed that replaces it. *)
Definition holidayHit (c : nat) : Position :=
  mkPos 0 c (lit "![[holiday/2024/cat.png]]").

Definition albumRefs : list NoteRefs :=
  [ mkRefs Examples.otherNote [holidayHit 0; holidayHit 30] ].

Definition albumVault : Vault :=
  mkVault
    {[ Examples.otherNote :=
         lit "![[holiday/2024/cat.png]] and ![[holiday/2024/cat.png]] twice" ]}
    [].


(** An image node with the embed of [Examples.aliceNote]. *)
Definition aliceImage : HTMLImageElement :=
  {[ "src"%string := lit "file:///Users/alice/Dropbox/img/cat.png" ]}.

End MoreExamples.

(** ** Strings: basic facts *)

Ltac Zify.zify_post_hook ::= Z.to_euclidean_division_equations.

(** Case analysis on every comparison of code units in sight. *)
Ltac ncases :=
  repeat match goal with
  | |- context [N.ltb ?a ?b] => destruct (N.ltb_spec a b)
  | |- context [N.leb ?a ?b] => destruct (N.leb_spec a b)
  | |- context [N.eqb ?a ?b] => destruct (N.eqb_spec a b)
  | H : context [N.ltb ?a ?b] |- _ => destruct (N.ltb_spec a b)
  | H : context [N.leb ?a ?b] |- _ => destruct (N.leb_spec a b)
  | H : context [N.eqb ?a ?b] |- _ => destruct (N.eqb_spec a b)
  end.

(** Settle every comparison of code units in the goal by arithmetic. *)
Ltac ndecide :=
  repeat match goal with
  | |- context [N.ltb ?a ?b] =>
      first [ replace (N.ltb a b) with true by (symmetry; apply N.ltb_lt; lia)
            | replace (N.ltb a b) with false by (symmetry; apply N.ltb_ge; lia) ]
  | |- context [N.leb ?a ?b] =>
      first [ replace (N.leb a b) with true by (symmetry; apply N.leb_le; lia)
            | replace (N.leb a b) with false by (symmetry; apply N.leb_gt; lia) ]
  end.

Lemma stripPrefix_Some p s r : stripPrefix p s = Some r ↔ s = p ++ r.
Proof.
  revert s. induction p as [|c p IH]; intros s; simpl.
  - split; congruence.
  - destruct s as [|d s]; [split; discriminate|].
    destruct (N.eqb_spec c d) as [->|Hne]; rewrite ?IH.
    + split; [by intros ->|by intros [= ->]].
    + split; [discriminate|]. intros [= -> _]. done.
Qed.

Lemma stripPrefix_app p r : stripPrefix p (p ++ r) = Some r.
Proof. by apply stripPrefix_Some. Qed.

Lemma startsWith_app p r : startsWith p (p ++ r) = true.
Proof. unfold startsWith. by rewrite stripPrefix_app. Qed.

Lemma splitAtFirst_Some p s b a :
  splitAtFirst p s = Some (b, a) → s = b ++ p ++ a.
Proof.
  revert b. induction s as [|c s IH]; intros b; simpl.
  - destruct (stripPrefix p []) eqn:E; [|discriminate].
    intros [= <- <-]. by apply stripPrefix_Some in E.
  - destruct (stripPrefix p (c :: s)) eqn:E.
    + intros [= <- <-]. by apply stripPrefix_Some in E.
    + destruct (splitAtFirst p s) as [[b' a']|] eqn:E'; [|discriminate].
      intros [= <- <-]. simpl. f_equal. by apply IH.
Qed.

Lemma includes_char c s : includes [c] s = true ↔ c ∈ s.
Proof.
  unfold includes. induction s as [|d s IH]; simpl.
  - split; [discriminate|]. by intros ?%elem_of_nil.
  - destruct (N.eqb_spec c d) as [->|Hne].
    + split; [intros _; left|done].
    + destruct (splitAtFirst [c] s) as [[??]|].
      * split; [intros _; right; by apply IH|done].
      * split; [discriminate|]. intros [?|?]%elem_of_cons; [done|].
        by apply IH.
Qed.

Lemma includes_char_false c s : includes [c] s = false ↔ c ∉ s.
Proof.
  rewrite <- includes_char. destruct (includes [c] s); split; congruence.
Qed.

Lemma str_eqb_eq a b : str_eqb a b = true ↔ a = b.
Proof. unfold str_eqb. by rewrite bool_decide_eq_true. Qed.

(** ** The URI functions: decoding *)

Lemma decodeEscape_cps {A} r (k : jsstring → jsstring → option A) :
  decodeEscape r k = escapeOf r ≫= λ p, k p.1 p.2.
Proof.
  unfold escapeOf, decodeEscape, withOctet.
  repeat (case_match; simpl; try done).
Qed.

Lemma utf16_length V : (1 ≤ length (utf16 V) ≤ 2)%nat.
Proof. unfold utf16. case_match; simpl; lia. Qed.

Lemma escapeOf_length r S r' :
  escapeOf r = Some (S, r') →
  (length r' + 2 ≤ length r)%nat ∧ (1 ≤ length S ≤ 2)%nat.
Proof.
  unfold escapeOf, decodeEscape, withOctet. intros H.
  repeat (case_match; simplify_eq; try discriminate);
    simpl; try (split; lia).
  all: match goal with
       | |- context [utf16 ?V] => pose proof (utf16_length V); split; lia
       end.
Qed.

(** One step of case analysis along the decoder: a variable first, then
    any scrutinee that is not an appended string. *)
Ltac escape_step :=
  match goal with
  | |- context [match ?x with _ => _ end] => is_var x; destruct x; simpl
  | |- context [match ?x with _ => _ end] =>
      lazymatch x with
      | context [_ ++ _] => fail
      | _ => destruct x eqn:?; simpl
      end
  end.

Lemma escapeOf_app r S r' b :
  escapeOf r = Some (S, r') → escapeOf (r ++ b) = Some (S, r' ++ b).
Proof.
  unfold escapeOf, decodeEscape, withOctet.
  repeat (escape_step; try done).
  all: by intros [= <- <-].
Qed.

Lemma decodeURIComponent_cons c r :
  decodeURIComponent (c :: r) =
    if c =? percent
    then escapeOf r ≫= λ p, (p.1 ++.) <$> decodeURIComponent p.2
    else (c ::.) <$> decodeURIComponent r.
Proof. simpl. case_match; [|done]. by rewrite decodeEscape_cps. Qed.

Lemma decode_length_aux n s t :
  (length s ≤ n)%nat → decodeURIComponent s = Some t →
  (length t ≤ length s)%nat ∧ (percent ∈ s → (length t < length s)%nat).
Proof.
  revert s t. induction n as [|n IH]; intros [|c r] t Hn; simpl in Hn; try lia.
  - intros [= <-]. split; [done|]. by intros ?%elem_of_nil.
  - intros [= <-]. split; [done|]. by intros ?%elem_of_nil.
  - rewrite decodeURIComponent_cons.
    destruct (N.eqb_spec c percent) as [->|Hc].
    + destruct (escapeOf r) as [[S r']|] eqn:E; [|done]. simpl.
      destruct (decodeURIComponent r') as [t'|] eqn:E'; [|done].
      intros [= <-]. apply escapeOf_length in E as [Hr HS].
      destruct (IH r' t') as [Hle _]; [lia|done|].
      rewrite length_app. simpl. lia.
    + destruct (decodeURIComponent r) as [t'|] eqn:E'; [|done].
      intros [= <-]. destruct (IH r t') as [Hle Hlt]; [lia|done|].
      simpl. split; [lia|]. intros [?|?]%elem_of_cons; [done|].
      specialize (Hlt ltac:(done)). lia.
Qed.

(** A pass of [decodeURIComponent] never lengthens a string, and shortens
    every string that has a percent sign. *)
Lemma decode_length s t :
  decodeURIComponent s = Some t →
  (length t ≤ length s)%nat ∧ (percent ∈ s → (length t < length s)%nat).
Proof. by apply (decode_length_aux (length s)). Qed.

Lemma decode_no_percent s : percent ∉ s → decodeURIComponent s = Some s.
Proof.
  induction s as [|c r IH]; [done|]. intros Hnot.
  rewrite decodeURIComponent_cons.
  destruct (N.eqb_spec c percent) as [->|Hc].
  - exfalso. apply Hnot. left.
  - rewrite IH; [done|]. intros ?. apply Hnot. by right.
Qed.

Lemma decode_app_aux n a a' b b' :
  (length a ≤ n)%nat →
  decodeURIComponent a = Some a' → decodeURIComponent b = Some b' →
  decodeURIComponent (a ++ b) = Some (a' ++ b').
Proof.
  revert a a'. induction n as [|n IH]; intros [|c r] a' Hn; simpl in Hn; try lia.
  - by intros [= <-].
  - by intros [= <-].
  - intros Ha Hb. rewrite <- app_comm_cons.
    rewrite decodeURIComponent_cons in Ha |- *.
    destruct (c =? percent).
    + destruct (escapeOf r) as [[S r']|] eqn:E; [|done]. simpl in Ha.
      destruct (decodeURIComponent r') as [t'|] eqn:E'; [|done].
      injection Ha as <-.
      rewrite (escapeOf_app _ _ _ b E). simpl.
      apply escapeOf_length in E as [Hr _].
      rewrite (IH r' t'); [|lia|done|done]. simpl. by rewrite app_assoc.
    + destruct (decodeURIComponent r) as [t'|] eqn:E'; [|done].
      injection Ha as <-. rewrite (IH r t'); [done|lia|done|done].
Qed.

(** Decoding goes through a concatenation of decodable strings. *)
Lemma decode_app a a' b b' :
  decodeURIComponent a = Some a' → decodeURIComponent b = Some b' →
  decodeURIComponent (a ++ b) = Some (a' ++ b').
Proof. by apply (decode_app_aux (length a)). Qed.

(** ** LocationCodec: the decode loop *)

Lemma decodeLoop_mono fuel fuel' str d :
  (length d < fuel)%nat → (length d < fuel')%nat →
  decodeLoop fuel str d = decodeLoop fuel' str d.
Proof.
  revert fuel' d. induction fuel as [|fuel IH]; intros [|fuel'] d; try lia.
  intros Hf Hf'. simpl.
  destruct (includes [percent] d) eqn:Hinc; [|done].
  destruct (decodeURIComponent d) as [next|] eqn:Hdec; [|done].
  destruct (str_eqb next d); [done|].
  apply includes_char in Hinc.
  destruct (decode_length _ _ Hdec) as [_ Hlt]. specialize (Hlt Hinc).
  apply IH; lia.
Qed.

Lemma decodeLoop_spec fuel str d :
  (length d < fuel)%nat →
  (∃ n d', passes n d = Some d' ∧ (percent ∉ d')
           ∧ decodeLoop fuel str d = Returned d')
  ∨ (∃ n d', passes n d = Some d' ∧ decodeURIComponent d' = None
             ∧ decodeLoop fuel str d = Returned str).
Proof.
  revert d. induction fuel as [|fuel IH]; intros d Hf; [lia|]. simpl.
  destruct (includes [percent] d) eqn:Hinc.
  - apply includes_char in Hinc.
    destruct (decodeURIComponent d) as [next|] eqn:Hdec.
    + destruct (decode_length _ _ Hdec) as [_ Hlt]. specialize (Hlt Hinc).
      destruct (str_eqb next d) eqn:Heq.
      { apply str_eqb_eq in Heq. subst. lia. }
      destruct (IH next) as [(n & d' & Hp & Hd' & Hr)|(n & d' & Hp & Hd' & Hr)];
        [lia| |].
      * left. exists (S n), d'. simpl. by rewrite Hdec.
      * right. exists (S n), d'. simpl. by rewrite Hdec.
    + right. by exists O, d.
  - apply includes_char_false in Hinc. left. by exists O, d.
Qed.

Lemma fullyDecodeUri_loop str extra :
  decodeLoop (S (length str) + extra) str str = Returned (fullyDecodeUri str).
Proof.
  unfold fullyDecodeUri.
  rewrite (decodeLoop_mono _ (S (length str))) by lia.
  destruct (decodeLoop_spec (S (length str)) str str)
    as [(? & ? & _ & _ & ->)|(? & ? & _ & _ & ->)]; [lia| |]; done.
Qed.

Lemma fullyDecodeUri_no_percent s : percent ∉ s → fullyDecodeUri s = s.
Proof.
  intros H%includes_char_false. unfold fullyDecodeUri. simpl. by rewrite H.
Qed.

(** C10.  The multi-pass decode loop, in [fullyDecodeUri] and at the head of
    [pathToFileUrl], terminates on every string: a pass throws, or gives
    back its argument, or gives a strictly shorter string, and the loop
    returns within [length str + 1] iterations whatever bound above that is
    allowed. *)
Theorem decodeLoop_terminates :
  (∀ d, decodeURIComponent d = None
        ∨ decodeURIComponent d = Some d
        ∨ ∃ next, decodeURIComponent d = Some next
                  ∧ (length next < length d)%nat)
  ∧ (∀ str extra, ∃ r,
        decodeLoop (S (length str) + extra) str str = Returned r
        ∧ fullyDecodeUri str = r).
Proof.
  split.
  - intros d. destruct (decodeURIComponent d) as [next|] eqn:Hdec; [|by left].
    right. destruct (decide (percent ∈ d)) as [Hin|Hnot].
    + right. exists next. split; [done|]. by apply (decode_length _ _ Hdec).
    + left. rewrite <- Hdec. by apply decode_no_percent.
  - intros str extra. exists (fullyDecodeUri str).
    split; [apply fullyDecodeUri_loop|done].
Qed.

(** C2, as stated, fails: the second pass over [%25zz] throws, and the
    result is the original string, not the [%zz] of the first pass. *)
Lemma fullyDecodeUri_error_keeps_no_partial_decode :
  passes 1 (lit "%25zz") = Some (lit "%zz")
  ∧ decodeURIComponent (lit "%zz") = None
  ∧ fullyDecodeUri (lit "%25zz") = lit "%25zz"
  ∧ fullyDecodeUri (lit "%25zz") ≠ lit "%zz".
Proof. repeat split; by vm_compute. Qed.

(** C2, amended.  [fullyDecodeUri] decodes pass after pass until no percent
    sign is left, and the result is then a fixed point of the decoding; when
    any pass throws, it returns the string it was given, unchanged. *)
Theorem fullyDecodeUri_fixed_point_or_original s :
  (∃ n d, passes n s = Some d ∧ (percent ∉ d)
          ∧ decodeURIComponent d = Some d ∧ fullyDecodeUri s = d)
  ∨ (∃ n d, passes n s = Some d ∧ decodeURIComponent d = None
            ∧ fullyDecodeUri s = s).
Proof.
  pose proof (fullyDecodeUri_loop s 0) as Hloop.
  rewrite Nat.add_0_r in Hloop.
  destruct (decodeLoop_spec (S (length s)) s s)
    as [(n & d & Hp & Hd & Hr)|(n & d & Hp & Hd & Hr)]; [lia| |];
    rewrite Hloop in Hr; injection Hr as Hr.
  - left. exists n, d. by rewrite decode_no_percent.
  - right. by exists n, d.
Qed.

(** ** The URI functions: encoding, and decoding what was encoded *)

Lemma hexVal_hexDigit d : d < 16 → hexVal (hexDigit d) = Some d.
Proof.
  intros Hd. unfold hexVal, hexDigit.
  ncases; simpl; try lia; f_equal; lia.
Qed.

Lemma parseHexOctet_escape b :
  b < 256 → parseHexOctet (hexDigit (b / 16)) (hexDigit (b mod 16)) = Some b.
Proof.
  intros Hb. unfold parseHexOctet.
  rewrite !hexVal_hexDigit by lia. f_equal. lia.
Qed.

Lemma escapeOf_escapeCodePoint cp r :
  cp < 0xD800 ∨ 0xDFFF < cp → cp < 0x110000 →
  ∃ h, escapeCodePoint cp = percent :: h
       ∧ escapeOf (h ++ r) = Some (utf16 cp, r).
Proof.
  intros Hsur Hmax. unfold escapeCodePoint, utf8.
  destruct (N.ltb_spec cp 0x80); [|destruct (N.ltb_spec cp 0x800);
    [|destruct (N.ltb_spec cp 0x10000)]];
    simpl; eexists; (split; [reflexivity|]);
    unfold escapeOf, decodeEscape, withOctet; simpl;
    rewrite ?N.eqb_refl, ?parseHexOctet_escape by lia.
  - destruct (N.ltb_spec cp 128); [|lia].
    unfold utf16. destruct (N.ltb_spec cp 0x10000); [done|lia].
  - unfold codePoint2, isCont. ndecide. simpl.
    match goal with
    | |- Some (utf16 ?V, _) = _ => by replace V with cp by lia
    end.
  - unfold codePoint3, isCont. destruct Hsur; ndecide; simpl.
    all: match goal with
         | |- Some (utf16 ?V, _) = _ => by replace V with cp by lia
         end.
  - unfold codePoint4, isCont. ndecide. simpl.
    match goal with
    | |- Some (utf16 ?V, _) = _ => by replace V with cp by lia
    end.
Qed.

Lemma utf16_unit c : c < 0x10000 → utf16 c = [c].
Proof. intros. unfold utf16. by destruct (N.ltb_spec c 0x10000); [|lia]. Qed.

Lemma utf16_pair c d :
  isLead c = true → isTrail d = true →
  utf16 ((c - 0xD800) * 1024 + (d - 0xDC00) + 0x10000) = [c; d].
Proof.
  unfold isLead, isTrail, utf16. intros Hc Hd. ncases; simpl in *; try lia.
  f_equal; [|f_equal]; lia.
Qed.

Section Encode.
Variable u : N → bool.
Hypothesis u_ascii : ∀ c, u c = true → c < 128 ∧ c ≠ percent.

Lemma Encode_decode_aux n s :
  (length s ≤ n)%nat → wellFormedUTF16 s = true →
  ∃ e, Encode u s = Some e ∧ decodeURIComponent e = Some s.
Proof using u_ascii.
  revert s. induction n as [|n IH]; intros [|c r] Hn; simpl in Hn; try lia;
    try (by exists []).
  simpl. destruct (u c) eqn:Hu.
  - destruct (u_ascii c Hu) as [Hc Hp].
    assert (isLead c = false) as -> by (unfold isLead; ncases; simpl; lia).
    intros (_ & Hr)%andb_prop.
    destruct (IH r) as (e & -> & He); [lia|done|].
    exists (c :: e). split; [done|]. rewrite decodeURIComponent_cons.
    destruct (N.eqb_spec c percent); [done|]. by rewrite He.
  - destruct (isLead c) eqn:Hlead.
    + destruct r as [|d r']; [done|]. simpl in Hn.
      intros [Hd Hr]%andb_prop. rewrite Hd.
      destruct (IH r') as (e & -> & He); [lia|done|].
      set (cp := (c - 0xD800) * 1024 + (d - 0xDC00) + 0x10000).
      destruct (escapeOf_escapeCodePoint cp e) as (h & Hh & Hesc).
      { unfold isLead, isTrail in *. subst cp. ncases; simpl in *; lia. }
      { unfold isLead, isTrail in *. subst cp. ncases; simpl in *; lia. }
      eexists. split; [done|]. simpl fmap. rewrite Hh. simpl app.
      rewrite decodeURIComponent_cons, N.eqb_refl, Hesc. simpl.
      rewrite He. simpl. subst cp. by rewrite utf16_pair.
    + intros [[Ht Hc]%andb_prop Hr]%andb_prop.
      apply negb_true_iff in Ht. rewrite Ht.
      destruct (IH r) as (e & -> & He); [lia|done|].
      destruct (escapeOf_escapeCodePoint c e) as (h & Hh & Hesc).
      { unfold isLead, isTrail in *. ncases; simpl in *; lia. }
      { ncases; simpl in *; lia. }
      eexists. split; [done|]. simpl fmap. rewrite Hh. simpl app.
      rewrite decodeURIComponent_cons, N.eqb_refl, Hesc. simpl.
      rewrite He. simpl. rewrite utf16_unit; [done|]. ncases; simpl in *; lia.
Qed.

(** What [Encode] writes for a well-formed string decodes to that string
    in one pass. *)
Lemma Encode_decode s :
  wellFormedUTF16 s = true →
  ∃ e, Encode u s = Some e ∧ decodeURIComponent e = Some s.
Proof using u_ascii. by apply (Encode_decode_aux (length s)). Qed.
End Encode.

(** ** LocationCodec: encoding a path *)

Lemma join_app_head (sep a y : jsstring) ys :
  join sep ((a ++ y) :: ys) = a ++ join sep (y :: ys).
Proof. destruct ys; simpl; [done|]. by rewrite <- app_assoc. Qed.

Lemma join_cons_head (sep : jsstring) c y ys :
  join sep ((c :: y) :: ys) = c :: join sep (y :: ys).
Proof. apply (join_app_head sep [c]). Qed.

Lemma split_cons sep s : ∃ seg segs, split sep s = seg :: segs.
Proof.
  induction s as [|c s (seg & segs & IH)]; simpl; [by eexists _, _|].
  destruct (c =? sep); [by eexists _, _|]. rewrite IH. by eexists _, _.
Qed.

Lemma unescaped_ascii c : unescaped c = true → c < 128 ∧ c ≠ percent.
Proof.
  unfold unescaped, isAsciiLetter, percent.
  rewrite !orb_true_iff, !andb_true_iff, !N.leb_le, !N.eqb_eq. lia.
Qed.

Lemma unescapedInPath_ascii c : unescapedInPath c = true → c < 128 ∧ c ≠ percent.
Proof.
  unfold unescapedInPath. intros [H|H]%orb_prop; [by apply unescaped_ascii|].
  apply N.eqb_eq in H. subst. unfold slash, percent. lia.
Qed.

Lemma encodeSegments_aux n p :
  (length p ≤ n)%nat →
  encodeSegments p = Encode unescapedInPath p.
Proof.
  unfold encodeSegments, encodeURIComponent.
  revert p. induction n as [|n IH]; intros [|c p] Hn; simpl in Hn; try lia;
    try done.
  cbn [split Encode].
  destruct (N.eqb_spec c slash) as [->|Hc].
  - replace (unescapedInPath slash) with true by done.
    rewrite <- IH by lia.
    destruct (split_cons slash p) as (seg & segs & ->).
    cbn. destruct (Encode unescaped seg) as [y|]; [|done]. cbn.
    by destruct (mapM (Encode unescaped) segs).
  - unfold unescapedInPath at 1.
    replace (c =? slash) with false by (symmetry; by apply N.eqb_neq).
    rewrite orb_false_r.
    destruct (split_cons slash p) as (seg & segs & Hsplit).
    pose proof (IH p ltac:(lia)) as IHp. rewrite Hsplit in IHp |- *.
    cbn [mapM]. cbn [Encode].
    destruct (unescaped c) eqn:Hu.
    + rewrite <- IHp. cbn.
      destruct (Encode unescaped seg) as [y|]; [|done]. cbn.
      destruct (mapM (Encode unescaped) segs); [|done]. cbn.
      destruct l; simpl; by rewrite <- ?app_assoc.
    + destruct (isLead c).
      * destruct p as [|d p]; cbn in Hsplit.
        { by injection Hsplit as <- <-. }
        simpl in Hn. destruct (N.eqb_spec d slash) as [->|Hd].
        { by injection Hsplit as <- <-. }
        destruct (split_cons slash p) as (seg' & segs' & Hsplit').
        rewrite Hsplit' in Hsplit. injection Hsplit as <- <-.
        destruct (isTrail d); [|done].
        rewrite <- IH by lia. rewrite Hsplit'. cbn.
        destruct (Encode unescaped seg') as [y|]; [|done]. cbn.
        destruct (mapM (Encode unescaped) segs'); [|done]. cbn.
        destruct l; simpl; by rewrite <- ?app_assoc.
      * destruct (isTrail c); [done|].
        rewrite <- IHp. cbn.
        destruct (Encode unescaped seg) as [y|]; [|done]. cbn.
        destruct (mapM (Encode unescaped) segs); [|done]. cbn.
        destruct l; simpl; by rewrite <- ?app_assoc.
Qed.

(** Encoding the segments of a path one by one and joining them with
    slashes is encoding the path with the slash left alone. *)
Lemma encodeSegments_Encode p : encodeSegments p = Encode unescapedInPath p.
Proof. by apply (encodeSegments_aux (length p)). Qed.

Lemma escapeCodePoint_head cp : ∃ h, escapeCodePoint cp = percent :: h.
Proof.
  unfold escapeCodePoint, utf8. repeat case_match; simpl; by eexists.
Qed.

Lemma Encode_startsWith_slash p e :
  Encode unescapedInPath p = Some e →
  startsWith [slash] e = startsWith [slash] p.
Proof.
  destruct p as [|c r]; simpl; [by intros [= <-]|].
  assert (∀ cp (x : option jsstring),
    (escapeCodePoint cp ++.) <$> x = Some e →
    startsWith [slash] e = false) as Hesc.
  { intros cp [x|]; [|done]. destruct (escapeCodePoint_head cp) as [h ->].
    by intros [= <-]. }
  unfold startsWith at 2. cbn [stripPrefix].
  destruct (N.eqb_spec slash c) as [<-|Hc].
  - replace (unescapedInPath slash) with true by done.
    destruct (Encode unescapedInPath r); [|done]. by intros [= <-].
  - destruct (unescapedInPath c).
    + destruct (Encode unescapedInPath r); [|done]. intros [= <-].
      unfold startsWith. cbn [stripPrefix]. by destruct (N.eqb_spec slash c).
    + repeat case_match; try done; by apply Hesc.
Qed.

Lemma Encode_drive l rest e :
  isAsciiLetter l = true →
  Encode unescapedInPath (l :: colon :: rest) = Some e →
  ∃ encRest, Encode unescapedInPath rest = Some encRest
             ∧ e = l :: lit "%3A" ++ encRest.
Proof.
  intros Hl. cbn [Encode].
  assert (unescapedInPath l = true) as ->.
  { unfold unescapedInPath, unescaped. by rewrite Hl. }
  replace (unescapedInPath colon) with false by done.
  replace (isLead colon) with false by done.
  replace (isTrail colon) with false by done.
  destruct (Encode unescapedInPath rest) as [encRest|]; [|done].
  intros [= <-]. by exists encRest.
Qed.

Lemma startsWithDrive_inv s :
  startsWithDrive s = true →
  ∃ l rest, s = l :: colon :: rest ∧ isAsciiLetter l = true.
Proof.
  destruct s as [|l [|c rest]]; simpl; try done.
  intros [Hl Hc%N.eqb_eq]%andb_prop. subst. by exists l, rest.
Qed.

(** C8, amended.  (Here and below [regexSafe] keeps to the registries on
    which the patterns of the embedding are those of the plugin.)  When the
    plugin runs on Windows and the translated,
    slash-normalised path begins with a drive letter and a colon, the
    identifier is [file:///] followed by the encoded path with that colon
    written literally.  In every other case, whatever the path, the
    identifier is [file://] followed by the encoded path: it then shows
    three slashes exactly when the path itself begins with a slash, and
    the colon of a drive letter is written [%3A]. *)
Theorem pathToFileUrl_scheme this path url :
  regexSafe this = true →
  pathToFileUrl this path = Some url →
  let normalizedPath :=
    normalizeSlashes (convertPathForCurrentPlatform this (fullyDecodeUri path)) in
  ∃ encodedPath,
    encodeSegments normalizedPath = Some encodedPath ∧
    if bool_decide (getCurrentPlatform this = win32)
       && startsWithDrive normalizedPath
    then ∃ l rest encRest,
           normalizedPath = l :: colon :: rest
           ∧ encodedPath = l :: lit "%3A" ++ encRest
           ∧ url = lit "file:///" ++ l :: colon :: encRest
    else url = lit "file://" ++ encodedPath
         ∧ startsWith (lit "file:///") url = startsWith [slash] normalizedPath
         ∧ (∀ l rest, normalizedPath = l :: colon :: rest →
              isAsciiLetter l = true →
              startsWith (lit "file://" ++ l :: lit "%3A") url = true).
Proof.
  intros _ H normalizedPath. unfold pathToFileUrl in H. cbv zeta in H.
  fold normalizedPath in H.
  destruct (encodeSegments normalizedPath) as [encodedPath|] eqn:Henc;
    [|done]. cbn in H. exists encodedPath. split; [done|].
  rewrite encodeSegments_Encode in Henc.
  destruct (bool_decide (getCurrentPlatform this = win32)
            && startsWithDrive normalizedPath) eqn:Hwin.
  - apply andb_prop in Hwin as [_ Hdrive].
    apply startsWithDrive_inv in Hdrive as (l & rest & Hnorm & Hl).
    rewrite Hnorm in Henc.
    destruct (Encode_drive _ _ _ Hl Henc) as (encRest & _ & ->).
    exists l, rest, encRest. repeat split; [done|].
    apply (inj Some) in H. subst url. unfold restoreDriveColon. rewrite Hl.
    by rewrite stripPrefix_app.
  - apply (inj Some) in H. subst url. split; [done|]. split.
    + rewrite <- (Encode_startsWith_slash _ _ Henc).
      unfold startsWith. by destruct encodedPath.
    + intros l rest Hnorm Hl. rewrite Hnorm in Henc.
      destruct (Encode_drive _ _ _ Hl Henc) as (encRest & _ & ->).
      change (l :: lit "%3A" ++ encRest) with ((l :: lit "%3A") ++ encRest).
      rewrite (app_assoc (lit "file://")). apply startsWith_app.
Qed.

(** ** LocationCodec: the round trip *)

Lemma fullyDecodeUri_of_encoded e p :
  decodeURIComponent e = Some p → percent ∉ p → fullyDecodeUri e = p.
Proof.
  intros Hdec Hp. unfold fullyDecodeUri. cbn [decodeLoop].
  destruct (includes [percent] e) eqn:Hinc.
  - rewrite Hdec. destruct (str_eqb p e) eqn:Heq.
    { by apply str_eqb_eq in Heq. }
    destruct e as [|c e]; [done|]. cbn [length decodeLoop].
    apply includes_char_false in Hp. by rewrite Hp.
  - apply includes_char_false in Hinc.
    rewrite decode_no_percent in Hdec by done. by injection Hdec.
Qed.

Lemma normalizeSlashes_id s : backslash ∉ s → normalizeSlashes s = s.
Proof.
  unfold normalizeSlashes. induction s as [|c s IH]; [done|]. intros Hnot.
  cbn. rewrite IH by (intros ?; apply Hnot; by right). 
  destruct (N.eqb_spec c backslash) as [->|]; [|done].
  exfalso. apply Hnot. left.
Qed.

Lemma wellFormedUTF16_tail c s :
  c < 128 → wellFormedUTF16 (c :: s) = true → wellFormedUTF16 s = true.
Proof.
  intros Hc. cbn [wellFormedUTF16].
  assert (isLead c = false) as -> by (unfold isLead; ndecide; done).
  by intros [_ ?]%andb_prop.
Qed.

Lemma isAsciiLetter_ascii l : isAsciiLetter l = true → l < 128 ∧ l ≠ slash.
Proof.
  unfold isAsciiLetter, slash.
  rewrite !orb_true_iff, !andb_true_iff, !N.leb_le. lia.
Qed.

Lemma stripPrefix_Users_drive l rest :
  stripPrefix (lit "Users/") (l :: colon :: rest) = None.
Proof.
  change (lit "Users/") with [85; 115; 101; 114; 115; 47].
  cbn [stripPrefix]. by destruct (85 =? l).
Qed.

(** C4, amended.  On a registry with literal Windows names ([regexSafe]):
    for a well-formed path without percent sign and without
    backslash that the translator leaves as it is, and that begins with
    [/Users/] or with a drive letter and a colon, the identifier
    [pathToFileUrl] builds is decoded by the scan passes to that very
    path. *)
Theorem decodeLocation_pathToFileUrl this path :
  regexSafe this = true →
  percent ∉ path → backslash ∉ path → wellFormedUTF16 path = true →
  convertPathForCurrentPlatform this path = path →
  startsWith (lit "/Users/") path = true ∨ startsWithDrive path = true →
  ∃ url, pathToFileUrl this path = Some url ∧ decodeLocation url = path.
Proof.
  intros _ Hpct Hbs Hwf Hconv Hshape. unfold pathToFileUrl.
  rewrite (fullyDecodeUri_no_percent _ Hpct), Hconv, (normalizeSlashes_id _ Hbs).
  rewrite encodeSegments_Encode.
  destruct (Encode_decode _ unescapedInPath_ascii _ Hwf) as (e & He & Hdec).
  rewrite He. cbn [mbind option_bind].
  destruct (bool_decide (getCurrentPlatform this = win32) && startsWithDrive path)
    eqn:Hwin.
  - (* a drive path on Windows *)
    apply andb_prop in Hwin as [_ Hdrive].
    apply startsWithDrive_inv in Hdrive as (l & rest & -> & Hl).
    destruct (Encode_drive _ _ _ Hl He) as (encRest & Hrest & ->).
    destruct (isAsciiLetter_ascii _ Hl) as [Hl128 Hlslash].
    assert (decodeURIComponent encRest = Some rest) as Hdr.
    { destruct (Encode_decode _ unescapedInPath_ascii rest) as (e' & He' & Hd').
      - apply (wellFormedUTF16_tail colon); [done|].
        by apply (wellFormedUTF16_tail l).
      - congruence. }
    eexists. split; [done|]. unfold decodeLocation, restoreDriveColon.
    rewrite Hl, stripPrefix_app.
    assert (stripFileScheme (lit "file:///" ++ l :: colon :: encRest)
            = l :: colon :: encRest) as -> by done.
    rewrite (fullyDecodeUri_of_encoded _ (l :: colon :: rest)); [| |done].
    + unfold restoreLeadingSlash, startsWith.
      by rewrite stripPrefix_Users_drive.
    + rewrite !decodeURIComponent_cons.
      assert ((l =? percent) = false) as ->.
      { apply N.eqb_neq. intros ->. by apply Hpct; left. }
      replace (colon =? percent) with false by done.
      by rewrite Hdr.
  - eexists. split; [done|]. unfold decodeLocation.
    destruct Hshape as [Husers|Hdrive].
    + (* a path under /Users/ *)
      unfold startsWith in Husers.
      destruct (stripPrefix (lit "/Users/") path) as [rest|] eqn:Hpre; [|done].
      apply stripPrefix_Some in Hpre. subst path.
      change (lit "/Users/" ++ rest) with (slash :: lit "Users/" ++ rest) in *.
      cbn [Encode] in He.
      replace (unescapedInPath slash) with true in He by done.
      destruct (Encode unescapedInPath (lit "Users/" ++ rest)) as [e'|] eqn:He';
        [|done].
      apply (inj Some) in He. subst e.
      rewrite decodeURIComponent_cons in Hdec.
      replace (slash =? percent) with false in Hdec by done.
      destruct (decodeURIComponent e') as [t|] eqn:Hdec'; [|done].
      assert (t = lit "Users/" ++ rest) as -> by (cbn in Hdec; congruence).
      assert (stripFileScheme (lit "file://" ++ slash :: e') = e') as -> by done.
      rewrite (fullyDecodeUri_of_encoded _ _ Hdec').
      * unfold restoreLeadingSlash. by rewrite startsWith_app.
      * intros ?. apply Hpct. by right.
    + (* a drive path elsewhere *)
      apply startsWithDrive_inv in Hdrive as (l & rest & -> & Hl).
      destruct (Encode_drive _ _ _ Hl He) as (encRest & Hrest & ->).
      destruct (isAsciiLetter_ascii _ Hl) as [Hl128 Hlslash].
      assert (stripFileScheme (lit "file://" ++ l :: lit "%3A" ++ encRest)
              = l :: lit "%3A" ++ encRest) as ->.
      { unfold stripFileScheme. rewrite stripPrefix_app.
        by destruct (N.eqb_spec l slash). }
      rewrite (fullyDecodeUri_of_encoded _ _ Hdec Hpct).
      unfold restoreLeadingSlash, startsWith.
      by rewrite stripPrefix_Users_drive.
Qed.

(** ** PathClassifier and PathTranslator *)

Lemma str_eqb_refl a : str_eqb a a = true.
Proof. by apply str_eqb_eq. Qed.

Lemma str_eqb_ne a b : a ≠ b → str_eqb a b = false.
Proof. intros. unfold str_eqb. by apply bool_decide_eq_false. Qed.

(** C5.  With the Mac profile of alice (sub-path Dropbox) and the Windows
    profile of alice (no sub-path) registered, in either order, and the
    Windows one live, the path /Users/alice/Dropbox/img/cat.png is
    classified to the Mac profile and translated to
    C:/Users/alice/img/cat.png. *)
Theorem alice_dropbox_example this idA idB nameA nameB :
  let A := mkProfile idA nameA darwin (lit "alice") (lit "Dropbox") in
  let B := mkProfile idB nameB win32 (lit "alice") [] in
  idA ≠ idB →
  enableCrossPlatform (settings this) = true →
  computers (settings this) = [A; B] ∨ computers (settings this) = [B; A] →
  getCurrentPlatform this = win32 →
  getCurrentUsername this = lit "alice" →
  findMatchingComputer this (lit "/Users/alice/Dropbox/img/cat.png") = Some A
  ∧ convertPathForCurrentPlatform this (lit "/Users/alice/Dropbox/img/cat.png")
    = lit "C:/Users/alice/img/cat.png".
Proof.
  intros A B Hid Hen Hcs Hplat Huser.
  assert (matchesComputer (lit "/Users/alice/Dropbox/img/cat.png") A = true)
    as HmA by by vm_compute.
  assert (matchesComputer (lit "/Users/alice/Dropbox/img/cat.png") B = false)
    as HmB by by vm_compute.
  assert (isCurrent this A = false) as HcA.
  { unfold isCurrent. rewrite Hplat. by cbn. }
  assert (isCurrent this B = true) as HcB.
  { unfold isCurrent. rewrite Hplat, Huser. cbn. apply str_eqb_refl. }
  assert (findMatchingComputer this (lit "/Users/alice/Dropbox/img/cat.png")
          = Some A) as Hfind.
  { unfold findMatchingComputer. rewrite Hen.
    destruct Hcs as [-> | ->]; cbn [negb orb find];
      rewrite bool_decide_eq_false_2 by done; cbn [find];
      by rewrite ?HmB, HmA. }
  split; [done|].
  unfold convertPathForCurrentPlatform, currentComputerOf. rewrite Hfind, Hen.
  assert (find (isCurrent this) (computers (settings this)) = Some B) as ->.
  { destruct Hcs as [-> | ->]; cbn [find]; by rewrite ?HcA, HcB. }
  destruct Hcs as [-> | ->]; cbn [negb orb];
    rewrite bool_decide_eq_false_2 by done;
    cbn [id A B]; rewrite (str_eqb_ne idA idB) by done; by vm_compute.
Qed.

Lemma alice_dropbox_example_witness :
  findMatchingComputer Examples.onWinAlice
    (lit "/Users/alice/Dropbox/img/cat.png") = Some Examples.macAlice
  ∧ convertPathForCurrentPlatform Examples.onWinAlice
      (lit "/Users/alice/Dropbox/img/cat.png")
    = lit "C:/Users/alice/img/cat.png".
Proof.
  apply (alice_dropbox_example Examples.onWinAlice
           (lit "darwin-alice-1") (lit "win32-alice-2")
           (lit "Mac (alice)") (lit "Windows (alice)")).
  - by vm_compute.
  - reflexivity.
  - left. reflexivity.
  - reflexivity.
  - by vm_compute.
Defined.


Lemma normalizeSlashes_length s : length (normalizeSlashes s) = length s.
Proof. unfold normalizeSlashes. apply length_fmap. Qed.

Lemma targetRoot_nonempty c : (0 < length (targetRoot c))%nat.
Proof.
  unfold targetRoot, winRoot, macRoot.
  repeat case_match; rewrite ?length_app; cbn; lia.
Qed.

(** Every other way the translation can fail gives the path back: the
    translation is switched off, no profile is registered, the classifier
    matches no profile, no profile is the live one, or the matched profile
    is the live one. *)
Lemma convertPath_gives_path_back this path :
  enableCrossPlatform (settings this) = false
  ∨ computers (settings this) = []
  ∨ findMatchingComputer this path = None
  ∨ currentComputerOf this = None
  ∨ (∃ src cur, findMatchingComputer this path = Some src
                ∧ currentComputerOf this = Some cur ∧ id src = id cur) →
  convertPathForCurrentPlatform this path = path.
Proof.
  unfold convertPathForCurrentPlatform.
  intros [H|[H|[H|[H|(src & cur & Hs & Hc & Hid)]]]].
  - by rewrite H.
  - rewrite H. by rewrite bool_decide_eq_true_2, orb_true_r by done.
  - rewrite H. by destruct (_ || _).
  - rewrite H. destruct (_ || _); [done|]. by destruct (findMatchingComputer _ _).
  - rewrite Hs, Hc, Hid, str_eqb_refl. by destruct (_ || _).
Qed.

(** C1, at the failing input.  The claim asks for the original path when
    the remainder extraction fails.  With the two profiles of alice, the
    Windows one live, the Mac profile matches /Users/alice/Desktop/cat.png,
    its root /Users/alice/Dropbox/ does not occur in that path, and the
    translator does not give the path back: it puts the live root in front
    of the whole path. *)
Lemma convertPath_no_fallback_on_failed_extraction :
  findMatchingComputer Examples.onWinAlice (lit "/Users/alice/Desktop/cat.png")
    = Some Examples.macAlice
  ∧ extractionFails Examples.macAlice (lit "/Users/alice/Desktop/cat.png")
  ∧ convertPathForCurrentPlatform Examples.onWinAlice
      (lit "/Users/alice/Desktop/cat.png")
    = lit "C:/Users/alice//Users/alice/Desktop/cat.png"
  ∧ convertPathForCurrentPlatform Examples.onWinAlice
      (lit "/Users/alice/Desktop/cat.png")
    ≠ lit "/Users/alice/Desktop/cat.png".
Proof. repeat split; by vm_compute. Qed.

(** The same in general, on a registry with literal Windows names
    ([regexSafe]): whenever the classifier has matched a profile other than
    the live one and the root of that profile does not occur in the path,
    the translator gives the live root followed by the whole path (with its
    backslashes turned into slashes for a Windows source), which is never
    the path itself. *)
Lemma convertPath_failed_extraction this path sourceComputer currentComputer :
  regexSafe this = true →
  findMatchingComputer this path = Some sourceComputer →
  currentComputerOf this = Some currentComputer →
  id sourceComputer ≠ id currentComputer →
  extractionFails sourceComputer path →
  convertPathForCurrentPlatform this path
    = targetRoot currentComputer
      ++ (if bool_decide (platform sourceComputer = darwin) then path
          else normalizeSlashes path)
  ∧ convertPathForCurrentPlatform this path ≠ path.
Proof.
  intros _ Hsrc Hcur Hid Hfail.
  assert (convertPathForCurrentPlatform this path
          = targetRoot currentComputer
            ++ (if bool_decide (platform sourceComputer = darwin) then path
                else normalizeSlashes path)) as Heq.
  { unfold convertPathForCurrentPlatform. rewrite Hsrc, Hcur.
    unfold findMatchingComputer in Hsrc.
    destruct (negb (enableCrossPlatform (settings this))
              || bool_decide (computers (settings this) = [])); [done|].
    rewrite str_eqb_ne by done. f_equal.
    unfold relativePath, extractionFails, replaceFirst, includes in *.
    destruct (platform sourceComputer); rewrite ?Hfail; [|done..].
    by destruct (splitAtFirst (macRoot sourceComputer) path). }
  split; [done|]. rewrite Heq. intros Hlen%(f_equal length).
  rewrite length_app in Hlen. pose proof (targetRoot_nonempty currentComputer).
  destruct (bool_decide (platform sourceComputer = darwin));
    rewrite ?normalizeSlashes_length in Hlen; lia.
Qed.

(** ** LocationCodec: examples *)

(** C8, as stated, fails.  On a Mac, the Windows path C:/Users/bob/cat.png
    is encoded with two slashes and with its colon as [%3A]; and the
    identifier of a Mac path shows three slashes, two of the scheme and
    the one the path begins with. *)
Lemma pathToFileUrl_drive_colon_on_mac :
  pathToFileUrl Examples.macPlain (lit "C:/Users/bob/cat.png")
    = Some (lit "file://C%3A/Users/bob/cat.png")
  ∧ pathToFileUrl Examples.macPlain (lit "/Users/alice/cat.png")
    = Some (lit "file:///Users/alice/cat.png").
Proof. split; by vm_compute. Qed.

Lemma pathToFileUrl_scheme_witness :
  ∃ encodedPath,
    encodeSegments (lit "C:/Users/alice/img/cat.png") = Some encodedPath ∧
    ∃ l rest encRest,
      lit "C:/Users/alice/img/cat.png" = l :: colon :: rest
      ∧ encodedPath = l :: lit "%3A" ++ encRest
      ∧ lit "file:///C:/Users/alice/img/cat.png"
        = lit "file:///" ++ l :: colon :: encRest.
Proof.
  exact (pathToFileUrl_scheme Examples.onWinAlice
           (lit "/Users/alice/Dropbox/img/cat.png")
           (lit "file:///C:/Users/alice/img/cat.png") eq_refl eq_refl).
Defined.

(** C4, as stated, fails.  A path of a registered foreign profile is
    translated while it is encoded, and a backslash in a file name comes
    back as a slash. *)
Lemma decodeLocation_pathToFileUrl_changes_path :
  (∃ url, pathToFileUrl Examples.onWinAlice
            (lit "/Users/alice/Dropbox/img/cat.png") = Some url
          ∧ decodeLocation url = lit "C:/Users/alice/img/cat.png"
          ∧ decodeLocation url ≠ lit "/Users/alice/Dropbox/img/cat.png")
  ∧ (∃ url, pathToFileUrl Examples.macPlain
              (lit "/Users/alice/img/a\b.png") = Some url
            ∧ decodeLocation url = lit "/Users/alice/img/a/b.png"
            ∧ decodeLocation url ≠ lit "/Users/alice/img/a\b.png").
Proof. split; eexists; (split; [by vm_compute|]); split; by vm_compute. Qed.

Lemma decodeLocation_pathToFileUrl_witness :
  ∃ url, pathToFileUrl Examples.macPlain (lit "/Users/alice/img/my cat.png")
           = Some url
         ∧ decodeLocation url = lit "/Users/alice/img/my cat.png".
Proof.
  apply decodeLocation_pathToFileUrl.
  - by vm_compute.
  - apply includes_char_false. by vm_compute.
  - apply includes_char_false. by vm_compute.
  - by vm_compute.
  - by vm_compute.
  - left. by vm_compute.
Defined.

(** ** PathClassifier: user names that contain one another *)


Lemma matchHere_app_l p q s :
  matchHere (p ++ q) s = matchHere p s ≫= matchHere q.
Proof.
  revert s. induction p as [|k p IH]; intros [|d s]; cbn; try done.
  destruct (k d); [apply IH|done].
Qed.











(** ** DocumentScanPass: a second pass *)

Lemma convertImageSrcForRendering_cases this img img1 b1 :
  convertImageSrcForRendering this img = Some (img1, b1) →
  (img1 = img ∧ b1 = false)
  ∨ ∃ src newSrc,
      img1 = <["data-original-src"%string := src]>
               (<["data-xplatform-converted"%string := lit "true"]>
                  (<["src"%string := newSrc]> img)).
Proof.
  unfold convertImageSrcForRendering. intros H.
  repeat match type of H with
         | context [match ?x with _ => _ end] => destruct x eqn:?
         end;
    try (left; split; congruence); try discriminate.
  right. cbn in H.
  match type of H with
  | context [pathToFileUrl ?t ?p] => destruct (pathToFileUrl t p); [|done]
  end.
  cbn in H. apply (inj Some) in H. injection H as <- <-. by eexists _, _.
Qed.

(** The case in which the render pass converts a node. *)
Lemma convertImageSrcForRendering_converts this img src extracted newSrc :
  img !! "src"%string = Some src → src ≠ [] →
  truthyAttribute img "data-xplatform-converted" = false →
  extractPath src = Some extracted → extracted ≠ [] →
  isPathFromDifferentPlatform this (restoreLeadingSlash extracted) = true →
  convertPathForCurrentPlatform this (restoreLeadingSlash extracted)
    ≠ restoreLeadingSlash extracted →
  pathToFileUrl this
    (convertPathForCurrentPlatform this (restoreLeadingSlash extracted))
    = Some newSrc →
  convertImageSrcForRendering this img
  = Some (<["data-original-src"%string := src]>
            (<["data-xplatform-converted"%string := lit "true"]>
               (<["src"%string := newSrc]> img)), true).
Proof.
  intros Hsrc Hne Hmark Hext Hne' Hforeign Hconv Hurl.
  unfold convertImageSrcForRendering.
  rewrite Hsrc, Hmark, Hext, Hforeign, (str_eqb_ne _ _ Hconv), Hurl.
  destruct src; [done|]. by destruct extracted.
Qed.

(** In render mode a second pass over a node changes nothing. *)
Lemma convertImageSrcForRendering_twice this img img1 b1 :
  convertImageSrcForRendering this img = Some (img1, b1) →
  convertImageSrcForRendering this img1 = Some (img1, false).
Proof.
  intros H.
  destruct (convertImageSrcForRendering_cases _ _ _ _ H)
    as [[-> ->]|(src & newSrc & ->)]; [done|].
  unfold convertImageSrcForRendering, truthyAttribute.
  rewrite !lookup_insert_ne, lookup_insert_eq by done.
  rewrite lookup_insert_ne, lookup_insert_eq by done.
  by destruct newSrc.
Qed.

Lemma convertEmbed_not_foreign this st url :
  isPathFromDifferentPlatform this (decodeLocation url) = false →
  convertEmbed this st url = Some st.
Proof. intros H. unfold convertEmbed. by rewrite H. Qed.

(** In content mode a pass over a note without foreign embed converts
    nothing and writes nothing. *)
Lemma convertCrossPlatformPaths_nothing_foreign this content :
  nothingForeign this content →
  convertCrossPlatformPaths this content = Some (mkScan 0 None).
Proof.
  unfold nothingForeign, convertCrossPlatformPaths. intros Hall.
  destruct (negb (enableCrossPlatform (settings this))); [done|].
  assert (∀ st, foldl (λ acc url, acc ≫= λ st, convertEmbed this st url)
                  (Some st) (fileEmbeds content) = Some st) as ->; [|done].
  induction Hall as [|url urls Hurl _ IH]; intros st; [done|].
  cbn [foldl mbind option_bind]. by rewrite convertEmbed_not_foreign.
Qed.

(** C3, at the failing input.  With the two profiles of alice, the Windows
    one live, a content-mode pass over a note with one embed of the Mac
    converts it; a second pass over the text the first one wrote converts
    it once more, and writes a different text again.  An embed that is in
    the convention of the live machine from the start is converted as
    well.  The render pass over a node with the same embed does what the
    claim says: the second pass over the node converts nothing. *)
Lemma convertCrossPlatformPaths_second_pass_converts :
  convertCrossPlatformPaths Examples.onWinAlice Examples.aliceNote
  = Some (mkScan 1 (Some (lit
      "![cat](file:///C:/Users/alice/C%3A/Users/alice/img/cat.png)")))
  ∧ convertCrossPlatformPaths Examples.onWinAlice
      (lit "![cat](file:///C:/Users/alice/C%3A/Users/alice/img/cat.png)")
    = Some (mkScan 1 (Some (lit
        "![cat](file:///C:/Users/alice/C%3A/Users/alice/C%3A/Users/alice/C%3A/Users/alice/img/cat.png)")))
  ∧ convertCrossPlatformPaths Examples.onWinAlice Examples.aliceLiveNote
    = Some (mkScan 1 (Some (lit
        "![cat](file:///C:/Users/alice/C%3A/Users/alice/C%3A/Users/alice/img/cat.png)")))
  ∧ ∃ img1,
      convertImageSrcForRendering Examples.onWinAlice MoreExamples.aliceImage
      = Some (img1, true)
      ∧ convertImageSrcForRendering Examples.onWinAlice img1
        = Some (img1, false).
Proof.
  split; [by vm_compute|]. split; [by vm_compute|]. split; [by vm_compute|].
  eexists. split; [|eapply convertImageSrcForRendering_twice];
    apply (convertImageSrcForRendering_converts _ _
             (lit "file:///Users/alice/Dropbox/img/cat.png")
             (lit "Users/alice/Dropbox/img/cat.png")
             (lit "file:///C:/Users/alice/C%3A/Users/alice/img/cat.png"));
    first [ apply lookup_singleton_eq
          | by (unfold truthyAttribute, MoreExamples.aliceImage;
                rewrite lookup_singleton_ne)
          | by vm_compute ].
Qed.

(** ** ReferenceRewriter: the order of the hits *)

Lemma posBefore_descending a b : posBefore a b = true ↔ descending a b.
Proof.
  unfold posBefore, descending. case_bool_decide; rewrite bool_decide_eq_true; lia.
Qed.

Lemma posBefore_false a b : posBefore a b = false → descending b a.
Proof.
  unfold posBefore, descending.
  case_bool_decide; rewrite bool_decide_eq_false; lia.
Qed.

Lemma descending_trans a b c : descending a b → descending b c → descending a c.
Proof. unfold descending. lia. Qed.

Lemma insertPos_perm a l : insertPos a l ≡ₚ a :: l.
Proof.
  induction l as [|b l IH]; cbn; [done|].
  destruct (posBefore a b); [done|]. by rewrite IH, Permutation_swap.
Qed.

Lemma sortPositions_perm l : sortPositions l ≡ₚ l.
Proof.
  induction l as [|a l IH]; cbn; [done|]. by rewrite insertPos_perm, IH.
Qed.

Lemma insertPos_sorted a l :
  StronglySorted descending l → StronglySorted descending (insertPos a l).
Proof.
  induction 1 as [|b l Hl IH Hb]; cbn.
  - by repeat constructor.
  - destruct (posBefore a b) eqn:Hab.
    + apply posBefore_descending in Hab. constructor.
      * by constructor.
      * constructor; [done|].
        eapply Forall_impl; [exact Hb|]. intros c. by apply descending_trans.
    + apply posBefore_false in Hab. constructor; [done|].
      rewrite insertPos_perm. by constructor.
Qed.

Lemma sortPositions_sorted l : StronglySorted descending (sortPositions l).
Proof.
  induction l as [|a l IH]; cbn; [constructor|]. by apply insertPos_sorted.
Qed.

(** ** ReferenceRewriter: what a replacement leaves in place *)

Lemma split_cons_case sep c s :
  split sep (c :: s) =
    if c =? sep then [] :: split sep s
    else match split sep s with
         | seg :: segs => (c :: seg) :: segs
         | [] => [[c]]
         end.
Proof. done. Qed.

Lemma split_sep_free sep s : Forall (λ seg, sep ∉ seg) (split sep s).
Proof.
  induction s as [|c s IH]; [repeat constructor; by intros ?%elem_of_nil|].
  rewrite split_cons_case. destruct (N.eqb_spec c sep) as [->|Hc].
  - constructor; [by intros ?%elem_of_nil|done].
  - destruct (split sep s) as [|seg segs].
    + repeat constructor. intros [?|?%elem_of_nil]%elem_of_cons; done.
    + apply Forall_cons in IH as [Hseg Hsegs]. constructor; [|done].
      intros [?|?]%elem_of_cons; done.
Qed.

(** A separator-free text in front of a string stays at the head of its
    first segment. *)
Lemma split_app_head sep a b :
  sep ∉ a → ∃ h t, split sep (a ++ b) = (a ++ h) :: t.
Proof.
  induction a as [|c a IH]; intros Ha.
  - cbn [app]. destruct (split_cons sep b) as (h & t & ->). by exists h, t.
  - destruct IH as (h & t & IH); [intros ?; apply Ha; by right|].
    cbn [app]. rewrite split_cons_case, IH.
    destruct (N.eqb_spec c sep) as [->|]; [exfalso; apply Ha; left|].
    by exists h, t.
Qed.

Lemma split_app_sep sep a b :
  sep ∉ a → split sep (a ++ sep :: b) = a :: split sep b.
Proof.
  induction a as [|c a IH]; intros Ha.
  - cbn [app]. by rewrite split_cons_case, N.eqb_refl.
  - cbn [app]. rewrite split_cons_case, IH by (intros ?; apply Ha; by right).
    destruct (N.eqb_spec c sep) as [->|]; [exfalso; apply Ha; left|done].
Qed.

Lemma join_cons_cons (sep : jsstring) a b l :
  join sep (a :: b :: l) = a ++ sep ++ join sep (b :: l).
Proof. done. Qed.

Lemma split_join_prefix sep before x after :
  Forall (λ seg, sep ∉ seg) before →
  split sep (join [sep] (before ++ x :: after))
  = before ++ split sep (join [sep] (x :: after)).
Proof.
  induction 1 as [|b before Hb _ IH]; [done|].
  cbn [app]. destruct before as [|b' before].
  - cbn [app] in *. rewrite join_cons_cons. cbn [app].
    by rewrite split_app_sep.
  - cbn [app] in *. rewrite join_cons_cons. cbn [app].
    by rewrite split_app_sep, IH.
Qed.

Lemma indexOfFrom_ge p s from i :
  indexOfFrom p s from = Some i → (from `min` length s ≤ i)%nat.
Proof.
  revert s i. induction from as [|k IH]; intros s i; [cbn; lia|].
  destruct s as [|c s]; [cbn; lia|]. cbn [indexOfFrom length].
  destruct (indexOfFrom p s k) as [i'|] eqn:E; [|done].
  intros [= <-]. specialize (IH _ _ E). lia.
Qed.

(** One replacement leaves every earlier line as it is, and on the line of
    the hit every character in front of the hit's column. *)
Lemma replaceHit_before md content pos :
  (∀ l, (l < line pos)%nat →
        split newline (replaceHit md content pos) !! l
        = split newline content !! l)
  ∧ (∀ old, split newline content !! line pos = Some old →
       ∃ new, split newline (replaceHit md content pos) !! line pos = Some new
              ∧ ∀ k, (k < ch pos)%nat → (k < length old)%nat →
                     new !! k = old !! k).
Proof.
  unfold replaceHit.
  destruct (split newline content !! line pos) as [old|] eqn:Hold;
    [|split; [done|by intros ? [=]]].
  destruct old as [|c old]; [split; [done|]; intros ? [= <-]; by eexists|].
  destruct (indexOfFrom (text pos) (c :: old) (ch pos)) as [index|] eqn:Hidx;
    [|split; [done|]; intros ? [= <-]; by eexists].
  set (line0 := c :: old) in *.
  set (new0 := take index line0 ++ md
               ++ drop (index + length (text pos)) line0).
  pose proof (split_sep_free newline content) as Hfree.
  pose proof (take_drop_middle _ _ _ Hold) as Hmid.
  assert (length (take (line pos) (split newline content)) = line pos) as Hlen.
  { apply length_take_le. apply lookup_lt_Some in Hold. lia. }
  rewrite insert_take_drop by (by apply lookup_lt_Some in Hold).
  rewrite split_join_prefix
    by (rewrite <- Hmid in Hfree; by apply Forall_app in Hfree as [? _]).
  assert (newline ∉ take index line0) as Htake.
  { rewrite <- Hmid in Hfree.
    apply Forall_app in Hfree as [_ [H0 _]%Forall_cons].
    intros Hin. apply H0. by apply (subseteq_take index line0). }
  assert (∃ h t, split newline
             (join [newline]
                (new0 :: drop (S (line pos)) (split newline content)))
           = (take index line0 ++ h) :: t) as (h & t & Hsplit).
  { destruct (drop (S (line pos)) (split newline content)) as [|a after].
    - cbn [join]. subst new0. by apply split_app_head.
    - rewrite join_cons_cons. subst new0. rewrite <- app_assoc.
      by apply split_app_head. }
  rewrite Hsplit. split.
  - intros l Hl. rewrite lookup_app_l by lia.
    rewrite <- Hmid at 2. by rewrite lookup_app_l by lia.
  - intros ? [= <-]. exists (take index line0 ++ h). split.
    + rewrite lookup_app_r by lia. by rewrite Hlen, Nat.sub_diag.
    + intros k Hk Hk'. apply indexOfFrom_ge in Hidx.
      assert (k < index)%nat by lia.
      rewrite lookup_app_l by (rewrite length_take; lia).
      by rewrite lookup_take_lt.
Qed.

(** ** ReferenceRewriter: one write per note *)

Lemma replaceAllReferences_writes_aux refs basename newUrl v0 v :
  NoDup (notePath <$> refs) →
  (∀ ref, ref ∈ refs → files v !! notePath ref = files v0 !! notePath ref) →
  modified (replaceAllReferences refs basename newUrl v)
  = modified v ++ omap (noteWrite (embedMarkdown basename newUrl) v0) refs.
Proof.
  unfold replaceAllReferences.
  revert v. induction refs as [|ref refs IH]; intros v Hnd Hsame.
  - cbn. by rewrite app_nil_r.
  - rewrite fmap_cons in Hnd. apply NoDup_cons in Hnd as [Hnotin Hnd].
    cbn [foldl omap list_omap].
    assert (noteWrite (embedMarkdown basename newUrl) v0 ref
            = (λ content, (notePath ref,
                 rewriteNote (embedMarkdown basename newUrl) content
                   (positions ref))) <$> files v !! notePath ref) as ->.
    { unfold noteWrite. by rewrite <- (Hsame ref) by left. }
    destruct (files v !! notePath ref) as [content|] eqn:Hfile;
      cbn [fmap option_fmap option_map].
    + rewrite IH; [|done|].
      * cbn [vault_modify modified]. by rewrite <- app_assoc.
      * intros ref' Hin. cbn [vault_modify files].
        rewrite lookup_insert_ne; [apply Hsame; by right|].
        intros Heq. apply Hnotin. rewrite Heq. by apply list_elem_of_fmap_2.
    + apply IH; [done|]. intros ref' Hin. apply Hsame. by right.
Qed.

(** Every note of the indexer that exists is given to [vault.modify] once,
    in the order of the indexer, with all its hits rewritten. *)
Lemma replaceAllReferences_writes refs basename newUrl v :
  NoDup (notePath <$> refs) →
  modified (replaceAllReferences refs basename newUrl v)
  = modified v ++ omap (noteWrite (embedMarkdown basename newUrl) v) refs.
Proof. intros. by apply replaceAllReferences_writes_aux. Qed.

(** While the hits in front of [pos'] in the order of processing are
    replaced one after the other, the characters in front of the column of
    [pos'] on its line stay as they are. *)
Lemma foldl_replaceHit_before md before pos' :
  Forall (λ pos, descending pos pos') before →
  ∀ content old,
    split newline content !! line pos' = Some old →
    ∃ new, split newline (foldl (replaceHit md) content before) !! line pos'
           = Some new
           ∧ ∀ k, (k < ch pos')%nat → (k < length old)%nat →
                  new !! k = old !! k.
Proof.
  induction 1 as [|pos before Hdesc _ IH]; intros content old Hold.
  - by exists old.
  - cbn [foldl].
    assert (∃ new, split newline (replaceHit md content pos) !! line pos'
                   = Some new
                   ∧ ∀ k, (k < ch pos')%nat → (k < length old)%nat →
                          new !! k = old !! k) as (new1 & Hnew1 & Hsame1).
    { destruct (replaceHit_before md content pos) as [Hlines Hline].
      destruct Hdesc as [Hlt|[Heq Hch]].
      - exists old. split; [|done]. by rewrite Hlines.
      - rewrite <- Heq in Hold |- *.
        destruct (Hline old Hold) as (new & Hnew & Hsame).
        exists new. split; [done|]. intros k Hk Hk'. apply Hsame; lia. }
    destruct (IH _ _ Hnew1) as (new & Hnew & Hsame).
    exists new. split; [done|]. intros k Hk Hk'.
    rewrite <- Hsame1 by done. apply Hsame; [done|].
    apply lookup_lt_is_Some. rewrite Hsame1 by done.
    by apply lookup_lt_is_Some.
Qed.

(** C7.  The hits of a note are processed from the last position to the
    first: the rewriter goes through the hits in the order [sortPositions]
    puts them in, which is a rearrangement of the hits that descends by
    line and, on a line, by column.  Replacing a hit leaves, on the line of
    any hit that comes after it in that order, every character in front of
    the column of the hit just replaced as it was, so also every character
    in front of the column of that later hit (earlier lines are untouched
    altogether): the recorded position of a hit still to be processed is
    not shifted, and when the turn of a hit comes, the characters in front
    of its column are still those the note had at the start.  Each note is written once, with the text that processing
    all its hits in that order gives. *)
Theorem rewrite_last_to_first refs basename newUrl v :
  NoDup (notePath <$> refs) →
  (∀ hits, StronglySorted descending (sortPositions hits)
           ∧ sortPositions hits ≡ₚ hits)
  ∧ (∀ md content hits,
       rewriteNote md content hits
       = foldl (replaceHit md) content (sortPositions hits))
  ∧ (∀ md content pos pos' old,
       descending pos pos' →
       split newline content !! line pos' = Some old →
       ∃ new, split newline (replaceHit md content pos) !! line pos' = Some new
              ∧ ∀ k, (k < length old)%nat →
                     (line pos' < line pos ∨ k < ch pos' ∨ k < ch pos)%nat →
                     new !! k = old !! k)
  ∧ (∀ md content hits before pos' after old,
       sortPositions hits = before ++ pos' :: after →
       split newline content !! line pos' = Some old →
       ∃ new, split newline (foldl (replaceHit md) content before) !! line pos'
              = Some new
              ∧ ∀ k, (k < ch pos')%nat → (k < length old)%nat →
                     new !! k = old !! k)
  ∧ modified (replaceAllReferences refs basename newUrl v)
    = modified v
      ++ omap (λ ref,
           (λ content,
              (notePath ref,
               foldl (replaceHit (embedMarkdown basename newUrl)) content
                     (sortPositions (positions ref))))
           <$> files v !! notePath ref) refs.
Proof.
  intros Hnd. split; [|split; [|split; [|split]]].
  - intros hits. split; [apply sortPositions_sorted|apply sortPositions_perm].
  - done.
  - intros md content pos pos' old Hdesc Hold.
    destruct (replaceHit_before md content pos) as [Hlines Hline].
    destruct Hdesc as [Hlt|[Heq Hch]].
    + exists old. split; [|done]. by rewrite Hlines.
    + rewrite <- Heq in Hold |- *.
      destruct (Hline old Hold) as (new & Hnew & Hsame).
      exists new. split; [done|]. intros k Hk Hk'. apply Hsame; lia.
  - intros md content hits before pos' after old Hsorted Hold.
    apply foldl_replaceHit_before; [|done].
    pose proof (sortPositions_sorted hits) as Hss. rewrite Hsorted in Hss.
    apply Forall_forall. intros pos Hpos.
    apply (StronglySorted_app_1_elem_of _ _ _ _ _ Hss Hpos). left.
  - by apply replaceAllReferences_writes.
Qed.

(** Two hits on one line, listed first to last, with a replacement shorter
    than their text: the later hit is processed first and both are
    rewritten; processed in the listed order, the first replacement would
    move the second hit in front of its recorded column, where it is not
    found any more. *)
Lemma rewrite_last_to_first_witness :
  sortPositions [MoreExamples.holidayHit 0; MoreExamples.holidayHit 30]
  = [MoreExamples.holidayHit 30; MoreExamples.holidayHit 0]
  ∧ modified (replaceAllReferences MoreExamples.albumRefs (lit "cat")
                (lit "eagle://item/M1") MoreExamples.albumVault)
    = [(Examples.otherNote,
        lit "![cat](eagle://item/M1) and ![cat](eagle://item/M1) twice")]
  ∧ foldl (replaceHit (embedMarkdown (lit "cat") (lit "eagle://item/M1")))
      (lit "![[holiday/2024/cat.png]] and ![[holiday/2024/cat.png]] twice")
      [MoreExamples.holidayHit 0; MoreExamples.holidayHit 30]
    = lit "![cat](eagle://item/M1) and ![[holiday/2024/cat.png]] twice".
Proof.
  split; [by vm_compute|]. split; [|by vm_compute].
  destruct (rewrite_last_to_first MoreExamples.albumRefs (lit "cat")
              (lit "eagle://item/M1") MoreExamples.albumVault)
    as (_ & _ & _ & _ & ->).
  - apply (bool_decide_unpack _). by vm_compute.
  - by vm_compute.
Defined.

(** ** ReferenceRewriter: confirmation and the excluded hit *)

(** The hits that go on to the rewriter are those of the indexer, less the
    hits of the active note at the excluded position. *)
Lemma filterReferences_spec references activeFile excludePosition p pos :
  (∃ ref, ref ∈ filterReferences references activeFile excludePosition
          ∧ notePath ref = p ∧ pos ∈ positions ref)
  ↔ (∃ ref, ref ∈ references ∧ notePath ref = p ∧ pos ∈ positions ref
            ∧ ¬ (activeFile = Some p ∧ line pos = excludePosition.1
                 ∧ ch pos = excludePosition.2)).
Proof.
  unfold filterReferences. split.
  - intros (ref' & Hin & <- & Hpos).
    apply list_elem_of_omap in Hin as (ref & Hin & Hsome).
    case_bool_decide; [|done]. injection Hsome as <-. cbn in *.
    apply list_elem_of_filter in Hpos as [Hkeep Hpos].
    exists ref. repeat split; [done..|]. intros (Hact & Hl & Hc).
    by apply Hkeep.
  - intros (ref & Hin & <- & Hpos & Hkeep).
    set (P := λ pos0 : Position, activeFile = Some (notePath ref) →
                ¬ (line pos0 = excludePosition.1 ∧ ch pos0 = excludePosition.2)).
    assert (pos ∈ filter P (positions ref)) as Hin'.
    { apply list_elem_of_filter. split; [|done]. intros Hact [Hl Hc].
      by apply Hkeep. }
    exists (mkRefs (notePath ref) (filter P (positions ref))).
    split; [|done]. apply list_elem_of_omap. exists ref. split; [done|].
    fold P. rewrite bool_decide_eq_true_2; [done|].
    destruct (filter P (positions ref)); [by apply elem_of_nil in Hin'|].
    cbn. lia.
Qed.

Lemma filterReferences_cons ref references activeFile excludePosition :
  filterReferences (ref :: references) activeFile excludePosition =
    match remainingHits activeFile excludePosition ref with
    | [] => filterReferences references activeFile excludePosition
    | hit :: hits =>
        mkRefs (notePath ref) (hit :: hits)
        :: filterReferences references activeFile excludePosition
    end.
Proof.
  unfold filterReferences at 1. cbn [omap list_omap]. cbn zeta.
  fold (filterReferences references activeFile excludePosition).
  assert (filter (λ pos, activeFile = Some (notePath ref) →
                         ¬ (line pos = excludePosition.1
                            ∧ ch pos = excludePosition.2)) (positions ref)
          = remainingHits activeFile excludePosition ref) as ->.
  { unfold remainingHits. apply list_filter_iff. intros pos. tauto. }
  destruct (remainingHits activeFile excludePosition ref); [done|].
  rewrite bool_decide_eq_true_2 by (cbn; lia). done.
Qed.

(** The rewriter on the filtered hits does, note by note, what
    [rewriteRemaining] says. *)
Lemma replaceAllReferences_filterReferences references activeFile
    excludePosition basename newUrl v :
  replaceAllReferences
    (filterReferences references activeFile excludePosition) basename newUrl v
  = foldl (rewriteRemaining activeFile excludePosition
             (embedMarkdown basename newUrl)) v references.
Proof.
  revert v. induction references as [|ref references IH]; intros v; [done|].
  rewrite filterReferences_cons. cbn [foldl]. unfold rewriteRemaining at 2.
  destruct (remainingHits activeFile excludePosition ref) as [|hit hits];
    [apply IH|].
  unfold replaceAllReferences in *. cbn [foldl notePath positions].
  rewrite IH. done.
Qed.

Lemma filterReferences_nil references activeFile excludePosition :
  filterReferences references activeFile excludePosition = [] ↔
  Forall (λ h, h = [])
    (remainingHits activeFile excludePosition <$> references).
Proof.
  induction references as [|ref references IH].
  - split; [constructor|done].
  - rewrite filterReferences_cons, fmap_cons, Forall_cons.
    destruct (remainingHits activeFile excludePosition ref); [tauto|].
    split; [done|]. by intros [? _].
Qed.

Lemma filterReferences_counts references activeFile excludePosition n :
  foldl (λ sum ref, (sum + length (positions ref))%nat) n
    (filterReferences references activeFile excludePosition)
  = (n + sum_list (length <$> (remainingHits activeFile excludePosition
                                 <$> references)))%nat
  ∧ length (filterReferences references activeFile excludePosition)
    = length (filter (λ h, h ≠ [])
                (remainingHits activeFile excludePosition <$> references)).
Proof.
  revert n. induction references as [|ref references IH]; intros n.
  - cbn. split; [lia|done].
  - rewrite filterReferences_cons, !fmap_cons.
    destruct (remainingHits activeFile excludePosition ref) as [|hit hits].
    + rewrite filter_cons_False by (by intros ?).
      destruct (IH n) as [-> ->]. cbn. split; [lia|done].
    + rewrite filter_cons_True by done. cbn [foldl positions length].
      destruct (IH (n + S (length hits))%nat) as [-> ->]. cbn. split; [lia|done].
Qed.

(** C6.  When the confirmation times out, which is the only way it is
    declined, nothing is written and the store is as before.  A confirmed
    run goes through the notes of the indexer in their order and, for each
    note, rewrites all its hits except, in the active note, the hit at the
    excluded position: a note of which no hit remains is not written, any
    other is written once with exactly the remaining hits rewritten; the
    notice counts the remaining hits and the notes that hold one.  In the
    example, three hits in two notes with the hit of the active note
    excluded, a confirmed run rewrites the two other hits, writes the one
    other note, and reports 2 references in 1 file.  And when the active
    note holds another hit and the store still has the text of the
    excluded one, that text is left as it is while the other hit is
    rewritten. *)
Theorem offer_to_replace_other_references :
  (∀ references activeFile basename newUrl excludePosition v,
     offerToReplaceOtherReferences references activeFile basename newUrl
       excludePosition TimedOut v = (v, None))
  ∧ (∀ references activeFile basename newUrl excludePosition v,
       offerToReplaceOtherReferences references activeFile basename newUrl
         excludePosition Clicked v
       = (foldl (rewriteRemaining activeFile excludePosition
                   (embedMarkdown basename newUrl)) v references,
          remainingCounts activeFile excludePosition references))
  ∧ (let result :=
       offerToReplaceOtherReferences Examples.catRefs
         (Some Examples.activeNote) (lit "cat") (lit "eagle://item/M1")
         (1, 0)%nat Clicked Examples.catVault in
     modified result.1
       = [(Examples.otherNote,
           lit "![cat](eagle://item/M1) and ![cat](eagle://item/M1) twice")]
     ∧ files result.1 !! Examples.activeNote
       = files Examples.catVault !! Examples.activeNote
     ∧ result.2 = Some (2, 1)%nat)
  ∧ (let result :=
       offerToReplaceOtherReferences MoreExamples.diaryRefs
         (Some Examples.activeNote) (lit "cat") (lit "eagle://item/M1")
         (0, 0)%nat Clicked MoreExamples.diaryVault in
     modified result.1
       = [(Examples.activeNote,
           lit "![[cat.png]] kept" ++ [newline]
           ++ lit "![cat](eagle://item/M1) rewritten")]
     ∧ result.2 = Some (1, 1)%nat).
Proof.
  split; [|split; [|split]].
  - intros. unfold offerToReplaceOtherReferences. cbn.
    by case_bool_decide.
  - intros references activeFile basename newUrl excludePosition v.
    unfold offerToReplaceOtherReferences, remainingCounts. cbn zeta.
    cbn [confirmReplaceReferences negb].
    rewrite <- replaceAllReferences_filterReferences.
    destruct (filterReferences_counts references activeFile excludePosition 0)
      as [-> ->].
    case_bool_decide as Hnil.
    + rewrite bool_decide_eq_true_2 by (by apply filterReferences_nil).
      by rewrite Hnil.
    + rewrite bool_decide_eq_false_2; [done|].
      by rewrite <- filterReferences_nil.
  - repeat split; by vm_compute.
  - repeat split; by vm_compute.
Qed.

(** * Further properties of the code *)

(** ** LocationCodec: more on decoding *)

Lemma passes_no_percent n s : percent ∉ s → passes n s = Some s.
Proof.
  intros Hs. induction n as [|n IH]; [done|].
  cbn [passes]. rewrite decode_no_percent by done. exact IH.
Qed.

Lemma passes_add n m s : passes (n + m) s = passes n s ≫= passes m.
Proof.
  revert s. induction n as [|n IH]; intros s; [done|].
  cbn [Nat.add passes]. destruct (decodeURIComponent s) as [d|]; [|done].
  apply IH.
Qed.

Lemma decodeLoop_passes n fuel str e s :
  (length e < fuel)%nat → passes n e = Some s → percent ∉ s →
  decodeLoop fuel str e = Returned s.
Proof.
  revert fuel e. induction n as [|n IH]; intros [|fuel] e Hf Hp Hs; try lia.
  - injection Hp as ->. cbn [decodeLoop].
    apply includes_char_false in Hs. by rewrite Hs.
  - cbn [passes] in Hp. cbn [decodeLoop].
    destruct (includes [percent] e) eqn:Hinc.
    + apply includes_char in Hinc.
      destruct (decodeURIComponent e) as [d|] eqn:Hdec; [|done].
      destruct (decode_length _ _ Hdec) as [_ Hlt]. specialize (Hlt Hinc).
      destruct (str_eqb d e) eqn:Heq.
      { apply str_eqb_eq in Heq. subst. lia. }
      apply (IH fuel d); [lia|done|done].
    + apply includes_char_false in Hinc.
      rewrite decode_no_percent in Hp by done. cbn in Hp.
      rewrite passes_no_percent in Hp by done. by injection Hp as ->.
Qed.

(** X1.  [fullyDecodeUri] is idempotent: decoding its result again changes
    nothing, whether the first run ended on a percent-free string or gave
    the input back after a failed pass. *)
Theorem fullyDecodeUri_idempotent s :
  fullyDecodeUri (fullyDecodeUri s) = fullyDecodeUri s.
Proof.
  pose proof (fullyDecodeUri_loop s 0) as Hloop.
  rewrite Nat.add_0_r in Hloop.
  destruct (decodeLoop_spec (S (length s)) s s)
    as [(n & d & Hp & Hd & Hr)|(n & d & Hp & Hd & Hr)]; [lia| |];
    rewrite Hloop in Hr; injection Hr as Hr.
  - rewrite Hr. by apply fullyDecodeUri_no_percent.
  - by rewrite !Hr.
Qed.

Lemma passes_length n s d :
  passes n s = Some d → (length d ≤ length s)%nat.
Proof.
  revert s. induction n as [|n IH]; intros s; cbn [passes].
  - by intros [= ->].
  - destruct (decodeURIComponent s) as [t|] eqn:Hdec; [|done]. cbn.
    intros Hp%IH. apply decode_length in Hdec as [Hle _]. lia.
Qed.

(** X2.  [fullyDecodeUri] never returns a string longer than its input,
    and a result that differs from the input is strictly shorter. *)
Theorem fullyDecodeUri_length s :
  (length (fullyDecodeUri s) ≤ length s)%nat
  ∧ (fullyDecodeUri s ≠ s → (length (fullyDecodeUri s) < length s)%nat).
Proof.
  pose proof (fullyDecodeUri_loop s 0) as Hloop.
  rewrite Nat.add_0_r in Hloop.
  destruct (decodeLoop_spec (S (length s)) s s)
    as [(n & d & Hp & Hd & Hr)|(n & d & Hp & Hd & Hr)]; [lia| |];
    rewrite Hloop in Hr; injection Hr as Hr; rewrite Hr; [|split; [lia|done]].
  split; [by eapply passes_length|]. intros Hne.
  destruct n as [|n]; [by injection Hp as ->|].
  cbn [passes] in Hp.
  destruct (decodeURIComponent s) as [t|] eqn:Hdec; [|done]. cbn in Hp.
  apply passes_length in Hp.
  destruct (decide (percent ∈ s)) as [Hin|Hnot].
  - apply decode_length in Hdec as [_ Hlt]. specialize (Hlt Hin). lia.
  - exfalso. apply Hne. rewrite <- Hr. by apply fullyDecodeUri_no_percent.
Qed.

Lemma hexDigit_unescaped d : d < 16 → unescaped (hexDigit d) = true.
Proof.
  intros Hd. unfold unescaped, isAsciiLetter, hexDigit.
  rewrite !orb_true_iff, !andb_true_iff, !N.leb_le.
  destruct (N.ltb_spec d 10); lia.
Qed.

Lemma utf8_octets cp : cp < 0x110000 → Forall (λ b, b < 256) (utf8 cp).
Proof.
  intros Hcp. unfold utf8.
  repeat case_match; repeat constructor; ncases; lia.
Qed.

Lemma escapeCodePoint_chars cp :
  cp < 0x110000 → Forall (λ c, urlChar c = true) (escapeCodePoint cp).
Proof.
  intros Hcp%utf8_octets. unfold escapeCodePoint.
  induction Hcp as [|b bs Hb _ IH]; [constructor|].
  cbn [fmap list_fmap mjoin list_join]. apply Forall_app. split; [|exact IH].
  unfold escapeOctet, urlChar, unescapedInPath.
  repeat constructor; rewrite ?hexDigit_unescaped by lia; done.
Qed.

Lemma Encode_chars_aux n s e :
  (length s ≤ n)%nat → Forall (λ c, c < 0x10000) s →
  Encode unescapedInPath s = Some e ∨ Encode unescaped s = Some e →
  Forall (λ c, urlChar c = true) e.
Proof.
  revert s e. induction n as [|n IH]; intros [|c r] e Hn Hs; cbn in Hn; try lia.
  - intros [[= <-]|[= <-]]; constructor.
  - intros [[= <-]|[= <-]]; constructor.
  - apply Forall_cons in Hs as [Hc Hr].
    assert (∀ u, (u = unescapedInPath ∨ u = unescaped) →
              Encode u (c :: r) = Some e → Forall (λ c, urlChar c = true) e)
      as Hboth; [|intros [?|?]; eauto].
    intros u Hu. cbn [Encode].
    assert (∀ x, u x = true → urlChar x = true) as Hux.
    { intros x Hx. unfold urlChar, unescapedInPath in *.
      destruct Hu as [-> | ->]; by rewrite ?Hx, ?orb_true_r. }
    assert (∀ r' e', (length r' ≤ n)%nat → Forall (λ c, c < 65536) r' →
              Encode u r' = Some e' → Forall (λ c, urlChar c = true) e') as IHu.
    { intros r' e' ? ? ?. apply (IH r' e'); [done..|].
      destruct Hu as [-> | ->]; [by left|by right]. }
    destruct (u c) eqn:Huc.
    + destruct (Encode u r) as [e'|] eqn:He; [|done]. intros [= <-].
      constructor; [by apply Hux|]. by apply (IHu r); [lia|..].
    + destruct (isLead c) eqn:Hlead.
      * destruct r as [|d r']; [done|]. cbn in Hn.
        apply Forall_cons in Hr as [Hd Hr'].
        destruct (isTrail d) eqn:Htrail; [|done].
        destruct (Encode u r') as [e'|] eqn:He; [|done]. intros [= <-].
        apply Forall_app. split; [|by apply (IHu r'); [lia|..]].
        apply escapeCodePoint_chars.
        unfold isLead, isTrail in *. ncases; cbn in *; lia.
      * destruct (isTrail c); [done|].
        destruct (Encode u r) as [e'|] eqn:He; [|done]. intros [= <-].
        apply Forall_app. split; [|by apply (IHu r); [lia|..]].
        apply escapeCodePoint_chars. lia.
Qed.

Lemma Encode_chars s e :
  Forall (λ c, c < 0x10000) s →
  Encode unescapedInPath s = Some e ∨ Encode unescaped s = Some e →
  Forall (λ c, urlChar c = true) e.
Proof. by apply (Encode_chars_aux (length s)). Qed.

Lemma urlChar_ascii c : urlChar c = true → c < 128 ∧ c ≠ 36 ∧ c ≠ 32 ∧ c ≠ backslash.
Proof.
  unfold urlChar, unescapedInPath, unescaped, isAsciiLetter, percent, colon,
    slash, backslash.
  rewrite !orb_true_iff, !andb_true_iff, !N.leb_le, !N.eqb_eq. lia.
Qed.

Lemma ascii_wellFormed s :
  Forall (λ c, c < 128) s → wellFormedUTF16 s = true.
Proof.
  induction 1 as [|c s Hc _ IH]; [done|]. cbn [wellFormedUTF16].
  unfold isLead, isTrail. ndecide. cbn. by rewrite IH.
Qed.

Lemma wellFormed_units s :
  wellFormedUTF16 s = true → Forall (λ c, c < 0x10000) s.
Proof.
  remember (length s) as n eqn:Hn. revert s Hn.
  induction (lt_wf n) as [n _ IH]. intros [|c r] Hn; [constructor|].
  cbn [wellFormedUTF16]. cbn in Hn. destruct (isLead c) eqn:Hlead.
  - destruct r as [|d r']; [done|]. intros [Hd Hr]%andb_prop.
    cbn in Hn. unfold isLead, isTrail in *.
    constructor; [ncases; cbn in *; lia|].
    constructor; [ncases; cbn in *; lia|].
    apply (IH (length r')); [lia|done|done].
  - intros [[_ Hc%N.ltb_lt]%andb_prop Hr]%andb_prop.
    constructor; [done|]. apply (IH (length r)); [lia|done|done].
Qed.

Lemma encodeTimes_passes n s e :
  wellFormedUTF16 s = true → encodeTimes n s = Some e → passes n e = Some s.
Proof.
  revert s. induction n as [|n IH]; intros s Hwf; cbn [encodeTimes].
  - by intros [= ->].
  - destruct (Encode_decode _ unescaped_ascii _ Hwf) as (e1 & He1 & Hd1).
    unfold encodeURIComponent at 1. rewrite He1. cbn [mbind option_bind].
    intros He. replace (S n) with (n + 1)%nat by lia. rewrite passes_add.
    rewrite (IH e1); [| |done].
    + cbn. by rewrite Hd1.
    + apply ascii_wellFormed.
      eapply Forall_impl; [apply (Encode_chars s e1)|].
      * by apply wellFormed_units.
      * by right.
      * intros c Hc. by apply urlChar_ascii in Hc as [? _].
Qed.

(** X3.  [fullyDecodeUri] unwinds repeated encoding: a well-formed string
    without percent sign that went through any number of layers of
    [encodeURIComponent] is decoded back to itself. *)
Theorem fullyDecodeUri_unwinds_encoding n s e :
  wellFormedUTF16 s = true → percent ∉ s →
  encodeTimes n s = Some e →
  fullyDecodeUri e = s.
Proof.
  intros Hwf Hs He. apply encodeTimes_passes in He; [|done].
  pose proof (fullyDecodeUri_loop e 0) as Hloop.
  rewrite Nat.add_0_r in Hloop.
  rewrite (decodeLoop_passes n _ _ _ s) in Hloop; [|lia|done|done].
  by injection Hloop.
Qed.

Lemma fullyDecodeUri_unwinds_encoding_witness :
  fullyDecodeUri (lit "%25E2%2582%25AC%25201") = [0x20AC; 32; 49].
Proof.
  apply (fullyDecodeUri_unwinds_encoding 2).
  - by vm_compute.
  - apply includes_char_false. by vm_compute.
  - by vm_compute.
Defined.

(** X4.  [safeDecodeUri] undoes [encodeURIComponent]: every well-formed
    string can be encoded, and the encoded string is decoded to the
    original, percent signs included. *)
Theorem safeDecodeUri_encodeURIComponent s :
  wellFormedUTF16 s = true →
  ∃ e, encodeURIComponent s = Some e ∧ safeDecodeUri e = s.
Proof.
  intros Hwf.
  destruct (Encode_decode _ unescaped_ascii _ Hwf) as (e & He & Hd).
  exists e. split; [done|]. unfold safeDecodeUri. by rewrite Hd.
Qed.

Lemma safeDecodeUri_encodeURIComponent_witness :
  ∃ e, encodeURIComponent (lit "50% off/cat.png") = Some e
       ∧ safeDecodeUri e = lit "50% off/cat.png".
Proof. apply safeDecodeUri_encodeURIComponent. by vm_compute. Defined.

Lemma pathToFileUrl_chars this path url :
  Forall (λ c, c < 0x10000)
         (convertPathForCurrentPlatform this (fullyDecodeUri path)) →
  pathToFileUrl this path = Some url →
  Forall (λ c, urlChar c = true) url.
Proof.
  intros Hunits Hurl.
  unfold pathToFileUrl in Hurl. cbv zeta in Hurl.
  destruct (encodeSegments _) as [encodedPath|] eqn:Henc; [|done].
  cbn in Hurl. rewrite encodeSegments_Encode in Henc.
  assert (Forall (λ c, urlChar c = true) encodedPath) as Henc'.
  { eapply Encode_chars; [|left; exact Henc].
    unfold normalizeSlashes. apply Forall_fmap.
    eapply Forall_impl; [exact Hunits|]. intros c Hc. unfold compose.
    unfold backslash, slash. destruct (c =? 92); cbv beta; [done|exact Hc]. }
  assert (Forall (λ c, urlChar c = true) (lit "file:///")) as Hscheme
    by (by vm_compute; repeat constructor).
  destruct (_ && _).
  - apply (inj Some) in Hurl. subst url. apply Forall_app. split; [done|].
    unfold restoreDriveColon. destruct encodedPath as [|l rest]; [done|].
    destruct (isAsciiLetter l); [|done].
    destruct (stripPrefix (lit "%3A") rest) as [rest'|] eqn:Hpre; [|done].
    apply stripPrefix_Some in Hpre. subst rest.
    apply Forall_cons in Henc' as [Hl Hrest].
    apply Forall_app in Hrest as [_ Hrest'].
    by repeat constructor.
  - apply (inj Some) in Hurl. subst url. apply Forall_app. split; [|done].
    by vm_compute; repeat constructor.
Qed.

(** X5.  The identifier [pathToFileUrl] builds is plain ASCII made of
    unreserved characters, slashes, percent signs and colons only: it holds
    no dollar sign (so [String.replace] never expands a replacement pattern
    in it), no blank and no backslash. *)
Theorem pathToFileUrl_alphabet this path url :
  Forall (λ c, c < 0x10000)
         (convertPathForCurrentPlatform this (fullyDecodeUri path)) →
  pathToFileUrl this path = Some url →
  Forall (λ c, urlChar c = true) url
  ∧ (36 ∉ url) ∧ (32 ∉ url) ∧ (backslash ∉ url).
Proof.
  intros Hunits Hurl.
  pose proof (pathToFileUrl_chars _ _ _ Hunits Hurl) as Hall.
  split; [done|].
  repeat split; intros Hin;
    (eapply Forall_forall in Hall; [|exact Hin]);
    apply urlChar_ascii in Hall; unfold backslash in *; lia.
Qed.

Lemma pathToFileUrl_alphabet_witness :
  Forall (λ c, urlChar c = true) (lit "file:///C:/Users/bob/img/my%20%24cat.png")
  ∧ (36 ∉ lit "file:///C:/Users/bob/img/my%20%24cat.png")
  ∧ (32 ∉ lit "file:///C:/Users/bob/img/my%20%24cat.png")
  ∧ (backslash ∉ lit "file:///C:/Users/bob/img/my%20%24cat.png").
Proof.
  apply (pathToFileUrl_alphabet Examples.onWinBob
           (lit "/Users/carol/img/my $cat.png")).
  - apply Forall_forall. intros c Hc. apply N.ltb_lt. revert c Hc.
    apply Forall_forall. by vm_compute; repeat constructor.
  - by vm_compute.
Defined.

(** ** PathTranslator: what a translation does *)

Lemma splitAtFirst_prefix p s r :
  stripPrefix p s = Some r → splitAtFirst p s = Some ([], r).
Proof. intros H. destruct s; cbn [splitAtFirst]; by rewrite H. Qed.

Lemma search_prefix p s r :
  matchHere p s = Some r → search p s = Some ([], r).
Proof. intros H. destruct s; cbn [search]; by rewrite H. Qed.

Lemma relativePath_beginsWithRoot src path rest :
  beginsWithRoot src path rest →
  relativePath src path
  = if bool_decide (platform src = darwin) then rest else normalizeSlashes rest.
Proof.
  unfold beginsWithRoot, relativePath, replaceFirst.
  destruct (platform src); intros H.
  - subst path.
    by rewrite (splitAtFirst_prefix _ _ rest) by apply stripPrefix_app.
  - by rewrite (search_prefix _ _ rest).
  - by rewrite (search_prefix _ _ rest).
Qed.

Lemma convertPath_translates this path src cur :
  findMatchingComputer this path = Some src →
  currentComputerOf this = Some cur →
  id src ≠ id cur →
  convertPathForCurrentPlatform this path
  = targetRoot cur ++ relativePath src path.
Proof.
  intros Hsrc Hcur Hid. unfold convertPathForCurrentPlatform.
  rewrite Hsrc, Hcur. unfold findMatchingComputer in Hsrc.
  destruct (negb (enableCrossPlatform (settings this))
            || bool_decide (computers (settings this) = [])); [done|].
  by rewrite str_eqb_ne.
Qed.

(** X6.  When the path begins with the root of the profile it is
    classified to, and that profile is not the live one, the translator
    replaces exactly that root by the root of the live profile and keeps
    the remainder (with its backslashes turned into slashes when the
    source is a Windows profile). *)
Theorem convertPath_replaces_root this path rest src cur :
  regexSafe this = true →
  findMatchingComputer this path = Some src →
  currentComputerOf this = Some cur →
  id src ≠ id cur →
  beginsWithRoot src path rest →
  convertPathForCurrentPlatform this path
  = targetRoot cur
    ++ (if bool_decide (platform src = darwin) then rest
        else normalizeSlashes rest).
Proof.
  intros _ Hsrc Hcur Hid Hroot.
  rewrite (convertPath_translates _ _ _ _ Hsrc Hcur Hid).
  by rewrite (relativePath_beginsWithRoot _ _ rest).
Qed.

Lemma convertPath_replaces_root_witness :
  convertPathForCurrentPlatform MoreExamples.onMacCarol
    (lit "d:\users\BOB\img\2024\cat.png")
  = targetRoot Examples.macCarol
    ++ (if bool_decide (platform Examples.winBob = darwin)
        then lit "img\2024\cat.png"
        else normalizeSlashes (lit "img\2024\cat.png")).
Proof.
  apply (convertPath_replaces_root MoreExamples.onMacCarol
           (lit "d:\users\BOB\img\2024\cat.png") (lit "img\2024\cat.png")
           Examples.winBob Examples.macCarol).
  - by vm_compute.
  - by vm_compute.
  - by vm_compute.
  - by vm_compute.
  - by vm_compute.
Defined.

Lemma clsChar_refl c : clsChar c c = true.
Proof. unfold clsChar. apply N.eqb_refl. Qed.

Lemma matchHere_clsText s r : matchHere (clsText s) (s ++ r) = Some r.
Proof.
  induction s as [|c s IH]; [by destruct r|].
  cbn [clsText fmap list_fmap app matchHere]. by rewrite clsChar_refl.
Qed.

Lemma matchHere_winHome r :
  matchHere winHome (lit "C:/Users/" ++ r) = Some r.
Proof.
  unfold winHome. change (lit "Users") with [85; 115; 101; 114; 115].
  change (lit "C:/Users/") with [67; 58; 47; 85; 115; 101; 114; 115; 47].
  cbn [app fmap list_fmap clsText matchHere].
  rewrite !clsChar_refl. by vm_compute (clsLetter 67); vm_compute (clsSep 47).
Qed.

Lemma winRoot_eq c :
  winRoot c = lit "C:/Users/" ++ username c
              ++ (if bool_decide (subPath c = []) then [slash]
                  else [slash] ++ subPath c ++ [slash]).
Proof.
  unfold winRoot, macRoot.
  change (lit "C:/Users/") with (lit "C:" ++ lit "/Users/").
  case_bool_decide; by rewrite <- !app_assoc.
Qed.

Lemma matchHere_subPath s r :
  matchHere ((λ ch, if isSep ch then clsSep else clsChar ch) <$> s) (s ++ r)
  = Some r.
Proof.
  induction s as [|c s IH]; [by destruct r|].
  cbn [fmap list_fmap app matchHere].
  destruct (isSep c) eqn:Hc; [unfold clsSep; by rewrite Hc|].
  by rewrite clsChar_refl.
Qed.

(** The source pattern of a profile matches the root the translator writes
    for it. *)
Lemma matchHere_winRoot c rest :
  matchHere (winSourcePattern c) (winRoot c ++ rest) = Some rest.
Proof.
  rewrite winRoot_eq. unfold winSourcePattern.
  rewrite <- !app_assoc, matchHere_app_l, matchHere_winHome.
  cbn [mbind option_bind]. rewrite matchHere_app_l, matchHere_clsText.
  cbn [mbind option_bind]. case_bool_decide.
  - by cbn.
  - rewrite <- !app_assoc. cbn [app matchHere].
    replace (clsSep slash) with true by done.
    rewrite matchHere_app_l, matchHere_subPath. by cbn.
Qed.

Lemma macRoot_pattern c :
  ∃ tail, macRoot c = macPattern (username c) ++ tail.
Proof.
  unfold macRoot, macPattern. case_bool_decide.
  - exists []. by rewrite app_nil_r.
  - exists (subPath c ++ [slash]). by rewrite <- !app_assoc.
Qed.

Lemma includes_prefix p r : includes p (p ++ r) = true.
Proof.
  unfold includes.
  by rewrite (splitAtFirst_prefix _ _ r) by apply stripPrefix_app.
Qed.

Lemma matchesComputer_targetRoot c rest :
  recognisable c → matchesComputer (targetRoot c ++ rest) c = true.
Proof.
  unfold recognisable, matchesComputer, targetRoot.
  intros [Hp|(Hp & _ & _)]; rewrite Hp.
  - destruct (macRoot_pattern c) as [tail ->].
    rewrite <- app_assoc. apply includes_prefix.
  - apply bool_decide_eq_true. rewrite winRoot_eq, <- !app_assoc.
    unfold winPattern. rewrite matchHere_app_l, matchHere_winHome.
    cbn [mbind option_bind]. rewrite matchHere_app_l, matchHere_clsText.
    cbn [mbind option_bind]. by case_bool_decide.
Qed.

(** X7.  Whatever the translator rewrites has the shape of a path of the
    live computer: the pattern of the live profile, as the classifier tests
    it, matches the translated path. *)
Theorem convertPath_result_is_live this path src cur :
  regexSafe this = true →
  findMatchingComputer this path = Some src →
  currentComputerOf this = Some cur →
  id src ≠ id cur →
  recognisable cur →
  matchesComputer (convertPathForCurrentPlatform this path) cur = true.
Proof.
  intros _ Hsrc Hcur Hid Hrec.
  rewrite (convertPath_translates _ _ _ _ Hsrc Hcur Hid).
  by apply matchesComputer_targetRoot.
Qed.

Lemma convertPath_result_is_live_witness :
  matchesComputer
    (convertPathForCurrentPlatform Examples.onWinAlice
       (lit "/Users/alice/Desktop/cat.png")) Examples.winAlice = true.
Proof.
  apply (convertPath_result_is_live _ _ Examples.macAlice).
  - by vm_compute.
  - by vm_compute.
  - by vm_compute.
  - by vm_compute.
  - right. by vm_compute.
Defined.

Lemma beginsWithRoot_targetRoot c rest :
  beginsWithRoot c (targetRoot c ++ rest) rest.
Proof.
  unfold beginsWithRoot, targetRoot.
  destruct (platform c); [done|apply matchHere_winRoot..].
Qed.

(** X8.  There and back, on registries with literal Windows names
    ([regexSafe]: the user names and sub-paths of the Windows profiles are
    ASCII without regular-expression metacharacter).  Let two machines
    share one registry, with [A] live on the first and [B] live on the
    second.  A path in the form the translator writes for [A], without
    backslash in its remainder, that the second machine classifies to [A],
    and whose translation the first machine classifies to [B], is
    translated back to itself. *)
Theorem convertPath_there_and_back onA onB A B rest :
  regexSafe onA = true → regexSafe onB = true →
  currentComputerOf onA = Some A →
  currentComputerOf onB = Some B →
  id A ≠ id B →
  backslash ∉ rest →
  findMatchingComputer onB (targetRoot A ++ rest) = Some A →
  findMatchingComputer onA (targetRoot B ++ rest) = Some B →
  convertPathForCurrentPlatform onB (targetRoot A ++ rest)
    = targetRoot B ++ rest
  ∧ convertPathForCurrentPlatform onA
      (convertPathForCurrentPlatform onB (targetRoot A ++ rest))
    = targetRoot A ++ rest.
Proof.
  intros _ _ HcurA HcurB Hid Hbs HfindA HfindB.
  assert (∀ c, (if bool_decide (platform c = darwin) then rest
                else normalizeSlashes rest) = rest) as Hrest.
  { intros c. case_bool_decide; [done|]. by apply normalizeSlashes_id. }
  assert (convertPathForCurrentPlatform onB (targetRoot A ++ rest)
          = targetRoot B ++ rest) as Hthere.
  { rewrite (convertPath_translates _ _ _ _ HfindA HcurB Hid).
    rewrite (relativePath_beginsWithRoot _ _ rest)
      by apply beginsWithRoot_targetRoot.
    by rewrite Hrest. }
  split; [done|]. rewrite Hthere.
  rewrite (convertPath_translates _ _ _ _ HfindB HcurA) by done.
  rewrite (relativePath_beginsWithRoot _ _ rest)
    by apply beginsWithRoot_targetRoot.
  by rewrite Hrest.
Qed.

Lemma convertPath_there_and_back_witness :
  convertPathForCurrentPlatform Examples.onWinBob
    (targetRoot Examples.macCarol ++ lit "img/my cat.png")
    = targetRoot Examples.winBob ++ lit "img/my cat.png"
  ∧ convertPathForCurrentPlatform MoreExamples.onMacCarol
      (convertPathForCurrentPlatform Examples.onWinBob
         (targetRoot Examples.macCarol ++ lit "img/my cat.png"))
    = targetRoot Examples.macCarol ++ lit "img/my cat.png".
Proof.
  apply convertPath_there_and_back.
  - by vm_compute.
  - by vm_compute.
  - by vm_compute.
  - by vm_compute.
  - by vm_compute.
  - apply includes_char_false. by vm_compute.
  - by vm_compute.
  - by vm_compute.
Defined.

(** ** DocumentScanPass: content mode *)

Lemma scanEmbeds_fold this urls st :
  ∀ r, foldl (λ acc url, acc ≫= λ st, convertEmbed this st url)
         (Some st) urls = Some r →
  r.2 = (st.2 + length (List.filter
           (λ url, isPathFromDifferentPlatform this (decodeLocation url))
           urls))%nat.
Proof.
  revert st. induction urls as [|url urls IH]; intros st r; cbn [foldl].
  - intros [= <-]. cbn. lia.
  - cbn [mbind option_bind List.filter]. unfold convertEmbed at 2.
    destruct (isPathFromDifferentPlatform this (decodeLocation url)).
    + destruct (pathToFileUrl this _) as [newUrl|]; cbn [mbind option_bind].
      * intros Hr%IH. rewrite Hr. cbn. lia.
      * intros Hr. exfalso. clear IH. revert Hr.
        induction urls as [|u us IHus]; [done|]. exact IHus.
    + by intros Hr%IH.
Qed.

(** X9.  A content-mode pass that ends without exception counts exactly
    the embeds whose decoded path the classifier attributes to another
    registered machine, whether or not the translation changes them; it
    writes the note exactly when that count is not zero; and the command
    [convertCrossPlatformPaths] does the same as the pass on file open
    whenever the cross-platform setting is on. *)
Theorem autoConvertOnFileOpen_count this content r :
  regexSafe this = true →
  autoConvertOnFileOpen this content = Some r →
  convertedCount r = length (foreignEmbeds this content)
  ∧ (written r = None ↔ foreignEmbeds this content = [])
  ∧ (enableCrossPlatform (settings this) = true →
     convertCrossPlatformPaths this content = Some r).
Proof.
  intros _. unfold autoConvertOnFileOpen, scanEmbeds, foreignEmbeds.
  destruct (foldl _ _ _) as [st|] eqn:Hfold; [|done].
  cbn [mbind option_bind]. intros [= <-]. cbn [convertedCount written].
  pose proof (scanEmbeds_fold _ _ _ _ Hfold) as Hcount. cbn in Hcount.
  split; [done|]. split.
  - rewrite Hcount. case_bool_decide as Hpos.
    + split; [done|]. intros Hnil. rewrite Hnil in Hpos. cbn in Hpos. lia.
    + split; [|done]. intros _.
      destruct (List.filter _ _); [done|cbn in Hpos; lia].
  - intros Hen. unfold convertCrossPlatformPaths.
    by rewrite Hen, Hfold.
Qed.

Lemma autoConvertOnFileOpen_count_witness :
  convertedCount (mkScan 1 (Some MoreExamples.mixedNoteConverted)) =
    length (foreignEmbeds Examples.onWinBob MoreExamples.mixedNote)
  ∧ (written (mkScan 1 (Some MoreExamples.mixedNoteConverted)) = None ↔
     foreignEmbeds Examples.onWinBob MoreExamples.mixedNote = [])
  ∧ (enableCrossPlatform (settings Examples.onWinBob) = true →
     convertCrossPlatformPaths Examples.onWinBob MoreExamples.mixedNote =
       Some (mkScan 1 (Some MoreExamples.mixedNoteConverted))).
Proof.
  apply (autoConvertOnFileOpen_count Examples.onWinBob MoreExamples.mixedNote);
    by vm_compute.
Defined.

(** ** The guard of the automatic conversion *)

Lemma runVaultEvents_app this auto last events events' :
  runVaultEvents this auto last (events ++ events') =
    let r := runVaultEvents this auto last events in
    let r' := runVaultEvents this auto r.1 events' in
    (r'.1, r.2 ++ r'.2).
Proof.
  revert last. induction events as [|e events IH]; intros last.
  - cbn. by destruct (runVaultEvents _ _ _ _).
  - cbn [app runVaultEvents]. rewrite IH. cbn zeta. cbn [fst snd].
    by rewrite app_assoc.
Qed.

(** X10.  The field [lastModifiedFile] remembers the last event only: after
    any sequence of events it holds the note of the last event when that
    was a modification, nothing when that was a file-open, whatever came
    before.  So the opening of a note [path] after the events [before]
    schedules the automatic conversion exactly when both settings are on
    and the event just before it is not a modification of that same note:
    any file-open in between, of this or another file, uses up the guard,
    and a modification by anyone sets it. *)
Theorem file_open_guard this auto initial before path :
  let field :=
    match last before with
    | Some (VaultModify p) => Some p
    | Some (FileOpen _) => None
    | None => initial
    end in
  (runVaultEvents this auto initial before).1 = field
  ∧ (runVaultEvents this auto initial (before ++ [FileOpen (Some path)])).2 =
      (runVaultEvents this auto initial before).2 ++
      (if enableCrossPlatform (settings this) && auto
          && bool_decide (field ≠ Some path)
       then [path] else []).
Proof.
  cbn zeta.
  assert ((runVaultEvents this auto initial before).1 =
          match last before with
          | Some (VaultModify p) => Some p
          | Some (FileOpen _) => None
          | None => initial
          end) as Hfield.
  { destruct before as [|e before _] using rev_ind; [done|].
    rewrite runVaultEvents_app, last_snoc. cbn. by destruct e. }
  split; [done|].
  rewrite runVaultEvents_app. cbn zeta. cbn [snd]. f_equal.
  rewrite Hfield. cbn.
  destruct (enableCrossPlatform (settings this) && auto); [|done].
  cbn. by case_bool_decide.
Qed.

(** ** ReferenceIndexer: the search *)

Lemma positionsIn_spec host file targetFile embeds pos :
  pos ∈ positionsIn host file targetFile embeds ↔
  ∃ embed, embed ∈ embeds
    ∧ getFirstLinkpathDest host (link embed) file = Some targetFile
    ∧ pos = mkPos (startLine embed) (startCol embed) (original embed).
Proof.
  unfold positionsIn. rewrite list_elem_of_omap. split.
  - intros (embed & Hin & Hsome). exists embed.
    case_bool_decide; [|done]. by injection Hsome as <-.
  - intros (embed & Hin & Hres & ->). exists embed. split; [done|].
    by rewrite bool_decide_eq_true_2.
Qed.

Lemma findAllReferencesToFile_elem host markdownFiles targetFile ref :
  ref ∈ findAllReferencesToFile host markdownFiles targetFile ↔
  notePath ref ∈ markdownFiles
  ∧ positions ref ≠ []
  ∧ ∃ embeds, getFileCache_embeds host (notePath ref) = Some embeds
      ∧ positions ref = positionsIn host (notePath ref) targetFile embeds.
Proof.
  unfold findAllReferencesToFile. rewrite list_elem_of_omap. split.
  - intros (file & Hin & Hsome).
    destruct (getFileCache_embeds host file) as [embeds|] eqn:Hcache; [|done].
    case_bool_decide as Hlen; [|done]. injection Hsome as <-. cbn.
    split; [done|]. split; [|by exists embeds].
    intros Hnil. rewrite Hnil in Hlen. cbn in Hlen. lia.
  - intros (Hin & Hne & embeds & Hcache & Hpos). exists (notePath ref).
    split; [done|]. rewrite Hcache. cbn zeta. rewrite <- Hpos.
    rewrite bool_decide_eq_true_2.
    + by destruct ref.
    + destruct (positions ref); [done|cbn; lia].
Qed.

Lemma findAllReferencesToFile_sublist host markdownFiles targetFile :
  notePath <$> findAllReferencesToFile host markdownFiles targetFile
    `sublist_of` markdownFiles.
Proof.
  unfold findAllReferencesToFile.
  induction markdownFiles as [|file files IH]; [done|].
  cbn [omap list_omap].
  destruct (getFileCache_embeds host file) as [embeds|];
    [|by apply sublist_cons].
  cbn zeta. case_bool_decide; [|by apply sublist_cons].
  rewrite fmap_cons. cbn [notePath]. by apply sublist_skip.
Qed.

Lemma filterReferences_sublist references activeFile excludePosition :
  notePath <$> filterReferences references activeFile excludePosition
    `sublist_of` notePath <$> references.
Proof.
  unfold filterReferences.
  induction references as [|ref refs IH]; [done|].
  cbn [omap list_omap]. cbn zeta. rewrite fmap_cons.
  case_bool_decide; [|by apply sublist_cons].
  rewrite fmap_cons. cbn [notePath]. by apply sublist_skip.
Qed.

Lemma filterReferences_nonempty references activeFile excludePosition ref :
  ref ∈ filterReferences references activeFile excludePosition →
  positions ref ≠ [].
Proof.
  unfold filterReferences. intros (ref0 & _ & Hsome)%list_elem_of_omap.
  cbn zeta in Hsome. case_bool_decide as Hlen; [|done].
  injection Hsome as <-. cbn [positions]. intros Hnil.
  rewrite Hnil in Hlen. cbn in Hlen. lia.
Qed.

(** X11.  The indexer lists the notes in the order of the vault's listing,
    none more than once when the listing holds none twice, never lists a
    note without a hit, and a position is
    reported for a note exactly when an embed of the cache of that note
    resolves to the target file; the position is that of the cache entry
    and its text is the entry's original markup. *)
Theorem findAllReferencesToFile_spec host markdownFiles targetFile :
  let results := findAllReferencesToFile host markdownFiles targetFile in
  notePath <$> results `sublist_of` markdownFiles
  ∧ (NoDup markdownFiles → NoDup (notePath <$> results))
  ∧ Forall (λ ref, positions ref ≠ []) results
  ∧ ∀ p pos,
      (∃ ref, ref ∈ results ∧ notePath ref = p ∧ pos ∈ positions ref)
      ↔ (p ∈ markdownFiles
         ∧ ∃ embeds embed,
             getFileCache_embeds host p = Some embeds ∧ embed ∈ embeds
             ∧ getFirstLinkpathDest host (link embed) p = Some targetFile
             ∧ pos = mkPos (startLine embed) (startCol embed)
                           (original embed)).
Proof.
  cbn zeta. split; [apply findAllReferencesToFile_sublist|].
  split; [intros Hnd; eapply sublist_NoDup;
          [done|apply findAllReferencesToFile_sublist]|].
  split.
  - apply Forall_forall. intros ref Href.
    by apply findAllReferencesToFile_elem in Href as (_ & Hne & _).
  - intros p pos. split.
    + intros (ref & Href & <- & Hpos).
      apply findAllReferencesToFile_elem
        in Href as (Hin & _ & embeds & Hcache & Heq).
      split; [done|]. rewrite Heq in Hpos.
      apply positionsIn_spec in Hpos as (embed & Hemb & Hres & ->).
      by exists embeds, embed.
    + intros (Hin & embeds & embed & Hcache & Hemb & Hres & ->).
      exists (mkRefs p (positionsIn host p targetFile embeds)).
      assert (mkPos (startLine embed) (startCol embed) (original embed)
              ∈ positionsIn host p targetFile embeds) as Hpos.
      { apply positionsIn_spec. by exists embed. }
      split; [|done]. apply findAllReferencesToFile_elem. cbn.
      split; [done|]. split; [|by exists embeds].
      intros Hnil. rewrite Hnil in Hpos. by apply elem_of_nil in Hpos.
Qed.

Lemma noteWrite_sublist md v refs :
  (omap (noteWrite md v) refs).*1 `sublist_of` notePath <$> refs.
Proof.
  induction refs as [|ref refs IH]; [done|].
  cbn [omap list_omap]. unfold noteWrite at 1. rewrite fmap_cons.
  destruct (files v !! notePath ref); cbn [fmap option_fmap option_map].
  - rewrite fmap_cons. cbn [fst]. by apply sublist_skip.
  - by apply sublist_cons.
Qed.

Lemma noteWrite_elem md v refs p :
  p ∈ (omap (noteWrite md v) refs).*1 ↔
  is_Some (files v !! p) ∧ ∃ ref, ref ∈ refs ∧ notePath ref = p.
Proof.
  rewrite list_elem_of_fmap. split.
  - intros ([p' c] & -> & (ref & Href & Hw)%list_elem_of_omap).
    unfold noteWrite in Hw.
    destruct (files v !! notePath ref) as [content|] eqn:Hfile; [|done].
    injection Hw as <- <-. cbn. split; [by eexists|by exists ref].
  - intros ([content Hfile] & ref & Href & <-).
    exists (notePath ref, rewriteNote md content (positions ref)).
    split; [done|]. apply list_elem_of_omap. exists ref. split; [done|].
    unfold noteWrite. by rewrite Hfile.
Qed.

(** X12.  A confirmed run of [offerToReplaceOtherReferences] on the hits of
    the indexer, in a vault whose listing of notes has no duplicate, writes
    each note at most once, and writes exactly the listed notes that are
    in the store and hold an embed which resolves to the target and is not
    the one set aside in the active note. *)
Theorem offer_writes_notes_with_remaining_hits host markdownFiles targetFile
    activeFile basename newUrl excludePosition v :
  NoDup markdownFiles →
  let references := findAllReferencesToFile host markdownFiles targetFile in
  let result :=
    offerToReplaceOtherReferences references activeFile basename newUrl
      excludePosition Clicked v in
  ∃ written,
    modified result.1 = modified v ++ written
    ∧ NoDup written.*1
    ∧ ∀ p, p ∈ written.*1 ↔
        p ∈ markdownFiles ∧ is_Some (files v !! p)
        ∧ ∃ embed, remainingHit host targetFile activeFile excludePosition
                     p embed.
Proof.
  intros Hnd. cbn zeta.
  set (references := findAllReferencesToFile host markdownFiles targetFile).
  set (filtered := filterReferences references activeFile excludePosition).
  assert (NoDup (notePath <$> filtered)) as Hndf.
  { eapply sublist_NoDup; [|apply filterReferences_sublist].
    eapply sublist_NoDup; [done|apply findAllReferencesToFile_sublist]. }
  exists (omap (noteWrite (embedMarkdown basename newUrl) v) filtered).
  split; [|split].
  - unfold offerToReplaceOtherReferences. fold filtered. cbn zeta.
    case_bool_decide as Hnil.
    + rewrite Hnil. cbn. by rewrite app_nil_r.
    + cbn [confirmReplaceReferences negb fst].
      by apply replaceAllReferences_writes.
  - eapply sublist_NoDup; [done|apply noteWrite_sublist].
  - intros p. rewrite noteWrite_elem. split.
    + intros (Hfile & ref & Href & <-).
      pose proof (filterReferences_nonempty _ _ _ _ Href) as Hne.
      destruct (positions ref) as [|pos hits] eqn:Hpos; [done|].
      assert (∃ ref', ref' ∈ filtered ∧ notePath ref' = notePath ref
                      ∧ pos ∈ positions ref') as Hex.
      { exists ref. rewrite Hpos. repeat split; [done|left]. }
      apply filterReferences_spec in Hex as (ref0 & Href0 & Hp & Hin & Hkeep).
      apply findAllReferencesToFile_elem
        in Href0 as (Hlisted & _ & embeds & Hcache & Heq).
      rewrite Heq in Hin. rewrite Hp in *.
      apply positionsIn_spec in Hin as (embed & Hemb & Hres & ->).
      split; [done|]. split; [done|]. exists embed.
      split; [by exists embeds|]. split; [done|]. exact Hkeep.
    + intros (Hlisted & Hfile & embed & (embeds & Hcache & Hemb) & Hres & Hkeep).
      split; [done|].
      set (pos := mkPos (startLine embed) (startCol embed) (original embed)).
      assert (∃ ref, ref ∈ filtered ∧ notePath ref = p ∧ pos ∈ positions ref)
        as (ref & Href & Hp & _); [|by exists ref].
      apply filterReferences_spec.
      exists (mkRefs p (positionsIn host p targetFile embeds)).
      assert (pos ∈ positionsIn host p targetFile embeds) as Hpos.
      { apply positionsIn_spec. by exists embed. }
      split; [|done]. apply findAllReferencesToFile_elem. cbn.
      split; [done|]. split; [|by exists embeds].
      intros Hnil. rewrite Hnil in Hpos. by apply elem_of_nil in Hpos.
Qed.

Lemma offer_writes_notes_with_remaining_hits_witness :
  let references :=
    findAllReferencesToFile MoreExamples.catHost
      [Examples.activeNote; Examples.otherNote] MoreExamples.catPng in
  let result :=
    offerToReplaceOtherReferences references (Some Examples.activeNote)
      (lit "cat") (lit "eagle://item/M1") (1, 0)%nat Clicked
      Examples.catVault in
  ∃ written,
    modified result.1 = modified Examples.catVault ++ written
    ∧ NoDup written.*1
    ∧ ∀ p, p ∈ written.*1 ↔
        p ∈ [Examples.activeNote; Examples.otherNote]
        ∧ is_Some (files Examples.catVault !! p)
        ∧ ∃ embed, remainingHit MoreExamples.catHost MoreExamples.catPng
                     (Some Examples.activeNote) (1, 0)%nat p embed.
Proof.
  apply (offer_writes_notes_with_remaining_hits MoreExamples.catHost
           [Examples.activeNote; Examples.otherNote] MoreExamples.catPng
           (Some Examples.activeNote) (lit "cat") (lit "eagle://item/M1")
           (1, 0)%nat Examples.catVault).
  apply (bool_decide_unpack _). by vm_compute.
Defined.

(** ** ReferenceRewriter: one hit, character by character *)

Lemma join_split sep s : join [sep] (split sep s) = s.
Proof.
  induction s as [|c s IH]; [done|].
  rewrite split_cons_case. destruct (N.eqb_spec c sep) as [->|Hc].
  - destruct (split_cons sep s) as (seg & segs & Hs). rewrite Hs in *.
    rewrite join_cons_cons. cbn [app]. by rewrite IH.
  - destruct (split sep s) as [|seg segs]; [cbn in *; by subst|].
    by rewrite join_cons_head, IH.
Qed.

Lemma join_tail (sep : N) x after :
  join [sep] (x :: after) = x ++ mjoin ((λ a, sep :: a) <$> after).
Proof.
  revert x. induction after as [|a after IH]; intros x.
  - cbn. by rewrite app_nil_r.
  - rewrite join_cons_cons, IH. by cbn.
Qed.

Lemma join_middle (sep : N) before x after :
  join [sep] (before ++ x :: after) =
    mjoin ((λ b, b ++ [sep]) <$> before) ++ x
    ++ mjoin ((λ a, sep :: a) <$> after).
Proof.
  induction before as [|b before IH]; [apply join_tail|].
  rewrite fmap_cons.
  change (mjoin ((b ++ [sep]) :: ?l)) with ((b ++ [sep]) ++ mjoin l).
  rewrite <- !app_assoc, <- IH.
  destruct before; cbn [app]; by rewrite join_cons_cons.
Qed.

Lemma count_sep_lines (sep : N) before :
  Forall (λ seg, sep ∉ seg) before →
  length (filter (λ c, c = sep) (mjoin ((λ b, b ++ [sep]) <$> before)))
  = length before.
Proof.
  induction 1 as [|b before Hb _ IH]; [done|].
  rewrite fmap_cons.
  change (mjoin ((b ++ [sep]) :: ?l)) with ((b ++ [sep]) ++ mjoin l).
  rewrite !filter_app, !length_app, IH.
  assert (filter (λ c, c = sep) b = []) as ->.
  { clear -Hb. induction b as [|c b IHb]; [done|].
    rewrite filter_cons_False; [apply IHb|];
      intros ?; apply Hb; [by right|subst; left]. }
  rewrite filter_cons_True by done. by rewrite filter_nil.
Qed.

Lemma indexOfFrom_occurrence p s from i :
  indexOfFrom p s from = Some i →
  s = take i s ++ p ++ drop (i + length p) s
  ∧ (from ≤ i ∨ p = [])%nat ∧ (i ≤ length s)%nat.
Proof.
  revert s i. induction from as [|k IH]; intros s i.
  - assert (indexOfFrom p s 0 = length ∘ fst <$> splitAtFirst p s) as ->
      by by destruct s.
    destruct (splitAtFirst p s) as [[b a]|] eqn:E; [|done].
    intros [= <-]. apply splitAtFirst_Some in E as ->. cbn [fst compose].
    split; [|split; [left; lia|rewrite length_app; lia]].
    rewrite take_app_length, drop_app_add', drop_app_length; done.
  - destruct s as [|c s]; cbn [indexOfFrom].
    + destruct (splitAtFirst p []) as [[b a]|] eqn:E; [|done].
      intros [= <-]. apply splitAtFirst_Some in E.
      symmetry in E. apply app_eq_nil in E as [-> [-> ->]%app_eq_nil].
      split; [done|]. split; [by right|done].
    + destruct (indexOfFrom p s k) as [i'|] eqn:E; [|done].
      intros [= <-]. apply IH in E as (Hs & Hk & Hle). split; [|split].
      * simpl. f_equal. exact Hs.
      * destruct Hk; [left; lia|by right].
      * cbn [length]. lia.
Qed.

(** X13.  Processing one hit either leaves the note as it is, or replaces
    exactly one occurrence of the hit's text by the new embed: the note is
    [A ++ text ++ B] before and [A ++ newMarkdown ++ B] after, where the
    occurrence lies on the hit's line ([A] holds as many line breaks as
    the hit's line number) and, unless the text is empty, starts at or
    after the hit's column.  Nothing else of the note changes. *)
Theorem replaceHit_one_occurrence md content pos :
  replaceHit md content pos = content
  ∨ ∃ P L B,
      content = (P ++ L) ++ text pos ++ B
      ∧ (replaceHit md content pos = (P ++ L) ++ md ++ B)
      ∧ (length (filter (λ c, c = newline) P) = line pos)
      ∧ (newline ∉ L)
      ∧ (ch pos ≤ length L ∨ text pos = [])%nat.
Proof.
  unfold replaceHit. cbn zeta.
  destruct (split newline content !! line pos) as [[|c l]|] eqn:Hline;
    [by left| |by left].
  destruct (indexOfFrom (text pos) (c :: l) (ch pos)) as [index|] eqn:Hidx;
    [|by left].
  right. apply indexOfFrom_occurrence in Hidx as (Hocc & Hcol & Hle).
  pose proof (split_sep_free newline content) as Hfree.
  apply list_elem_of_split_length in Hline as (before & after & Hsplit & Hlen).
  rewrite Hsplit in Hfree.
  apply Forall_app in Hfree as [Hbefore [Hl Hafter]%Forall_cons].
  exists (mjoin ((λ b, b ++ [newline]) <$> before)), (take index (c :: l)),
    (drop (index + length (text pos)) (c :: l)
     ++ mjoin ((λ a, newline :: a) <$> after)).
  repeat split.
  - rewrite <- (join_split newline content) at 1. rewrite Hsplit, join_middle.
    rewrite Hocc at 1. by rewrite <- !app_assoc.
  - rewrite Hsplit, Hlen, insert_app_r_alt, Nat.sub_diag by done.
    cbn [insert list_insert]. rewrite join_middle. by rewrite <- !app_assoc.
  - rewrite count_sep_lines by done. done.
  - intros Hin. apply Hl. by apply (subseteq_take index).
  - rewrite length_take. destruct Hcol; [left; lia|by right].
Qed.

(** ** What the scan reads of an embed the plugin wrote *)

Lemma takeWhile_until c a r :
  c ∉ a → takeWhile (λ x, negb (x =? c)) (a ++ c :: r) = a.
Proof.
  induction a as [|d a IH]; intros Ha; cbn.
  - by rewrite N.eqb_refl.
  - destruct (N.eqb_spec d c) as [->|_]; [exfalso; apply Ha; left|].
    cbn. f_equal. apply IH. intros ?. apply Ha. by right.
Qed.

Lemma dropWhile_until c a r :
  c ∉ a → dropWhile (λ x, negb (x =? c)) (a ++ c :: r) = c :: r.
Proof.
  induction a as [|d a IH]; intros Ha; cbn.
  - by rewrite N.eqb_refl.
  - destruct (N.eqb_spec d c) as [->|_]; [exfalso; apply Ha; left|].
    cbn. apply IH. intros ?. apply Ha. by right.
Qed.

Lemma matchEmbedHere_embed alt b r3 :
  93 ∉ alt → 41 ∉ b → b ≠ [] →
  matchEmbedHere (lit "![" ++ alt ++ lit "](" ++ (lit "file://" ++ b) ++ 41 :: r3)
  = Some (lit "file://" ++ b,
          Nat.sub
            (length (lit "![" ++ alt ++ lit "](" ++ (lit "file://" ++ b)
                     ++ 41 :: r3))
            (length r3)).
Proof.
  intros Halt Hb Hne. unfold matchEmbedHere.
  generalize (length (lit "![" ++ alt ++ lit "](" ++ (lit "file://" ++ b)
                      ++ 41 :: r3)).
  intros n. rewrite stripPrefix_app. cbn [mbind option_bind].
  change (lit "](") with ([93] ++ [40]) at 2. rewrite <- !app_assoc.
  cbn [app]. rewrite dropWhile_until by done.
  change (93 :: 40 :: ?x) with (lit "](" ++ x).
  rewrite stripPrefix_app. cbn [mbind option_bind].
  rewrite stripPrefix_app. cbn [mbind option_bind].
  rewrite takeWhile_until, dropWhile_until by done.
  by destruct b.
Qed.

Lemma fileEmbedsFrom_skip a r :
  fileEmbedsFrom (length a) (a ++ r) = fileEmbedsFrom 0 r.
Proof. induction a as [|c a IH]; [done|]. exact IH. Qed.

Lemma fileEmbedsFrom_no_bracket k r : 91 ∉ r → fileEmbedsFrom k r = [].
Proof.
  revert k. induction r as [|c r IH]; intros k Hr; [done|].
  assert (91 ∉ r) as Hr' by (intros ?; apply Hr; by right).
  cbn [fileEmbedsFrom]. destruct k as [|k]; [|by apply IH].
  assert (matchEmbedHere (c :: r) = None) as ->; [|by apply IH].
  unfold matchEmbedHere.
  destruct (stripPrefix (lit "![") (c :: r)) as [x|] eqn:E; [|done].
  apply stripPrefix_Some in E. change (lit "![") with [33; 91] in E.
  injection E as -> ->. exfalso. apply Hr'. left.
Qed.

Lemma fileEmbeds_embed alt b r3 :
  93 ∉ alt → 41 ∉ b → b ≠ [] → 91 ∉ r3 →
  fileEmbeds (lit "![" ++ alt ++ lit "](" ++ (lit "file://" ++ b) ++ 41 :: r3)
  = [lit "file://" ++ b].
Proof.
  intros Halt Hb Hne Hr3. unfold fileEmbeds.
  pose proof (matchEmbedHere_embed alt b r3 Halt Hb Hne) as Hm.
  set (s := lit "![" ++ alt ++ lit "](" ++ (lit "file://" ++ b) ++ 41 :: r3) in *.
  assert (∃ a, s = 33 :: a ++ r3) as (a & Hs).
  { exists (91 :: alt ++ lit "](" ++ (lit "file://" ++ b) ++ [41]).
    unfold s. change (lit "![") with [33; 91]. cbn [app].
    by rewrite <- !app_assoc. }
  rewrite Hs in Hm |- *. cbn [fileEmbedsFrom]. rewrite Hm. f_equal.
  assert (pred (length (33 :: a ++ r3) - length r3) = length a) as ->.
  { cbn [length]. rewrite length_app. lia. }
  rewrite fileEmbedsFrom_skip. by apply fileEmbedsFrom_no_bracket.
Qed.

Lemma pathToFileUrl_body this path url :
  pathToFileUrl this path = Some url → ∃ body, url = lit "file://" ++ body.
Proof.
  unfold pathToFileUrl. cbv zeta.
  destruct (encodeSegments _) as [encodedPath|]; [|done]. cbn.
  destruct (_ && _); intros [= <-].
  - by exists (slash :: restoreDriveColon encodedPath).
  - by exists encodedPath.
Qed.

Lemma urlChar_no_bracket c : urlChar c = true → c ≠ 91.
Proof.
  unfold urlChar, unescapedInPath, unescaped, isAsciiLetter, percent, colon,
    slash.
  rewrite !orb_true_iff, !andb_true_iff, !N.leb_le, !N.eqb_eq. lia.
Qed.

Lemma split_subseteq sep s seg : seg ∈ split sep s → seg ⊆ s.
Proof.
  revert seg. induction s as [|c s IH]; intros seg.
  - cbn. intros ->%list_elem_of_singleton. done.
  - rewrite split_cons_case. destruct (c =? sep).
    + intros [->|Hin]%elem_of_cons; [by intros ? ?%elem_of_nil|].
      intros x Hx. right. by apply (IH seg).
    + destruct (split sep s) as [|seg' segs] eqn:Hs.
      * intros ->%list_elem_of_singleton. intros x Hx.
        apply list_elem_of_singleton in Hx as ->. left.
      * intros [->|Hin]%elem_of_cons.
        -- intros x [->|Hx]%elem_of_cons; [left|right].
           apply (IH seg'); [left|done].
        -- intros x Hx. right. apply (IH seg); [by right|done].
Qed.

(** X14.  The embed that pasting a library path writes is found again by
    the scan of the content-mode pass, and is its only embed: when the
    pasted path, and so the alternative text, holds no closing square
    bracket, the scan reads the identifier back in full if it holds no
    closing round bracket, and otherwise reads it only up to the first
    closing round bracket (round brackets are not escaped by
    [encodeURIComponent]). *)
Theorem handleEagleLibraryPathPaste_scanned this path markdown :
  Forall (λ c, c < 0x10000)
    (convertPathForCurrentPlatform this
       (fullyDecodeUri (normalizeSlashes path))) →
  93 ∉ path →
  handleEagleLibraryPathPaste this path = Some markdown →
  ∃ body,
    pathToFileUrl this (normalizeSlashes path) = Some (lit "file://" ++ body)
    ∧ (body ≠ [] → 41 ∉ body →
       fileEmbeds markdown = [lit "file://" ++ body])
    ∧ (∀ b rest, body = b ++ 41 :: rest → b ≠ [] → 41 ∉ b →
       fileEmbeds markdown = [lit "file://" ++ b]).
Proof.
  intros Hunits Hpath. unfold handleEagleLibraryPathPaste. cbv zeta.
  destruct (pathToFileUrl this (normalizeSlashes path)) as [url|] eqn:Hurl;
    [|done].
  cbn [mbind option_bind]. intros [= <-].
  pose proof (pathToFileUrl_chars _ _ _ Hunits Hurl) as Hchars.
  destruct (pathToFileUrl_body _ _ _ Hurl) as (body & ->).
  exists body. split; [done|].
  set (filename := match last (split slash (normalizeSlashes path)) with
                   | Some (c :: seg) => c :: seg
                   | _ => lit "image"
                   end).
  assert (93 ∉ filename) as Halt.
  { unfold filename.
    destruct (last (split slash (normalizeSlashes path)))
      as [[|c seg]|] eqn:Hlast;
      [apply (bool_decide_unpack _); by vm_compute| |
       apply (bool_decide_unpack _); by vm_compute].
    intros Hin. apply last_Some in Hlast as (l' & Hl').
    assert (c :: seg ∈ split slash (normalizeSlashes path)) as Hseg.
    { rewrite Hl'. apply elem_of_app. right. left. }
    apply split_subseteq in Hseg. apply Hseg in Hin.
    unfold normalizeSlashes in Hin.
    apply list_elem_of_fmap in Hin as (x & Hx & Hin).
    unfold backslash, slash in Hx.
    destruct (N.eqb_spec x 92); [done|]. by subst x. }
  apply Forall_app in Hchars as [_ Hbody].
  unfold embedMarkdown. change (lit ")") with [41]. split.
  - intros Hne Hb. apply fileEmbeds_embed; try done.
    by intros ?%elem_of_nil.
  - intros b rest -> Hne Hb.
    replace (lit "![" ++ filename ++ lit "](" ++
             (lit "file://" ++ b ++ 41 :: rest) ++ [41])
      with (lit "![" ++ filename ++ lit "](" ++
            (lit "file://" ++ b) ++ 41 :: (rest ++ [41]))
      by (by rewrite <- !app_assoc).
    apply fileEmbeds_embed; try done.
    apply Forall_app in Hbody as [_ [_ Hrest]%Forall_cons].
    intros [Hin|Hin]%elem_of_app.
    + eapply Forall_forall in Hrest; [|exact Hin].
      by apply urlChar_no_bracket in Hrest.
    + by apply list_elem_of_singleton in Hin.
Qed.

Lemma handleEagleLibraryPathPaste_scanned_witness :
  ∃ body,
    pathToFileUrl Examples.onWinBob
      (normalizeSlashes
         (lit "C:\Users\bob\Pics.library\images\M1.info\photo (1).png"))
    = Some (lit "file://" ++ body)
    ∧ (body ≠ [] → 41 ∉ body →
       fileEmbeds
         (lit "![photo (1).png](file:///C:/Users/bob/Pics.library/images/M1.info/photo%20(1).png)")
       = [lit "file://" ++ body])
    ∧ (∀ b rest, body = b ++ 41 :: rest → b ≠ [] → 41 ∉ b →
       fileEmbeds
         (lit "![photo (1).png](file:///C:/Users/bob/Pics.library/images/M1.info/photo%20(1).png)")
       = [lit "file://" ++ b]).
Proof.
  apply (handleEagleLibraryPathPaste_scanned Examples.onWinBob
           (lit "C:\Users\bob\Pics.library\images\M1.info\photo (1).png")).
  - apply Forall_forall. intros c Hc. apply N.ltb_lt. revert c Hc.
    apply Forall_forall. by vm_compute; repeat constructor.
  - apply (bool_decide_unpack _). by vm_compute.
  - by vm_compute.
Defined.

(** ** Eagle links *)

Lemma matchHere_clsText_inv p s r :
  matchHere (clsText p) s = Some r ↔
  ∃ pre, s = pre ++ r ∧ foldCase <$> pre = foldCase <$> p.
Proof.
  revert s. induction p as [|c p IH]; intros s.
  - cbn. split.
    + intros [= ->]. by exists [].
    + intros (pre & -> & Hpre). by destruct pre.
  - destruct s as [|d s]; cbn [clsText fmap list_fmap matchHere].
    + split; [done|]. by intros ([|??] & ? & ?).
    + unfold clsChar at 1. destruct (N.eqb_spec (foldCase d) (foldCase c)) as [E|E].
      * fold (clsText p). rewrite IH. split.
        -- intros (pre & -> & Hpre). exists (d :: pre). split; [done|].
           cbn. by rewrite E, Hpre.
        -- intros ([|d' pre] & Hs & Hpre); [done|].
           injection Hs as <- ->. injection Hpre as _ Hpre. by exists pre.
      * split; [done|]. intros ([|d' pre] & Hs & Hpre); [done|].
        injection Hs as <- ->. by injection Hpre as Hd _.
Qed.

Lemma alnumToEnd_Some s id : alnumToEnd s = Some id ↔ s = id ∧ linkId id.
Proof.
  unfold alnumToEnd, linkId. destruct s as [|c s].
  - split; [done|]. by intros (<- & ? & _).
  - destruct (forallb clsAlnum (c :: s)) eqn:E.
    + split; [by intros [= <-]|by intros (<- & _)].
    + split; [done|]. intros (<- & _ & ?). congruence.
Qed.

Lemma matchHere_alnumToEnd p url id :
  matchHere (clsText p) url ≫= alnumToEnd = Some id ↔
  linkId id ∧ ∃ scheme, url = scheme ++ id ∧ foldCase <$> scheme = foldCase <$> p.
Proof.
  destruct (matchHere (clsText p) url) as [r|] eqn:E; cbn [mbind option_bind].
  - rewrite alnumToEnd_Some. apply matchHere_clsText_inv in E as (pre & -> & Hpre).
    split.
    + intros [-> Hid]. split; [done|]. by exists pre.
    + intros (Hid & scheme & Hurl & Hscheme). split; [|done].
      assert (length pre = length scheme) as Hlen.
      { apply (f_equal length) in Hpre, Hscheme.
        rewrite !length_fmap in Hpre, Hscheme. lia. }
      by apply app_inj_1 in Hurl as [_ ->].
  - split; [done|]. intros (_ & scheme & -> & Hscheme).
    assert (matchHere (clsText p) (scheme ++ id) = Some id) as E'
      by (apply matchHere_clsText_inv; by exists scheme).
    congruence.
Qed.

Lemma item_is_not_folder scheme scheme' id id' :
  foldCase <$> scheme = foldCase <$> lit "eagle://item/" →
  foldCase <$> scheme' = foldCase <$> lit "eagle://folder/" →
  scheme ++ id ≠ scheme' ++ id'.
Proof.
  intros H H' Heq.
  assert ((foldCase <$> scheme ++ id) !! 8%nat = Some 73) as H1.
  { rewrite fmap_app, lookup_app_l, H; [by vm_compute|].
    rewrite H. apply Nat.ltb_lt. by vm_compute. }
  assert ((foldCase <$> scheme' ++ id') !! 8%nat = Some 70) as H2.
  { rewrite fmap_app, lookup_app_l, H'; [by vm_compute|].
    rewrite H'. apply Nat.ltb_lt. by vm_compute. }
  rewrite Heq in H1. congruence.
Qed.

Lemma buildEagleUrl_nil t :
  buildEagleUrl t [] =
    match t with
    | itemUrl => lit "eagle://item/"
    | folderUrl => lit "eagle://folder/"
    end.
Proof.
  destruct t; unfold buildEagleUrl, buildEagleItemUrl, buildEagleFolderUrl;
    apply app_nil_r.
Qed.

(** X15.  [parseEagleUrl] accepts exactly the texts made of the scheme of
    an item link or of a folder link, in any letter case, followed by one
    or more letters or digits, and returns the kind and that identifier;
    so it inverts the two builders on every such identifier. *)
Theorem parseEagleUrl_spec :
  (∀ url t id,
     parseEagleUrl url = Some (t, id) ↔
     linkId id
     ∧ ∃ scheme, url = scheme ++ id
         ∧ foldCase <$> scheme = foldCase <$> buildEagleUrl t [])
  ∧ (∀ t id, linkId id → parseEagleUrl (buildEagleUrl t id) = Some (t, id)).
Proof.
  assert (∀ url t id,
     parseEagleUrl url = Some (t, id) ↔
     linkId id
     ∧ ∃ scheme, url = scheme ++ id
         ∧ foldCase <$> scheme = foldCase <$> buildEagleUrl t []) as Hspec.
  { intros url t id. unfold parseEagleUrl.
    pose proof (matchHere_alnumToEnd (lit "eagle://item/") url) as Hitem.
    pose proof (matchHere_alnumToEnd (lit "eagle://folder/") url) as Hfolder.
    destruct (matchHere (clsText (lit "eagle://item/")) url ≫= alnumToEnd)
      as [id1|].
    - destruct (Hitem id1) as [(Hid1 & s1 & Hu1 & Hs1) _]; [done|]. split.
      + intros [= <- <-]. split; [done|]. exists s1.
        by rewrite buildEagleUrl_nil.
      + intros (Hid & scheme & Hurl & Hscheme). destruct t.
        * rewrite buildEagleUrl_nil in Hscheme.
          assert (Some id1 = Some id) as [= ->]; [|done].
          apply Hitem. split; [done|]. by exists scheme.
        * exfalso. rewrite buildEagleUrl_nil in Hscheme.
          apply (item_is_not_folder s1 scheme id1 id); congruence.
    - destruct (matchHere (clsText (lit "eagle://folder/")) url ≫= alnumToEnd)
        as [id2|].
      + destruct (Hfolder id2) as [(Hid2 & s2 & Hu2 & Hs2) _]; [done|]. split.
        * intros [= <- <-]. split; [done|]. exists s2.
          by rewrite buildEagleUrl_nil.
        * intros (Hid & scheme & Hurl & Hscheme). destruct t.
          -- exfalso. rewrite buildEagleUrl_nil in Hscheme.
             apply (item_is_not_folder scheme s2 id id2); congruence.
          -- rewrite buildEagleUrl_nil in Hscheme.
             assert (Some id2 = Some id) as [= ->]; [|done].
             apply Hfolder. split; [done|]. by exists scheme.
      + split; [done|]. intros (Hid & scheme & Hurl & Hscheme).
        rewrite buildEagleUrl_nil in Hscheme. destruct t.
        * assert (None = Some id) as Habs; [|done].
          apply Hitem. split; [done|]. by exists scheme.
        * assert (None = Some id) as Habs; [|done].
          apply Hfolder. split; [done|]. by exists scheme. }
  split; [exact Hspec|].
  intros t id Hid. apply Hspec. split; [done|].
  exists (buildEagleUrl t []). split; [|done].
  rewrite buildEagleUrl_nil. by destruct t.
Qed.

Lemma takeWhile_app (f : N → bool) a c r :
  forallb f a = true → f c = false →
  takeWhile f (a ++ c :: r) = a ∧ dropWhile f (a ++ c :: r) = c :: r.
Proof.
  intros Ha Hc. induction a as [|d a IH]; cbn.
  - by rewrite Hc.
  - cbn in Ha. apply andb_true_iff in Ha as [Hd Ha]. rewrite Hd.
    destruct (IH Ha) as [-> ->]. done.
Qed.

Lemma takeWhile_all (f : N → bool) a :
  forallb f a = true → takeWhile f a = a ∧ dropWhile f a = [].
Proof.
  induction a as [|d a IH]; [done|]. cbn.
  intros [Hd Ha]%andb_true_iff. rewrite Hd. by destruct (IH Ha) as [-> ->].
Qed.

Lemma matchHere_suffix p s r : matchHere p s = Some r → r `suffix_of` s.
Proof.
  revert s. induction p as [|k p IH]; intros s; cbn.
  - by intros [= ->].
  - destruct s as [|c s]; [done|]. destruct (k c); [|done].
    intros Hr%IH. by apply suffix_cons_r.
Qed.

Lemma dropWhile_suffix (f : N → bool) s : dropWhile f s `suffix_of` s.
Proof.
  induction s as [|c s IH]; [done|]. cbn.
  destruct (f c); [by apply suffix_cons_r|done].
Qed.

Lemma localhostItemQuery_suffix url r :
  localhostItemQuery url = Some r → r `suffix_of` url.
Proof.
  unfold localhostItemQuery.
  destruct (matchHere (clsText (lit "http")) url) as [r0|] eqn:E0; [|done].
  cbn [mbind option_bind]. apply matchHere_suffix in E0.
  set (r0' := match r0 with
              | c :: r' => if clsChar 115 c then r' else r0
              | [] => r0
              end).
  assert (r0' `suffix_of` r0) as Hs.
  { unfold r0'. destruct r0 as [|c r']; [done|].
    destruct (clsChar 115 c); [by apply suffix_cons_r|done]. }
  destruct (matchHere (clsText (lit "://localhost:")) r0') as [r1|] eqn:E1;
    [|done].
  cbn [mbind option_bind]. apply matchHere_suffix in E1.
  destruct (takeWhile isDigit r1); [done|]. intros E2%matchHere_suffix.
  etrans; [exact E2|]. etrans; [apply dropWhile_suffix|].
  etrans; [exact E1|]. by etrans.
Qed.

(** X16.  The test the paste handler makes and the parser it then calls
    agree: [isEagleLocalhostUrl] holds exactly when
    [parseEagleLocalhostUrl] returns an identifier, so the handler never
    reports an invalid link for a text that passed the test.  The
    identifier returned is one or more letters or digits and ends the
    text; and every link of the local server with a port of one or more
    digits and such an identifier, over http or https, is parsed to its
    identifier. *)
Theorem parseEagleLocalhostUrl_spec :
  (∀ url, isEagleLocalhostUrl url = true ↔ is_Some (parseEagleLocalhostUrl url))
  ∧ (∀ url id, parseEagleLocalhostUrl url = Some id →
       linkId id ∧ id `suffix_of` url)
  ∧ (∀ (tls : bool) port id,
       port ≠ [] → forallb isDigit port = true → linkId id →
       parseEagleLocalhostUrl
         (lit "http" ++ (if tls then lit "s" else []) ++ lit "://localhost:"
          ++ port ++ lit "/item?id=" ++ id) = Some id).
Proof.
  split; [|split].
  - intros url. unfold isEagleLocalhostUrl, parseEagleLocalhostUrl.
    destruct (localhostItemQuery url) as [[|c id]|]; cbn [mbind option_bind];
      [split; [done|by intros [??]]| |split; [done|by intros [??]]].
    unfold alnumToEnd. destruct (forallb clsAlnum (c :: id)).
    + split; [by eexists|done].
    + split; [done|by intros [??]].
  - intros url id. unfold parseEagleLocalhostUrl.
    destruct (localhostItemQuery url) as [r|] eqn:E; [|done].
    cbn [mbind option_bind]. intros [-> Hid]%alnumToEnd_Some.
    split; [done|]. by apply localhostItemQuery_suffix.
  - intros tls port id Hport Hdigits [Hne Hid].
    unfold parseEagleLocalhostUrl, localhostItemQuery.
    rewrite matchHere_clsText. cbn [mbind option_bind].
    assert (match (if tls then lit "s" else []) ++ lit "://localhost:"
                  ++ port ++ lit "/item?id=" ++ id with
            | c :: r' => if clsChar 115 c then r'
                         else (if tls then lit "s" else []) ++ lit "://localhost:"
                              ++ port ++ lit "/item?id=" ++ id
            | [] => (if tls then lit "s" else []) ++ lit "://localhost:"
                    ++ port ++ lit "/item?id=" ++ id
            end = lit "://localhost:" ++ port ++ lit "/item?id=" ++ id) as ->.
    { destruct tls.
      - change (lit "s") with [115]. cbn [app]. by rewrite clsChar_refl.
      - change (lit "://localhost:") with (58 :: lit "//localhost:").
        cbn [app]. by vm_compute (clsChar 115 58). }
    rewrite matchHere_clsText. cbn [mbind option_bind].
    change (lit "/item?id=") with (47 :: lit "item?id=") at 1 3.
    cbn [app].
    destruct (takeWhile_app isDigit port 47 (lit "item?id=" ++ id))
      as [-> ->]; [done|by vm_compute|].
    destruct port as [|d port]; [done|].
    change (47 :: lit "item?id=" ++ id) with (lit "/item?id=" ++ id).
    rewrite matchHere_clsText. apply alnumToEnd_Some. by repeat split.
Qed.

(** ** The links of a note *)

Lemma itemLinksFrom_skip a r :
  itemLinksFrom (length a) (a ++ r) = itemLinksFrom 0 r.
Proof. induction a as [|c a IH]; [done|]. exact IH. Qed.

Lemma uniq_fold (seen matches : list jsstring) :
  NoDup seen →
  let r := foldl (λ seen x, if bool_decide (x ∈ seen) then seen else seen ++ [x])
                 seen matches in
  NoDup r ∧ ∀ x, x ∈ r ↔ x ∈ seen ∨ x ∈ matches.
Proof.
  revert seen. induction matches as [|m matches IH]; intros seen Hnd; cbn.
  - split; [done|]. intros x. rewrite elem_of_nil. tauto.
  - case_bool_decide as Hin.
    + destruct (IH seen Hnd) as [Hnd' Hel]. split; [done|].
      intros x. rewrite Hel, elem_of_cons. split; [tauto|].
      intros [?|[->|?]]; tauto.
    + destruct (IH (seen ++ [m])) as [Hnd' Hel].
      { apply NoDup_app. split; [done|]. split; [|apply NoDup_singleton].
        intros x Hx ->%list_elem_of_singleton. done. }
      split; [done|]. intros x.
      rewrite Hel, elem_of_app, list_elem_of_singleton, elem_of_cons. tauto.
Qed.

Lemma uniq_NoDup_id matches : NoDup matches → uniq matches = matches.
Proof.
  unfold uniq. intros Hnd.
  assert (∀ seen : list jsstring, (∀ x, x ∈ seen → x ∉ matches) →
    foldl (λ seen x, if bool_decide (x ∈ seen) then seen else seen ++ [x])
          seen matches = seen ++ matches) as H.
  { induction Hnd as [|m matches Hm Hnd IH]; intros seen Hdis; cbn.
    - by rewrite app_nil_r.
    - rewrite bool_decide_eq_false_2.
      + rewrite IH, <- app_assoc; [done|].
        intros x [Hx| ->%list_elem_of_singleton]%elem_of_app; [|done].
        intros Hx'. apply (Hdis x Hx). by right.
      + intros Hin. apply (Hdis m Hin). left. }
  apply (H []). by intros x ?%elem_of_nil.
Qed.

Lemma matchItemLinkHere_sound s id len :
  matchItemLinkHere s = Some (id, len) → linkId id.
Proof.
  unfold matchItemLinkHere.
  destruct (matchHere _ s) as [r|]; [|done]. cbn [mbind option_bind].
  destruct (takeWhile clsAlnum r) as [|c id'] eqn:E; [done|].
  intros [= <- _]. split; [done|]. rewrite <- E. clear.
  induction r as [|d r IH]; [done|]. cbn.
  destruct (clsAlnum d) eqn:Hd; [|done]. cbn. by rewrite Hd.
Qed.

Lemma itemLinksFrom_sound k s :
  Forall linkId (itemLinksFrom k s).
Proof.
  revert k. induction s as [|c s IH]; intros k; [by constructor|].
  cbn [itemLinksFrom]. destruct k as [|k]; [|apply IH].
  destruct (matchItemLinkHere (c :: s)) as [[id len]|] eqn:E; [|apply IH].
  constructor; [by eapply matchItemLinkHere_sound|apply IH].
Qed.

Lemma matchItemLinkHere_built id rest :
  linkId id →
  match rest with [] => True | c :: _ => clsAlnum c = false end →
  matchItemLinkHere (buildEagleItemUrl id ++ rest)
  = Some (id, length (buildEagleItemUrl id)).
Proof.
  intros [Hne Hid] Hrest. unfold matchItemLinkHere, buildEagleItemUrl.
  rewrite <- app_assoc, matchHere_clsText. cbn [mbind option_bind].
  assert (takeWhile clsAlnum (id ++ rest) = id
          ∧ dropWhile clsAlnum (id ++ rest) = rest) as [-> ->].
  { destruct rest as [|c rest].
    - rewrite app_nil_r. by apply takeWhile_all.
    - by apply takeWhile_app. }
  destruct id as [|c id]; [done|]. f_equal. f_equal.
  rewrite !length_app. lia.
Qed.

Lemma matchItemLinkHere_not_e c s :
  clsAlnum c = false → matchItemLinkHere (c :: s) = None.
Proof.
  intros Hc. unfold matchItemLinkHere.
  change (lit "eagle://item/") with (101 :: lit "agle://item/").
  cbn [clsText fmap list_fmap matchHere].
  assert (clsChar 101 c = false) as ->; [|done].
  unfold clsChar, foldCase. unfold clsAlnum, isAsciiLetter, isDigit in Hc.
  apply orb_false_iff in Hc as [Hc _].
  apply orb_false_iff in Hc as [Hu Hl].
  destruct ((97 <=? c) && (c <=? 122)) eqn:E; [done|].
  apply N.eqb_neq. intros ->. by vm_compute in E.
Qed.

Lemma itemLinksFrom_join sep ids :
  clsAlnum sep = false → Forall linkId ids →
  itemLinksFrom 0 (join [sep] (buildEagleItemUrl <$> ids)) = ids.
Proof.
  intros Hsep. induction 1 as [|id ids Hid Hids IH]; [done|].
  rewrite fmap_cons.
  assert (∃ rest, join [sep] (buildEagleItemUrl id :: (buildEagleItemUrl <$> ids))
                  = buildEagleItemUrl id ++ rest
                  ∧ match rest with [] => True | c :: _ => clsAlnum c = false end
                  ∧ itemLinksFrom 0 rest = ids) as (rest & -> & Hrest & Hlinks).
  { destruct ids as [|id' ids].
    - exists []. by rewrite app_nil_r.
    - exists (sep :: join [sep] (buildEagleItemUrl <$> id' :: ids)).
      rewrite fmap_cons, join_cons_cons. split; [done|]. split; [done|].
      cbn [itemLinksFrom]. rewrite matchItemLinkHere_not_e by done.
      by rewrite <- fmap_cons. }
  pose proof (matchItemLinkHere_built id rest Hid Hrest) as Hm.
  unfold buildEagleItemUrl in *.
  change (lit "eagle://item/") with (101 :: lit "agle://item/") in *.
  cbn [app] in *. cbn [itemLinksFrom]. rewrite Hm. f_equal.
  cbn [length pred].
  rewrite <- (itemLinksFrom_skip (lit "agle://item/" ++ id) rest) in Hlinks.
  by rewrite <- app_assoc in Hlinks.
Qed.

(** X17.  [extractEagleLinks] never returns an identifier twice, and every
    identifier it returns is one or more letters or digits.  On a text made
    of built item links, one after the other with a separator between them
    that is neither a letter nor a digit, it returns the identifiers of the
    links in their order, each at its first occurrence; all of them when
    no link is repeated. *)
Theorem extractEagleLinks_spec :
  (∀ content,
     NoDup (extractEagleLinks content)
     ∧ Forall linkId (extractEagleLinks content))
  ∧ (∀ sep ids,
       clsAlnum sep = false → Forall linkId ids →
       extractEagleLinks (join [sep] (buildEagleItemUrl <$> ids)) = uniq ids
       ∧ (NoDup ids →
          extractEagleLinks (join [sep] (buildEagleItemUrl <$> ids)) = ids)).
Proof.
  split.
  - intros content. unfold extractEagleLinks, uniq.
    destruct (uniq_fold [] (itemLinksFrom 0 content)) as [Hnd Hel];
      [constructor|].
    split; [done|]. apply Forall_forall. intros id Hin.
    apply Hel in Hin as [Hin|Hin]; [by apply elem_of_nil in Hin|].
    pose proof (itemLinksFrom_sound 0 content) as Hs.
    by eapply Forall_forall in Hs.
  - intros sep ids Hsep Hids. unfold extractEagleLinks.
    rewrite itemLinksFrom_join by done. split; [done|].
    apply uniq_NoDup_id.
Qed.

(** ** Registering the current computer *)

Lemma detectCurrentUsername_eq this :
  detectCurrentUsername (process_platform this) (getVaultPath this) =
    match getCurrentUsername this with
    | [] => lit "unknown"
    | c :: u => c :: u
    end.
Proof.
  unfold detectCurrentUsername, getCurrentUsername, getCurrentPlatform.
  cbv zeta. destruct (process_platform this); [| |done].
  - by destruct (stripPrefix _ _) as [rest|]; [destruct (takeWhile _ rest)|].
  - by destruct (matchHere _ _) as [rest|]; [destruct (takeWhile _ rest)|].
Qed.

Lemma isCurrent_withComputers this cs c :
  isCurrent (withComputers this cs) c = isCurrent this c.
Proof. done. Qed.

Lemma find_snoc {A} (f : A → bool) l x :
  find f (l ++ [x]) =
    match find f l with Some y => Some y | None => if f x then Some x else None end.
Proof.
  induction l as [|a l IH]; cbn; [by destruct (f x)|].
  by destruct (f a).
Qed.

(** X18.  The button [Add current computer] keeps the registered profiles
    as they are and in their order, and pressing it again changes nothing.
    When the user name of the machine can be read off the vault's path,
    the registry then holds a profile that the plugin takes for the
    current computer, with that platform and user name.  When it cannot
    (the vault does not lie under a home directory), the profile added
    carries the user name ['unknown'], which the plugin, for whom the user
    name is then empty, never takes for the current computer. *)
Theorem addCurrentComputer_registers this basePath newId :
  getVaultPath this = basePath →
  let this' := addCurrentComputer this basePath newId in
  computers (settings this) `prefix_of` computers (settings this')
  ∧ (∀ newId', addCurrentComputer this' basePath newId' = this')
  ∧ (getCurrentUsername this ≠ [] →
     ∃ c, currentComputerOf this' = Some c
          ∧ platform c = getCurrentPlatform this
          ∧ username c = getCurrentUsername this)
  ∧ (getCurrentUsername this = [] →
     currentComputerOf this' = currentComputerOf this).
Proof.
  intros <-. cbn zeta. unfold addCurrentComputer. cbn zeta.
  rewrite detectCurrentUsername_eq.
  set (u := match getCurrentUsername this with
            | [] => lit "unknown"
            | c :: u => c :: u
            end).
  set (registered := λ c : ComputerProfile,
         bool_decide (platform c = process_platform this)
         && str_eqb (username c) u).
  set (newProfile := mkProfile newId _ (process_platform this) u []).
  destruct (existsb registered (computers (settings this))) eqn:Hex.
  - split; [done|]. split; [|split].
    + intros newId'. rewrite detectCurrentUsername_eq. fold u. fold registered.
      by rewrite Hex.
    + intros Hne. unfold currentComputerOf.
      apply existsb_exists in Hex as (c & Hin & Hc).
      assert (isCurrent this c = true) as Hcur.
      { unfold isCurrent, getCurrentPlatform. unfold registered, u in Hc.
        by destruct (getCurrentUsername this). }
      destruct (find (isCurrent this) (computers (settings this)))
        as [c'|] eqn:Hfind.
      * exists c'. split; [done|]. apply find_some in Hfind as [_ Hc'].
        unfold isCurrent in Hc'. apply andb_true_iff in Hc' as [Hp Hu].
        apply bool_decide_eq_true in Hp. by apply str_eqb_eq in Hu.
      * pose proof (find_none _ _ Hfind c Hin). congruence.
    + done.
  - split; [by apply prefix_app_r|]. split; [|split].
    + intros newId'. cbn [withComputers settings computers process_platform
                          getVaultPath].
      rewrite detectCurrentUsername_eq.
      change (getCurrentUsername (withComputers this _))
        with (getCurrentUsername this).
      fold u. fold registered.
      rewrite existsb_app. cbn [existsb]. unfold registered at 2.
      cbn [platform username]. rewrite bool_decide_eq_true_2 by done.
      rewrite str_eqb_refl. cbn. by rewrite orb_true_r.
    + intros Hne. unfold currentComputerOf.
      cbn [withComputers settings computers].
      change (isCurrent (withComputers this ?cs)) with (isCurrent this).
      rewrite find_snoc.
      destruct (find (isCurrent this) (computers (settings this)))
        as [c'|] eqn:Hfind.
      * exists c'. split; [done|]. apply find_some in Hfind as [_ Hc'].
        unfold isCurrent in Hc'. apply andb_true_iff in Hc' as [Hp Hu].
        apply bool_decide_eq_true in Hp. by apply str_eqb_eq in Hu.
      * assert (isCurrent this newProfile = true) as ->.
        { unfold isCurrent, getCurrentPlatform. cbn [newProfile platform username].
          rewrite bool_decide_eq_true_2 by done. cbn. apply str_eqb_eq.
          unfold u. by destruct (getCurrentUsername this). }
        exists newProfile. split; [done|]. split; [done|].
        cbn. unfold u. by destruct (getCurrentUsername this).
    + intros Hnone. unfold currentComputerOf.
      cbn [withComputers settings computers].
      change (isCurrent (withComputers this ?cs)) with (isCurrent this).
      rewrite find_snoc.
      destruct (find (isCurrent this) (computers (settings this))); [done|].
      assert (isCurrent this newProfile = false) as ->; [|done].
      unfold isCurrent. cbn [newProfile username]. unfold u.
      rewrite Hnone. apply andb_false_iff. right.
      apply str_eqb_ne. by vm_compute.
Qed.

Lemma addCurrentComputer_registers_witness :
  let this' :=
    addCurrentComputer MoreExamples.onDriveD (lit "D:\vault")
      (lit "win32-unknown-1700000000000") in
  computers (settings MoreExamples.onDriveD) `prefix_of` computers (settings this')
  ∧ (∀ newId', addCurrentComputer this' (lit "D:\vault") newId' = this')
  ∧ (getCurrentUsername MoreExamples.onDriveD ≠ [] →
     ∃ c, currentComputerOf this' = Some c
          ∧ platform c = getCurrentPlatform MoreExamples.onDriveD
          ∧ username c = getCurrentUsername MoreExamples.onDriveD)
  ∧ (getCurrentUsername MoreExamples.onDriveD = [] →
     currentComputerOf this' = currentComputerOf MoreExamples.onDriveD).
Proof.
  apply (addCurrentComputer_registers MoreExamples.onDriveD (lit "D:\vault")
           (lit "win32-unknown-1700000000000")).
  reflexivity.
Defined.

(** ** The file of an Eagle item *)

Lemma lastIndexOf_None c s : c ∉ s → lastIndexOf c s = None.
Proof.
  induction s as [|d s IH]; [done|]. intros Hs. cbn.
  rewrite IH by (intros ?; apply Hs; by right).
  destruct (N.eqb_spec d c) as [->|]; [exfalso; apply Hs; left|done].
Qed.

Lemma lastIndexOf_last c a b :
  c ∉ b → lastIndexOf c (a ++ c :: b) = Some (length a).
Proof.
  intros Hb. induction a as [|d a IH]; cbn.
  - by rewrite lastIndexOf_None, N.eqb_refl.
  - by rewrite IH.
Qed.

Lemma getEagleItemFilePath_decoded t dir file name ext :
  t ≠ [] → safeDecodeUri t = dir ++ slash :: file → slash ∉ file →
  getEagleItemFilePath (Some t) name ext
  = Some (dir ++ lit "/" ++ name ++ lit "." ++ ext).
Proof.
  intros Ht Hd Hfile. unfold getEagleItemFilePath.
  destruct t as [|c t]; [done|]. cbv zeta. rewrite Hd.
  rewrite lastIndexOf_last by done.
  change (default O (Some ?x)) with x. by rewrite take_app_length.
Qed.

(** X19.  The path [getEagleItemFilePath] gives for an item is the file
    [name.ext] in the folder of the item's thumbnail: for a thumbnail path
    [dir/file], handed over percent-encoded or as it is, the result is
    [dir/name.ext].  When the thumbnail path holds no slash at all (a path
    written with backslashes), the folder is lost and the result is
    [/name.ext]. *)
Theorem getEagleItemFilePath_sibling dir file name ext :
  wellFormedUTF16 (dir ++ slash :: file) = true →
  slash ∉ file →
  (∃ t, encodeSegments (dir ++ slash :: file) = Some t
        ∧ getEagleItemFilePath (Some t) name ext
          = Some (dir ++ lit "/" ++ name ++ lit "." ++ ext))
  ∧ (percent ∉ dir ++ slash :: file →
     getEagleItemFilePath (Some (dir ++ slash :: file)) name ext
     = Some (dir ++ lit "/" ++ name ++ lit "." ++ ext))
  ∧ (∀ t, t ≠ [] → slash ∉ t → percent ∉ t →
     getEagleItemFilePath (Some t) name ext
     = Some (lit "/" ++ name ++ lit "." ++ ext)).
Proof.
  intros Hwf Hfile. split; [|split].
  - destruct (Encode_decode _ unescapedInPath_ascii _ Hwf) as (t & He & Hd).
    exists t. rewrite encodeSegments_Encode. split; [done|].
    apply (getEagleItemFilePath_decoded _ _ file);
      [|by unfold safeDecodeUri; rewrite Hd|done].
    intros ->. cbn in Hd. by destruct dir.
  - intros Hp. apply (getEagleItemFilePath_decoded _ _ file);
      [by destruct dir| |done].
    unfold safeDecodeUri. by rewrite decode_no_percent.
  - intros t Ht Hs Hp. unfold getEagleItemFilePath.
    destruct t as [|c t]; [done|]. cbv zeta.
    unfold safeDecodeUri. rewrite decode_no_percent by done.
    change (default (c :: t) (Some ?x)) with x.
    by rewrite lastIndexOf_None.
Qed.

Lemma getEagleItemFilePath_sibling_witness :
  (∃ t, encodeSegments (lit "/Users/bob/Pics.library/images/M1.info" ++ slash
                        :: lit "my cat_thumbnail.png") = Some t
        ∧ getEagleItemFilePath (Some t) (lit "my cat") (lit "png")
          = Some (lit "/Users/bob/Pics.library/images/M1.info" ++ lit "/"
                  ++ lit "my cat" ++ lit "." ++ lit "png"))
  ∧ (percent ∉ lit "/Users/bob/Pics.library/images/M1.info" ++ slash
                 :: lit "my cat_thumbnail.png" →
     getEagleItemFilePath
       (Some (lit "/Users/bob/Pics.library/images/M1.info" ++ slash
              :: lit "my cat_thumbnail.png")) (lit "my cat") (lit "png")
     = Some (lit "/Users/bob/Pics.library/images/M1.info" ++ lit "/"
             ++ lit "my cat" ++ lit "." ++ lit "png"))
  ∧ (∀ t, t ≠ [] → slash ∉ t → percent ∉ t →
     getEagleItemFilePath (Some t) (lit "my cat") (lit "png")
     = Some (lit "/" ++ lit "my cat" ++ lit "." ++ lit "png")).
Proof.
  apply (getEagleItemFilePath_sibling
           (lit "/Users/bob/Pics.library/images/M1.info")
           (lit "my cat_thumbnail.png")).
  - by vm_compute.
  - apply (bool_decide_unpack _). by vm_compute.
Defined.

(** ** The two builders of a file identifier *)

(** X20.  The search modal has a builder of its own.  With the translation
    switched off, it agrees with the builder of the plugin on every path
    without percent sign and backslash, except for a path with a drive
    letter on Windows; and for a path with a drive letter the modal
    escapes the colon and writes only two slashes, where the plugin on
    Windows keeps the colon and writes three. *)
Theorem modal_pathToFileUrl_vs_plugin :
  (∀ this path,
     enableCrossPlatform (settings this) = false →
     percent ∉ path → backslash ∉ path →
     (getCurrentPlatform this = win32 → startsWithDrive path = false) →
     pathToFileUrl this path = EagleSearchModal.pathToFileUrl path)
  ∧ (∀ this path url url',
       enableCrossPlatform (settings this) = false →
       getCurrentPlatform this = win32 →
       percent ∉ path → backslash ∉ path → startsWithDrive path = true →
       EagleSearchModal.pathToFileUrl path = Some url →
       pathToFileUrl this path = Some url' →
       ∃ l e, isAsciiLetter l = true
              ∧ url = lit "file://" ++ l :: lit "%3A" ++ e
              ∧ url' = lit "file:///" ++ l :: lit ":" ++ e).
Proof.
  assert (∀ this path,
    enableCrossPlatform (settings this) = false →
    percent ∉ path → backslash ∉ path →
    pathToFileUrl this path =
      encodedPath ← encodeSegments path;
      if bool_decide (getCurrentPlatform this = win32) && startsWithDrive path
      then Some (lit "file:///" ++ restoreDriveColon encodedPath)
      else Some (lit "file://" ++ encodedPath)) as Hplugin.
  { intros this path Hoff Hp Hb. unfold pathToFileUrl. cbv zeta.
    rewrite fullyDecodeUri_no_percent by done.
    unfold convertPathForCurrentPlatform. rewrite Hoff. cbn [negb orb].
    by rewrite normalizeSlashes_id. }
  split.
  - intros this path Hoff Hp Hb Hdrive. rewrite Hplugin by done.
    unfold EagleSearchModal.pathToFileUrl.
    destruct (encodeSegments path) as [e|]; [|done]. cbn [mbind option_bind].
    case_bool_decide as Hwin; [|done]. by rewrite (Hdrive Hwin).
  - intros this path url url' Hoff Hwin Hp Hb Hdrive Hmodal Hurl.
    rewrite Hplugin in Hurl by done.
    unfold EagleSearchModal.pathToFileUrl in Hmodal.
    destruct (encodeSegments path) as [e|] eqn:Henc; [|done].
    cbn [mbind option_bind] in *.
    rewrite bool_decide_eq_true_2, Hdrive in Hurl by done. cbn in Hurl.
    apply (inj Some) in Hmodal, Hurl. subst url url'.
    apply startsWithDrive_inv in Hdrive as (l & rest & -> & Hl).
    rewrite encodeSegments_Encode in Henc.
    apply Encode_drive in Henc as (encRest & _ & ->); [|done].
    exists l, encRest. split; [done|]. split; [done|].
    unfold restoreDriveColon. rewrite Hl, stripPrefix_app. done.
Qed.

(** ** The marker of an upload *)

Lemma find_app_None {A} (f : A → bool) l k :
  find f l = None → find f (l ++ k) = find f k.
Proof.
  induction l as [|a l IH]; [done|]. cbn. by destruct (f a).
Qed.

Lemma find_app_Some {A} (f : A → bool) l k x :
  find f l = Some x → find f (l ++ k) = Some x.
Proof.
  induction l as [|a l IH]; [done|]. cbn. by destruct (f a).
Qed.

(** X21.  An item counts as uploaded exactly when a key can be read off its
    tags.  After an upload of an item that had no marker, the key read off
    the new tags is the key of the upload.  But a marker without key (the
    bare tag [r2:]), which lets the upload go ahead, stays in front of the
    new marker: the key read off the new tags is still empty. *)
Theorem getR2KeyFromItem_after_upload tags key :
  (hasR2Upload tags = true ↔ is_Some (getR2KeyFromItem tags))
  ∧ (getR2KeyFromItem tags = None →
     getR2KeyFromItem (tagsAfterUpload tags key) = Some key)
  ∧ (getR2KeyFromItem tags = Some [] →
     getR2KeyFromItem (tagsAfterUpload tags key) = Some []).
Proof.
  unfold hasR2Upload, getR2KeyFromItem. split; [|split].
  - destruct (find _ tags) as [t|] eqn:Hfind.
    + split; [by eexists|]. intros _. apply find_some in Hfind as [Hin Ht].
      apply existsb_exists. by exists t.
    + split; [|by intros [??]]. intros (t & Hin & Ht)%existsb_exists.
      by rewrite (find_none _ _ Hfind t Hin) in Ht.
  - destruct (find _ tags) as [t|] eqn:Hfind; [done|]. intros _.
    assert (lit "r2:" ++ key ∉ tags) as Hnew.
    { intros Hin%list_elem_of_In.
      pose proof (find_none _ _ Hfind _ Hin) as Hno.
      by rewrite startsWith_app in Hno. }
    unfold tagsAfterUpload. cbv zeta.
    rewrite (bool_decide_eq_false_2 _ Hnew).
    assert (find (startsWith (lit "r2:")) (tags ++ [lit "r2:" ++ key])
            = Some (lit "r2:" ++ key)) as Hf.
    { rewrite find_app_None by done. cbn. by rewrite startsWith_app. }
    case_bool_decide.
    + rewrite Hf. by rewrite drop_app_length'.
    + rewrite (find_app_Some _ _ _ _ Hf). by rewrite drop_app_length'.
  - destruct (find _ tags) as [t|] eqn:Hfind; [|done]. intros [= Ht].
    unfold tagsAfterUpload. cbv zeta.
    assert (∀ k, find (startsWith (lit "r2:")) (tags ++ k) = Some t) as Hf
      by (intros k; by apply find_app_Some).
    pose proof (Hf []) as Hf0. rewrite app_nil_r in Hf0.
    repeat case_bool_decide; rewrite <- ?app_assoc, ?Hf, ?Hf0; by rewrite Ht.
Qed.
